(** * hulomind: chunker, in-memory vector index and two-pass retrieval

    A shallow embedding of

    - [src/processors/markdown_processor.py] (header-aware chunking),
    - [src/vectorstore/memory_store.py] (the in-memory vector index),
    - [src/services/knowledge_service.py] (broad/refined retrieval),

    with the properties of the retrieval core stated and proved over it.

    Conventions.  Python [str] is [string] (code points below 256), Python
    [int] is [Z], Python/numpy floats are the kernel's binary64 floats
    ([PrimFloat.float]), a raised exception is the [Raise] case of [result],
    the [dict] of the index is a [gmap], the id [set] of the orchestrator is a
    [gset].  The embedding model is an external collaborator: it is a
    variable of the sections that use it. *)

From Stdlib Require Import ZArith List Ascii String Floats Uint63 Lia Bool.
From Stdlib Require Import Sorting.Sorted Sorting.Permutation DecimalString.
From Stdlib Require Import DecimalNat.
From stdpp Require Import base decidable option list sorting gmap strings.
Import ListNotations.

Local Open Scope string_scope.
Local Open Scope list_scope.
Local Open Scope Z_scope.

(* ===================================================================== *)
(** * Binary64 comparisons *)
(* ===================================================================== *)

Module F64.

(** Python's [a >= b] on floats. *)
Definition geb (a b : float) : bool := PrimFloat.leb b a.

(** The order numpy sorts floats by: [a < b], with NaN after everything
    else ([npy_sort]'s [LT(a, b) = a < b || (b != b && a == a)]). *)
Definition np_lt (a b : float) : bool :=
  PrimFloat.ltb a b || (negb (PrimFloat.eqb b b) && PrimFloat.eqb a a).

Definition np_le (a b : float) : bool := negb (np_lt b a).

(** Python [int] to [float]: exact below [2^53] in absolute value, rounded
    to nearest below [2^63]; sizes and lengths stay far below. *)
Definition of_Z (z : Z) : float :=
  if z <? 0 then PrimFloat.opp (PrimFloat.of_uint63 (Uint63.of_Z (- z)))
  else PrimFloat.of_uint63 (Uint63.of_Z z).

(** The binary64 literals [0.7] and [1.5] of the chunker. *)
Definition f0_7 : float := 0x1.6666666666666p-1%float.
Definition f1_5 : float := 0x1.8p+0%float.

(** Python's [n > c * f] for an [int] [n], an [int] [c] and a float
    literal [f]: the product is a rounded binary64 multiplication. *)
Definition int_gt_scaled (n c : Z) (f : float) : bool :=
  PrimFloat.ltb (PrimFloat.mul (of_Z c) f) (of_Z n).

Definition sf_is_nan (x : spec_float) : bool :=
  match x with S754_nan => true | _ => false end.

Definition is_nan (x : float) : bool := PrimFloat.is_nan x.

Definition sf_is_zero (x : spec_float) : bool :=
  match x with S754_zero _ => true | _ => false end.

Definition sf_is_infinity (x : spec_float) : bool :=
  match x with S754_infinity _ => true | _ => false end.

Definition sf_zero_or_nan (x : spec_float) : bool :=
  sf_is_zero x || sf_is_nan x.

(** [x] is a zero or not a number. *)
Definition zero_or_nan (x : float) : Prop :=
  sf_zero_or_nan (Prim2SF x) = true.

End F64.

(* ===================================================================== *)
(** * The Python primitives the sources use *)
(* ===================================================================== *)

Module Py.

(** ** Exceptions *)

Inductive exn : Type :=
| EncodeError   (* the embedding model failed *)
| IndexError    (* a list index out of range *)
| ValueError    (* [np.dot] on arrays of different lengths *)
| MarkupError.  (* [rich] cannot render a console line as markup *)

Inductive result (A : Type) : Type :=
| Ok (a : A)
| Raise (e : exn).
Arguments Ok {A} a.
Arguments Raise {A} e.

Definition bind {A B} (m : result A) (k : A -> result B) : result B :=
  match m with
  | Ok a => k a
  | Raise e => Raise e
  end.

(** [l[i]] for an index that is not negative. *)
Definition index {A} (l : list A) (i : nat) : result A :=
  match nth_error l i with
  | Some a => Ok a
  | None => Raise IndexError
  end.

(** ** Strings *)

Definition newline : ascii := "010"%char.
Definition hash : ascii := "#"%char.

Definition len (s : string) : Z := Z.of_nat (String.length s).

(** [str.isspace] on one code point below 256. *)
Definition isspace (c : ascii) : bool :=
  let n := nat_of_ascii c in
  ((9 <=? n) && (n <=? 13) || (28 <=? n) && (n <=? 32)
   || (n =? 133) || (n =? 160))%nat.

Fixpoint lstrip_by (p : ascii -> bool) (s : string) : string :=
  match s with
  | String c s' => if p c then lstrip_by p s' else s
  | EmptyString => EmptyString
  end.

Definition rev_string (s : string) : string :=
  string_of_list_ascii (List.rev (list_ascii_of_string s)).

Definition rstrip_by (p : ascii -> bool) (s : string) : string :=
  rev_string (lstrip_by p (rev_string s)).

Definition strip_by (p : ascii -> bool) (s : string) : string :=
  rstrip_by p (lstrip_by p s).

(** [s.strip()], [s.lstrip('#')], [s.strip('#')]. *)
Definition strip : string -> string := strip_by isspace.
Definition lstrip_char (c : ascii) : string -> string :=
  lstrip_by (Ascii.eqb c).
Definition strip_char (c : ascii) : string -> string :=
  strip_by (Ascii.eqb c).

Definition startswith (s p : string) : bool := String.prefix p s.

(** [s.split('\n')]: one more piece than there are newlines. *)
Fixpoint split_lines (s : string) : list string :=
  match s with
  | EmptyString => [EmptyString]
  | String c s' =>
      if Ascii.eqb c newline then EmptyString :: split_lines s'
      else match split_lines s' with
           | l :: ls => String c l :: ls
           | [] => [String c EmptyString]
           end
  end.

(** ['\n'.join(ls)]. *)
Fixpoint join_lines (ls : list string) : string :=
  match ls with
  | [] => EmptyString
  | [l] => l
  | l :: ls' => String.append l (String newline (join_lines ls'))
  end.

(** [' '.join(ls)]. *)
Fixpoint join_spaces (ls : list string) : string :=
  match ls with
  | [] => EmptyString
  | [l] => l
  | l :: ls' => String.append l (String " "%char (join_spaces ls'))
  end.

(** [s.find(sub)]: the lowest index where [sub] occurs. *)
Fixpoint find_index (s sub : string) : option nat :=
  if String.prefix sub s then Some 0%nat
  else match s with
       | EmptyString => None
       | String _ s' => option_map S (find_index s' sub)
       end.

Definition find (s sub : string) : Z :=
  match find_index s sub with
  | Some i => Z.of_nat i
  | None => -1
  end.

(** A slice bound as Python clips it: negative counts from the end. *)
Definition clip (n i : Z) : Z :=
  if i <? 0 then Z.max 0 (i + n) else Z.min i n.

(** [s[a:b]]. *)
Definition slice (s : string) (a b : Z) : string :=
  let a' := clip (len s) a in
  let b' := clip (len s) b in
  String.substring (Z.to_nat a') (Z.to_nat (b' - a')) s.

(** [l[:k]]. *)
Definition take_upto {A} (k : Z) (l : list A) : list A :=
  firstn (Z.to_nat (clip (Z.of_nat (List.length l)) k)) l.

(** [range(start, stop, -1)]. *)
Definition range_down (start stop : Z) : list Z :=
  List.map (fun k => start - Z.of_nat k) (seq 0 (Z.to_nat (start - stop))).

(** [str(i)] for an [int] that is not negative. *)
Definition str_of_nat (n : nat) : string :=
  NilEmpty.string_of_uint (Nat.to_uint n).

(** Truthiness of an [Optional[str]]: [None] and [''] are false. *)
Definition truthy (o : option string) : bool :=
  match o with
  | Some EmptyString | None => false
  | Some _ => true
  end.

(** The positions where [sub] occurs in [s]. *)
Fixpoint occurrences_from (i : nat) (s sub : string) : list nat :=
  (if String.prefix sub s then [i] else []) ++
  match s with
  | EmptyString => []
  | String _ s' => occurrences_from (S i) s' sub
  end.

Definition occurrences (s sub : string) : list nat :=
  occurrences_from 0 s sub.

End Py.

Notation "'do' x <- m ; k" := (Py.bind m (fun x => k))
  (at level 10, x name, m at level 100, k at level 200).

(* ===================================================================== *)
(** * The chunker ([MarkdownProcessor]) *)
(* ===================================================================== *)

Module Chunker.

Import Py.

(** The loop state shared by [_simple_split_chunks] and
    [_split_large_section]: the chunks emitted so far, the lines of the
    chunk being built, and its size. *)
Record acc : Type := Acc {
  chunks : list string;
  current_chunk : list string;
  current_size : Z
}.

Definition acc0 : acc := Acc [] [] 0.

(** The overlap loop: walk the indices [idxs] of [current] (they come in
    descending order), prepending each line while it still fits in
    [chunk_overlap], and stop at the first line that does not. *)
Fixpoint overlap_loop (current : list string) (chunk_overlap : Z)
    (idxs : list Z) (overlap_lines : list string) (overlap_size : Z)
    : list string * Z :=
  match idxs with
  | [] => (overlap_lines, overlap_size)
  | i :: idxs' =>
      let line := nth (Z.to_nat i) current EmptyString in
      if overlap_size + len line + 1 <=? chunk_overlap
      then overlap_loop current chunk_overlap idxs'
             (line :: overlap_lines) (overlap_size + len line + 1)
      else (overlap_lines, overlap_size)
  end.

Definition length_Z {A} (l : list A) : Z := Z.of_nat (List.length l).

(** [for i in range(len(current_chunk) - 1, -1, -1)] *)
Definition overlap_simple (current : list string) (chunk_overlap : Z)
    : list string * Z :=
  overlap_loop current chunk_overlap
    (range_down (length_Z current - 1) (-1)) [] 0.

(** [for i in range(len(current_chunk) - 1,
                    max(0, len(current_chunk) - 3), -1)] *)
Definition overlap_large (current : list string) (chunk_overlap : Z)
    : list string * Z :=
  overlap_loop current chunk_overlap
    (range_down (length_Z current - 1) (Z.max 0 (length_Z current - 3)))
    [] 0.

Definition nonempty {A} (l : list A) : bool :=
  match l with [] => false | _ => true end.

(** The test of the size-based cut, as both loops write it. *)
Definition size_cut (a : acc) (line : string) (chunk_size : Z) : bool :=
  (chunk_size <? current_size a + (len line + 1))
  && nonempty (current_chunk a).

(** Appending the line, the last two statements of both loop bodies. *)
Definition push_line (a : acc) (line : string) : acc :=
  Acc (chunks a) (current_chunk a ++ [line])
      (current_size a + (len line + 1)).

(** Emit the current chunk and reseed it with [seed]. *)
Definition cut_with (a : acc) (seed : list string * Z) : acc :=
  Acc (chunks a ++ [join_lines (current_chunk a)]) (fst seed) (snd seed).

Definition flush (a : acc) : list string :=
  if nonempty (current_chunk a)
  then chunks a ++ [join_lines (current_chunk a)]
  else chunks a.

(** ** [_simple_split_chunks] *)

Definition simple_step (chunk_size chunk_overlap : Z) (a : acc)
    (line : string) : acc :=
  let a1 :=
    if size_cut a line chunk_size
    then cut_with a (overlap_simple (current_chunk a) chunk_overlap)
    else a in
  push_line a1 line.

Definition _simple_split_chunks (content : string)
    (chunk_size chunk_overlap : Z) : list string :=
  flush (fold_left (simple_step chunk_size chunk_overlap)
           (split_lines content) acc0).

(** ** [_split_large_section] *)

(** [line.strip().startswith('###') and current_chunk
    and current_size > chunk_size * 0.7] *)
Definition header_cut (a : acc) (line : string) (chunk_size : Z) : bool :=
  startswith (strip line) "###"
  && nonempty (current_chunk a)
  && F64.int_gt_scaled (current_size a) chunk_size F64.f0_7.

Definition large_step (chunk_size chunk_overlap : Z) (a : acc)
    (line : string) : acc :=
  let a1 := if header_cut a line chunk_size then cut_with a ([], 0) else a in
  let a2 :=
    if size_cut a1 line chunk_size
    then cut_with a1 (overlap_large (current_chunk a1) chunk_overlap)
    else a1 in
  push_line a2 line.

Definition _split_large_section (section_lines : list string)
    (chunk_size chunk_overlap : Z) : list string :=
  flush (fold_left (large_step chunk_size chunk_overlap) section_lines acc0).

(** ** [split_into_chunks] *)

Record header : Type := Header {
  index : nat;
  level : Z;
  text : string;
  line : string
}.

Definition is_header (l : string) : bool := startswith (strip l) "#".

Definition mk_header (i : nat) (l : string) : header :=
  Header i (len l - len (lstrip_char hash l))
         (strip (strip_char hash l)) l.

Fixpoint scan_headers (i : nat) (lines : list string) : list header :=
  match lines with
  | [] => []
  | l :: ls =>
      (if is_header l then [mk_header i l] else []) ++ scan_headers (S i) ls
  end.

(** The inner [for j in range(i + 1, len(header_positions))] with its
    [break]: the line index of the first later header whose level is not
    deeper, or the number of lines. *)
Definition section_end (n_lines : nat) (h : header) (later : list header)
    : nat :=
  match List.find (fun h' => level h' <=? level h) later with
  | Some h' => index h'
  | None => n_lines
  end.

Fixpoint sections (lines : list string) (hs : list header)
    (chunk_size chunk_overlap : Z) : list string :=
  match hs with
  | [] => []
  | h :: later =>
      let start_line := index h in
      let end_line := section_end (List.length lines) h later in
      let section_lines :=
        firstn (end_line - start_line) (skipn start_line lines) in
      let section_content := join_lines section_lines in
      (if F64.int_gt_scaled (len section_content) chunk_size F64.f1_5
       then _split_large_section section_lines chunk_size chunk_overlap
       else [section_content])
      ++ sections lines later chunk_size chunk_overlap
  end.

Definition split_into_chunks (content : string)
    (chunk_size chunk_overlap : Z) : list string :=
  let lines := split_lines content in
  let header_positions := scan_headers 0 lines in
  if nonempty header_positions
  then sections lines header_positions chunk_size chunk_overlap
  else _simple_split_chunks content chunk_size chunk_overlap.

End Chunker.

(* ===================================================================== *)
(** * Documents and chunks ([models.document]) *)
(* ===================================================================== *)

(** The fields are those [create_chunks] fills in. *)
Record Metadata : Type := {
  title : string;
  tags : list string;
  file_path : string
}.

Record Document : Type := {
  doc_id : string;
  doc_title : string;
  doc_content : string;
  doc_language : string;
  doc_category : string;
  doc_tags : list string;
  doc_file_path : string
}.

Record DocumentChunk : Type := {
  chunk_id : string;
  document_id : string;
  content : string;
  language : string;
  category : string;
  chunk_index : nat;
  start_pos : Z;
  end_pos : Z;
  metadata : Metadata
}.

#[global] Instance Metadata_eq_dec : EqDecision Metadata.
Proof. solve_decision. Defined.

#[global] Instance DocumentChunk_eq_dec : EqDecision DocumentChunk.
Proof. solve_decision. Defined.

Record Settings : Type := {
  chunk_size : Z;
  chunk_overlap : Z
}.

(** [Field(default=1000)] and [Field(default=200)] of [config/settings.py]. *)
Definition default_settings : Settings :=
  {| chunk_size := 1000; chunk_overlap := 200 |}.

Module Processor.

Import Py.

Definition is_blank (s : string) : bool :=
  match strip s with EmptyString => true | _ => false end.

Definition make_chunk (document : Document) (i : nat)
    (chunk_content : string) (n_before : nat) : DocumentChunk :=
  {| chunk_id :=
       String.append (doc_id document)
         (String.append "_chunk_" (str_of_nat i));
     document_id := doc_id document;
     content := chunk_content;
     language := doc_language document;
     category := doc_category document;
     chunk_index := n_before;
     start_pos := find (doc_content document) chunk_content;
     end_pos := find (doc_content document) chunk_content
                + len chunk_content;
     metadata := {| title := doc_title document;
                    tags := doc_tags document;
                    file_path := doc_file_path document |} |}.

(** The loop of [create_chunks] over [enumerate(chunks)] from index [i]. *)
Fixpoint create_loop (document : Document) (i : nat) (chunks : list string)
    (document_chunks : list DocumentChunk) : list DocumentChunk :=
  match chunks with
  | [] => document_chunks
  | chunk_content :: rest =>
      if is_blank chunk_content
      then create_loop document (S i) rest document_chunks
      else create_loop document (S i) rest
             (document_chunks ++
              [make_chunk document i chunk_content
                 (List.length document_chunks)])
  end.

Definition create_chunks (settings : Settings) (document : Document)
    : list DocumentChunk :=
  create_loop document 0
    (Chunker.split_into_chunks (doc_content document)
       (chunk_size settings) (chunk_overlap settings))
    [].

End Processor.

(* ===================================================================== *)
(** * The in-memory vector index ([MemoryVectorStore]) *)
(* ===================================================================== *)

(** A row of the embedding model, as [tolist()] stores it; the query row is
    taken at binary64 too. *)
Definition vector : Type := list float.

Record MemoryVectorStore : Type := {
  _chunks : list DocumentChunk;
  embeddings : list vector;
  chunk_to_embedding : gmap string nat
}.

Record Stats : Type := {
  total_chunks : nat;
  total_embeddings : nat;
  embedding_dimension : nat
}.

Module Store.

Import Py.

(** ** numpy *)

(** [np.dot] of two one-dimensional arrays of the same length, accumulated
    in binary64 from the left (the association numpy's kernels choose only
    changes the rounding). *)
Fixpoint dot_from (acc : float) (a b : vector) : float :=
  match a, b with
  | x :: a', y :: b' => dot_from (PrimFloat.add acc (PrimFloat.mul x y)) a' b'
  | _, _ => acc
  end.

Definition dot (a b : vector) : float := dot_from PrimFloat.zero a b.

(** [np.linalg.norm] of a vector: [sqrt(dot(x, x))]. *)
Definition norm (a : vector) : float := PrimFloat.sqrt (dot a a).

Fixpoint enumerate_from {A} (i : nat) (l : list A) : list (nat * A) :=
  match l with
  | [] => []
  | x :: l' => (i, x) :: enumerate_from (S i) l'
  end.

(** ** The store *)

Definition empty_store : MemoryVectorStore :=
  {| _chunks := []; embeddings := []; chunk_to_embedding := ∅ |}.

Definition get_embedding_text (chunk : DocumentChunk) : string :=
  let tags_text := join_spaces (tags (metadata chunk)) in
  strip
    (join_spaces [title (metadata chunk); tags_text; category chunk;
                  language chunk; content chunk]).

(** [for i, chunk in enumerate(chunks):
      self.chunk_to_embedding[chunk.id] = start_idx + i] *)
Fixpoint update_mapping (m : gmap string nat) (start_idx : nat)
    (chunks : list DocumentChunk) : gmap string nat :=
  match chunks with
  | [] => m
  | chunk :: rest =>
      update_mapping (<[chunk_id chunk := start_idx]> m) (S start_idx) rest
  end.

(** [vec1] and [vec2] must have one length, or [np.dot] raises. *)
Definition _cosine_similarity (vec1 vec2 : vector) : result float :=
  if (List.length vec1 =? List.length vec2)%nat
  then Ok (PrimFloat.div (dot vec1 vec2)
             (PrimFloat.mul (norm vec1) (norm vec2)))
  else Raise ValueError.

Definition differs (field : string) (wanted : option string) : bool :=
  match wanted with
  | Some w => negb (String.eqb field w)
  | None => true
  end.

(** The body of the filter loop: [false] where the source [continue]s. *)
Definition keeps (language' category' : option string)
    (chunk : DocumentChunk) : bool :=
  negb (truthy language' && differs (language chunk) language')
  && negb (truthy category' && differs (category chunk) category').

Definition filter_chunks (language' category' : option string)
    (chunks : list DocumentChunk) : list DocumentChunk :=
  if truthy language' || truthy category'
  then List.filter (keeps language' category') chunks
  else chunks.

(** [for i, chunk in enumerate(self._chunks): if chunk in filtered_chunks]
    ([in] compares chunks by their fields; a chunk equal to one that passes
    the filters passes them too, lemma [filter_chunks_keeps]). *)
Fixpoint score_loop (filtered_chunks : list DocumentChunk)
    (query_embedding : vector) (embs : list vector)
    (i : nat) (chunks : list DocumentChunk)
    (similarities : list float) (chunk_indices : list nat)
    : result (list float * list nat) :=
  match chunks with
  | [] => Ok (similarities, chunk_indices)
  | chunk :: rest =>
      if bool_decide (chunk ∈ filtered_chunks)
      then do emb <- index embs i;
           do similarity <- _cosine_similarity query_embedding emb;
           score_loop filtered_chunks query_embedding embs (S i) rest
             (similarities ++ [similarity]) (chunk_indices ++ [i])
      else score_loop filtered_chunks query_embedding embs (S i) rest
             similarities chunk_indices
  end.

(** [for idx in top_indices] *)
Fixpoint result_loop (chunks : list DocumentChunk)
    (similarities : list float) (chunk_indices : list nat)
    (threshold : float) (top_indices : list nat)
    (results : list (DocumentChunk * float))
    : result (list (DocumentChunk * float)) :=
  match top_indices with
  | [] => Ok results
  | idx :: rest =>
      do similarity <- index similarities idx;
      if F64.geb similarity threshold
      then do slot <- index chunk_indices idx;
           do chunk <- index chunks slot;
           result_loop chunks similarities chunk_indices threshold rest
             (results ++ [(chunk, similarity)])
      else result_loop chunks similarities chunk_indices threshold rest
             results
  end.

Section WithModel.

(** The embedding model: [encode(texts)] gives one row per text, or
    fails. *)
Variable encode : list string -> option (list vector).

(** [np.argsort]: numpy returns indices that put the array in ascending
    order, NaN last.  Its default sort keeps no order among equal values,
    so which of the orders comes back when scores tie is left open here:
    the sort is a parameter, and what is assumed of it is
    [Notions.sorts_ascending]. *)
Variable argsort : list float -> list nat.

Definition add_chunks (st : MemoryVectorStore)
    (chunks : list DocumentChunk) : MemoryVectorStore * result bool :=
  match chunks with
  | [] => (st, Ok true)
  | _ =>
      let texts := List.map get_embedding_text chunks in
      match encode texts with
      | None => (st, Raise EncodeError)
      | Some embs =>
          let start_idx := List.length (_chunks st) in
          ({| _chunks := _chunks st ++ chunks;
              embeddings := embeddings st ++ embs;
              chunk_to_embedding :=
                update_mapping (chunk_to_embedding st) start_idx chunks |},
           Ok true)
      end
  end.

Definition search (st : MemoryVectorStore) (query : string) (top_k : Z)
    (threshold : float) (language' category' : option string)
    : result (list (DocumentChunk * float)) :=
  match _chunks st with
  | [] => Ok []
  | _ =>
      let filtered_chunks :=
        filter_chunks language' category' (_chunks st) in
      match encode [query] with
      | None => Raise EncodeError
      | Some rows =>
          do query_embedding <- index rows 0;
          do scored <- score_loop filtered_chunks query_embedding
                         (embeddings st) 0 (_chunks st) [] [];
          let '(similarities, chunk_indices) := scored in
          match similarities with
          | [] => Ok []
          | _ =>
              let top_indices :=
                take_upto top_k (List.rev (argsort similarities)) in
              result_loop (_chunks st) similarities chunk_indices
                threshold top_indices []
          end
      end
  end.

Definition get_stats (st : MemoryVectorStore) : Stats :=
  {| total_chunks := List.length (_chunks st);
     total_embeddings := List.length (embeddings st);
     embedding_dimension :=
       match embeddings st with
       | [] => 0%nat
       | e :: _ => List.length e
       end |}.

Definition clear (st : MemoryVectorStore) : MemoryVectorStore * bool :=
  (empty_store, true).

End WithModel.

End Store.

(* ===================================================================== *)
(** * The terminal logger ([utils.logger]) *)
(* ===================================================================== *)

Module Logger.

Import Py.

Section WithConsole.

(** [self.console.print] of [rich], which reads its line as markup: it
    prints the line, or raises ([MarkupError] when the line has a closing
    tag that closes nothing). *)
Variable console_print : string -> result unit.

Definition info (message : string) : result unit :=
  console_print (String.append "[green]•[/green] " message).

Definition success (message : string) : result unit :=
  if startswith message "✓"
  then console_print
         (String.append "[bold green]" (String.append message "[/bold green]"))
  else console_print (String.append "[bold green]✓[/bold green] " message).

Definition warning (message : string) : result unit :=
  console_print (String.append "[yellow]![/yellow] " message).

End WithConsole.

End Logger.

(* ===================================================================== *)
(** * The retrieval orchestrator ([KnowledgeService]) *)
(* ===================================================================== *)

Record SearchResult : Type := {
  chunk : DocumentChunk;
  similarity : float;
  round : nat   (* 1: broad, 2: refined *)
}.

Module Service.

Import Py.

(** A call of [self.vector_store.search], as the orchestrator issues it. *)
Inductive call : Type :=
| SearchCall (query : string) (top_k : Z) (threshold : float).

Fixpoint insert_desc {A} (key : A -> float) (x : A) (l : list A) : list A :=
  match l with
  | [] => [x]
  | y :: l' =>
      if PrimFloat.ltb (key x) (key y) then y :: insert_desc key x l'
      else x :: y :: l'
  end.

(** [l.sort(key=key, reverse=True)]: descending, and stable, so elements
    with equal keys keep their order.  (On keys that are all numbers, which
    is what a list of search results carries, a stable sort has one
    possible outcome, whatever the algorithm.) *)
Definition sort_desc {A} (key : A -> float) (l : list A) : list A :=
  fold_right (insert_desc key) [] l.

Definition tag (r : nat) (p : DocumentChunk * float) : SearchResult :=
  {| chunk := fst p; similarity := snd p; round := r |}.

(** The two loops that build [all_results] from the two passes. *)
Definition merge (refined_results broad_results : list (DocumentChunk * float))
    : list SearchResult :=
  let all_results := List.map (tag 2) refined_results in
  let existing_ids : gset string :=
    list_to_set (List.map (fun r => chunk_id (chunk r)) all_results) in
  all_results ++
  List.map (tag 1)
    (List.filter
       (fun p => negb (bool_decide (chunk_id (fst p) ∈ existing_ids)))
       broad_results).

Section WithStore.

Variable console_print : string -> result unit.
Variable encode : list string -> option (list vector).
Variable argsort : list float -> list nat.

(** A logging call [r] followed by the rest [k] of the method: when the call
    raises, the method ends with that exception, having made [calls]. *)
Definition logged {A} (calls : list call) (r : result unit)
    (k : list call * result A) : list call * result A :=
  match r with
  | Ok _ => k
  | Raise e => (calls, Raise e)
  end.

(** The result comes with the calls made on the vector store, in order. *)
Definition multi_round_search (st : MemoryVectorStore) (query : string)
    (broad_top_k refined_top_k : Z)
    (broad_threshold refined_threshold : float)
    : list call * result (list SearchResult) :=
  logged []
    (Logger.info console_print
       (String.append "Multi-round search for: " query)) (
  logged [] (Logger.info console_print "Round 1: Broad search") (
  let round1 := SearchCall query broad_top_k broad_threshold in
  match Store.search encode argsort st query broad_top_k broad_threshold
          None None with
  | Raise e => ([round1], Raise e)
  | Ok [] =>
      logged [round1]
        (Logger.warning console_print "No results found in broad search")
        ([round1], Ok [])
  | Ok broad_results =>
      logged [round1]
        (Logger.success console_print
           (String.append "Broad search found "
              (String.append (str_of_nat (List.length broad_results))
                 " candidates"))) (
      logged [round1]
        (Logger.info console_print "Round 2: Refined search") (
      let round2 := SearchCall query refined_top_k refined_threshold in
      match Store.search encode argsort st query refined_top_k
              refined_threshold None None with
      | Raise e => ([round1; round2], Raise e)
      | Ok refined_results =>
          logged [round1; round2]
            (Logger.success console_print
               (String.append "Refined search found "
                  (String.append (str_of_nat (List.length refined_results))
                     " high-quality results"))) (
          let all_results :=
            sort_desc similarity (merge refined_results broad_results) in
          logged [round1; round2]
            (Logger.success console_print
               (String.append "Combined search returned "
                  (String.append (str_of_nat (List.length all_results))
                     " unique results")))
            ([round1; round2], Ok all_results))
      end))
  end)).

End WithStore.

End Service.

(* ===================================================================== *)
(** * The document loader ([DocumentLoader]) *)
(* ===================================================================== *)

Module Loader.

(** [create_all_chunks]: the chunks of every document, in order. *)
Definition create_all_chunks (settings : Settings)
    (documents : list Document) : list DocumentChunk :=
  fold_left
    (fun all_chunks document =>
       all_chunks ++ Processor.create_chunks settings document)
    documents [].

(** The dict that [get_document_statistics] returns. *)
Record DocumentStatistics : Type := {
  total_documents : nat;
  languages : gmap string nat;
  categories : gmap string nat;
  total_content_length : Z;
  average_content_length : float
}.

(** [d[key] = d.get(key, 0) + 1] *)
Definition count_up (d : gmap string nat) (key : string) : gmap string nat :=
  <[key := (default 0%nat (d !! key) + 1)%nat]> d.

(** The body of [for doc in documents]. *)
Definition stats_step (stats : DocumentStatistics) (doc : Document)
    : DocumentStatistics :=
  {| total_documents := total_documents stats;
     languages := count_up (languages stats) (doc_language doc);
     categories := count_up (categories stats) (doc_category doc);
     total_content_length :=
       total_content_length stats + Py.len (doc_content doc);
     average_content_length := average_content_length stats |}.

(** [get_document_statistics]: the counts and lengths of the documents
    (the statistics are also logged, which is not modelled).  The average
    is the [float] that [/] gives on two [int]s. *)
Definition get_document_statistics (documents : list Document)
    : DocumentStatistics :=
  let stats :=
    fold_left stats_step documents
      {| total_documents := List.length documents;
         languages := ∅; categories := ∅;
         total_content_length := 0;
         average_content_length := PrimFloat.zero |} in
  match documents with
  | [] => stats
  | _ =>
      {| total_documents := total_documents stats;
         languages := languages stats;
         categories := categories stats;
         total_content_length := total_content_length stats;
         average_content_length :=
           PrimFloat.div (F64.of_Z (total_content_length stats))
             (F64.of_Z (Z.of_nat (List.length documents))) |}
  end.

End Loader.

(* ===================================================================== *)
(** * Notions the properties are stated with *)
(* ===================================================================== *)

Module Notions.

Import Chunker Py Store Service.

(** ** Chunking *)

(** The state [a] with [c0] put in front of its emitted chunks. *)
Definition prepend (c0 : list string) (a : acc) : acc :=
  Acc (c0 ++ chunks a) (current_chunk a) (current_size a).

(** The size of a run of lines as the loops count it: one more than its
    length for every line. *)
Definition lines_size (ls : list string) : Z :=
  fold_right (fun l n => len l + 1 + n) 0 ls.

(** ** The store and its operations *)

(** The operations of the store. *)
Inductive op : Type :=
| OpAddChunks (chunks : list DocumentChunk)
| OpSearch (query : string) (top_k : Z) (threshold : float)
    (language' category' : option string)
| OpGetStats
| OpClear.

(** The store after an operation ([search] and [get_stats] assign nothing). *)
Definition run_op (encode : list string -> option (list vector))
    (st : MemoryVectorStore) (o : op) : MemoryVectorStore :=
  match o with
  | OpAddChunks chunks => fst (add_chunks encode st chunks)
  | OpSearch _ _ _ _ _ => st
  | OpGetStats => st
  | OpClear => fst (clear st)
  end.

Definition aligned (st : MemoryVectorStore) : Prop :=
  List.length (_chunks st) = List.length (embeddings st).

(** ** Ranking *)

(** Positions with their scores, ascending and descending in numpy's order. *)
Definition asc (p p' : nat * float) : Prop := F64.np_le (snd p) (snd p') = true.
Definition desc (p p' : nat * float) : Prop := asc p' p.

(** What numpy promises of [np.argsort]: the indices of the array, each
    once, in an order that puts the values in ascending order, NaN last.
    Nothing is promised of the order among equal values. *)
Definition sorts_ascending (argsort : list float -> list nat) : Prop :=
  forall a,
    Permutation (argsort a) (seq 0 (List.length a))
    /\ StronglySorted
         (fun i j =>
            F64.np_le (nth i a PrimFloat.zero) (nth j a PrimFloat.zero) = true)
         (argsort a).

(** The scored positions in the order [np.argsort(...)[::-1]] visits them. *)
Definition ranking (argsort : list float -> list nat)
    (similarities : list float) : list (nat * float) :=
  List.rev
    (List.map (fun i => (i, nth i similarities PrimFloat.zero))
       (argsort similarities)).

(** The first half of [search], up to the scores: the similarities of the
    candidates and, position by position, the slots they come from. *)
Definition scored (encode : list string -> option (list vector))
    (st : MemoryVectorStore) (query : string)
    (language' category' : option string) : result (list float * list nat) :=
  match _chunks st with
  | [] => Ok ([], [])
  | _ =>
      match encode [query] with
      | None => Raise EncodeError
      | Some rows =>
          do query_embedding <- index rows 0;
          score_loop (filter_chunks language' category' (_chunks st))
            query_embedding (embeddings st) 0 (_chunks st) [] []
      end
  end.

(** The candidate in a slot and its score: the stored chunk passes the
    filters, and the score is its cosine similarity to the query vector. *)
Definition candidate (encode : list string -> option (list vector))
    (st : MemoryVectorStore) (query : string)
    (language' category' : option string) (slot : nat) (s : float) : Prop :=
  exists chunk emb query_embedding rows,
    nth_error (_chunks st) slot = Some chunk
    /\ keeps language' category' chunk = true
    /\ nth_error (embeddings st) slot = Some emb
    /\ encode [query] = Some (query_embedding :: rows)
    /\ _cosine_similarity query_embedding emb = Ok s.

(** The result a ranked position stands for: the chunk in its slot, with
    its score. *)
Definition entry (chunks : list DocumentChunk) (chunk_indices : list nat)
    (p : nat * float) (e : DocumentChunk * float) : Prop :=
  exists slot,
    nth_error chunk_indices (fst p) = Some slot
    /\ nth_error chunks slot = Some (fst e)
    /\ snd e = snd p.

Definition at_least (threshold : float) (e : DocumentChunk * float) : bool :=
  F64.geb (snd e) threshold.

Definition ids (res : list (DocumentChunk * float)) : gset string :=
  list_to_set (List.map (fun e => chunk_id (fst e)) res).

(** ** Merged results *)

(** Results in descending order of similarity. *)
Definition descending (r r' : SearchResult) : Prop :=
  PrimFloat.leb (similarity r') (similarity r) = true.

(** The ids of a pass. *)
Definition pass_ids (results : list (DocumentChunk * float)) : list string :=
  List.map (fun e => chunk_id (fst e)) results.

Definition result_ids (results : list SearchResult) : list string :=
  List.map (fun r => chunk_id (chunk r)) results.

(** The two searches and the merge of [multi_round_search], without its log
    lines. *)
Definition two_passes (encode : list string -> option (list vector))
    (argsort : list float -> list nat) (st : MemoryVectorStore)
    (query : string) (broad_top_k refined_top_k : Z)
    (broad_threshold refined_threshold : float)
    : list call * Py.result (list SearchResult) :=
  let round1 := SearchCall query broad_top_k broad_threshold in
  match Store.search encode argsort st query broad_top_k broad_threshold
          None None with
  | Py.Raise e => ([round1], Py.Raise e)
  | Py.Ok [] => ([round1], Py.Ok [])
  | Py.Ok broad_results =>
      let round2 := SearchCall query refined_top_k refined_threshold in
      match Store.search encode argsort st query refined_top_k
              refined_threshold None None with
      | Py.Raise e => ([round1; round2], Py.Raise e)
      | Py.Ok refined_results =>
          ([round1; round2],
           Py.Ok (sort_desc similarity (merge refined_results broad_results)))
      end
  end.

(** The message has no ['[']: put in a console line, it adds no tag. *)
Definition plain (message : string) : bool :=
  forallb (fun c => negb (Ascii.eqb c "["%char)) (list_ascii_of_string message).

(** What is assumed of the console: it prints the logger's line for a
    message that adds no tag (the tags of the logger's prefixes are
    balanced).  Nothing is assumed for the other messages. *)
Definition prints_plain (console_print : string -> Py.result unit) : Prop :=
  forall message, plain message = true ->
    Logger.info console_print message = Py.Ok tt
    /\ Logger.success console_print message = Py.Ok tt
    /\ Logger.warning console_print message = Py.Ok tt.

End Notions.

(* ===================================================================== *)
(** * Concrete inputs *)
(* ===================================================================== *)

Module Fixtures.

Import Chunker Py Processor Store Service.

(** A cut with four lines in hand and room for all of them in the overlap. *)
Definition four_lines : acc := Acc [] ["# h"; "aa"; "bb"; "cc"] 13.

(** The document of the specification's scenario and its second chunk. *)
Definition two_headers : Document :=
  {| doc_id := "doc"; doc_title := "A";
     doc_content := "# A

content a

## B

content b";
     doc_language := "en"; doc_category := "guide";
     doc_tags := []; doc_file_path := "a.md" |}.

Definition chunk_B : DocumentChunk :=
  make_chunk two_headers 1 "## B

content b" 1.

(** One sort that [np.argsort] may be: insertion sort, which keeps equal
    values in index order. *)
Fixpoint insert_asc (x : nat * float) (l : list (nat * float))
    : list (nat * float) :=
  match l with
  | [] => [x]
  | y :: l' =>
      if F64.np_lt (snd y) (snd x) then y :: insert_asc x l'
      else x :: y :: l'
  end.

Definition insertion_argsort (a : list float) : list nat :=
  List.map fst (fold_right insert_asc [] (enumerate_from 0 a)).

(** A console that prints every line. *)
Definition quiet_console (line : string) : result unit := Ok tt.

Fixpoint occurs (sub s : string) : bool :=
  String.prefix sub s
  || match s with
     | EmptyString => false
     | String _ s' => occurs sub s'
     end.

(** A console that, as [rich] does, refuses the closing tag [[/x]], which no
    line of the logger opens. *)
Definition strict_console (line : string) : result unit :=
  if occurs "[/x]" line then Raise MarkupError else Ok tt.

(** A model that embeds every text as the same vector. *)
Definition constant_model (v : vector) (texts : list string)
    : option (list vector) :=
  Some (List.map (fun _ => v) texts).

(** A model that embeds a text by its first letter. *)
Definition letter_model (texts : list string) : option (list vector) :=
  Some (List.map
          (fun text =>
             match text with
             | String "a" _ => [1; 0]
             | String "b" _ => [0; 1]
             | String "z" _ => [0; 0]
             | _ => [1; 1]
             end%float)
          texts).

Definition plain_chunk (id text : string) : DocumentChunk :=
  {| chunk_id := id; document_id := "doc"; content := text;
     language := ""; category := ""; chunk_index := 0;
     start_pos := 0; end_pos := 0;
     metadata := {| title := ""; tags := []; file_path := "" |} |}.

Definition store_of (chunks : list DocumentChunk) : MemoryVectorStore :=
  fst (add_chunks letter_model empty_store chunks).

Definition c0 : DocumentChunk := plain_chunk "c0" "a first".
Definition c1 : DocumentChunk := plain_chunk "c1" "a second".
Definition c2 : DocumentChunk := plain_chunk "c2" "b".
Definition cz : DocumentChunk := plain_chunk "cz" "z".
Definition cx : DocumentChunk := plain_chunk "cx" "x".

Definition small_index : MemoryVectorStore := store_of [c0; c2; cx; c1].

(** What a pass returns on the small index for the query ["a"]. *)
Definition pass (top_k : Z) (threshold : float)
    : list (DocumentChunk * float) :=
  match search letter_model insertion_argsort small_index "a" top_k
          threshold None None with
  | Ok results => results
  | Raise _ => []
  end.

(** The index after [c0] has been added a second time. *)
Definition reingested : MemoryVectorStore :=
  fst (add_chunks letter_model (store_of [c0; c1]) [c0]).

End Fixtures.

(* ===================================================================== *)
(** * Further notions *)
(* ===================================================================== *)

Module MoreNotions.

Import Chunker Py Processor Store Service Notions.

(** The lines [run] stand next to each other, in this order, in [lines]. *)
Definition run_of (run lines : list string) : Prop :=
  exists before after, lines = before ++ run ++ after.

(** The text [sub] occurs somewhere in [s]. *)
Definition occurs_in (sub s : string) : Prop :=
  exists before after,
    s = String.append before (String.append sub after).

(** The lines of a chunk respect the budget: they fit in [chunk_size], or
    they are a window of at most [chunk_overlap] followed by one line. *)
Definition within_budget (chunk_size chunk_overlap : Z) (ls : list string)
    : Prop :=
  lines_size ls <= chunk_size
  \/ exists w l, ls = w ++ [l] /\ lines_size w <= Z.max 0 chunk_overlap.

(** A chunk made of lines of the text that stand next to each other and
    respect the budget. *)
Definition chunk_of_lines (chunk_size chunk_overlap : Z)
    (lines : list string) (c : string) : Prop :=
  exists run,
    run <> [] /\ run_of run lines
    /\ within_budget chunk_size chunk_overlap run
    /\ c = join_lines run.

(** What both splitting loops keep true of their state once they have read
    the lines [processed]. *)
Definition chunking_inv (chunk_size chunk_overlap : Z)
    (processed : list string) (a : acc) : Prop :=
  (exists p, processed = p ++ current_chunk a)
  /\ current_size a = lines_size (current_chunk a)
  /\ (current_chunk a = []
      \/ within_budget chunk_size chunk_overlap (current_chunk a))
  /\ Forall (chunk_of_lines chunk_size chunk_overlap processed) (chunks a).

(** The texts [create_chunks] keeps, each with its position in the list of
    all texts, counted from [i]. *)
Fixpoint kept (i : nat) (ts : list string) : list (nat * string) :=
  match ts with
  | [] => []
  | t :: ts' =>
      (if is_blank t then [] else [(i, t)]) ++ kept (S i) ts'
  end.

(** The chunks made of kept texts, numbered from [n]. *)
Fixpoint numbered (document : Document) (n : nat) (l : list (nat * string))
    : list DocumentChunk :=
  match l with
  | [] => []
  | (j, t) :: l' => make_chunk document j t n :: numbered document (S n) l'
  end.

(** What the loops keep true when nothing is carried over a cut: the chunks
    emitted and the chunk in hand split the lines read. *)
Definition partition_inv (processed : list string) (a : acc) : Prop :=
  exists runs,
    chunks a = List.map join_lines runs
    /\ Forall (fun run => run <> []) runs
    /\ processed = List.concat runs ++ current_chunk a.

(** The line [l] is in the chunk in hand or in a chunk already emitted. *)
Definition covered (a : acc) (l : string) : Prop :=
  In l (current_chunk a)
  \/ exists run, In l run /\ In (join_lines run) (chunks a).

(** The line [l] is in one of the chunks [out]. *)
Definition line_in_chunks (out : list string) (l : string) : Prop :=
  exists run, In l run /\ In (join_lines run) out.

(** The last slot, counted from [i], that holds a chunk with the id [id]. *)
Fixpoint last_slot_from (i : nat) (id : string) (chunks : list DocumentChunk)
    : option nat :=
  match chunks with
  | [] => None
  | c :: chunks' =>
      match last_slot_from (S i) id chunks' with
      | Some j => Some j
      | None => if String.eqb (chunk_id c) id then Some i else None
      end
  end.

(** The id map of the store names, for every id, the last slot stored
    under it. *)
Definition mapped (st : MemoryVectorStore) : Prop :=
  forall id, chunk_to_embedding st !! id = last_slot_from 0 id (_chunks st).

Definition is_clear (o : op) : bool :=
  match o with OpClear => true | _ => false end.

(** Every two neighbours of [l] are related by [R]. *)
Definition chained {A} (R : A -> A -> Prop) (l : list A) : Prop :=
  forall l1 a b l2, l = l1 ++ a :: b :: l2 -> R a b.

(** A window of a text: [(o, n)] stands for the [n] lines from the line
    [o] on. *)
Definition window (lines : list string) (w : nat * nat) : list string :=
  firstn (snd w) (skipn (fst w) lines).

(** The chunk made of the lines of a window. *)
Definition chunk_at (lines : list string) (w : nat * nat) : string :=
  join_lines (window lines w).

(** The window lies in the text and is not empty. *)
Definition in_text (lines : list string) (w : nat * nat) : Prop :=
  (0 < snd w)%nat /\ (fst w + snd w <= List.length lines)%nat.

(** The line [i] is a line of the window. *)
Definition covers (i : nat) (w : nat * nat) : Prop :=
  (fst w <= i < fst w + snd w)%nat.

(** The lines the window [b] has in common with the window [a] before it:
    those from the start of [b] to the end of [a]. *)
Definition shared (a b : nat * nat) : nat * nat :=
  (fst b, fst a + snd a - fst b)%nat.

(** The window [b] follows the window [a]: it starts within [a] or right
    after it, so that no line is skipped, goes beyond the end of [a], and
    shares with [a] no more than [chunk_overlap] characters, line breaks
    counted. *)
Definition follows (lines : list string) (chunk_overlap : Z)
    (a b : nat * nat) : Prop :=
  (fst a <= fst b <= fst a + snd a)%nat
  /\ (fst a + snd a < fst b + snd b)%nat
  /\ lines_size (window lines (shared a b)) <= Z.max 0 chunk_overlap.

(** The line just before the window. *)
Definition line_before (lines : list string) (b : nat * nat) : string :=
  nth (fst b - 1) lines EmptyString.

(** In [_simple_split_chunks] the shared lines are as many as fit: all of
    [a], or the line before them would exceed [chunk_overlap]. *)
Definition longest_simple (lines : list string) (chunk_overlap : Z)
    (a b : nat * nat) : Prop :=
  fst b = fst a
  \/ chunk_overlap
     < lines_size (window lines (shared a b)) + len (line_before lines b) + 1.

Definition is_subheader (l : string) : bool := startswith (strip l) "###".

(** In [_split_large_section] the shared lines are at most two, and as many
    as the look-back can take: the last two lines of [a] short of its first
    line, or the line before them would exceed [chunk_overlap]; or there are
    none because [b] starts at a sub-header line that made the cut. *)
Definition longest_large (lines : list string) (chunk_overlap : Z)
    (a b : nat * nat) : Prop :=
  (snd (shared a b) <= 2)%nat
  /\ (snd (shared a b) = Nat.min 2 (snd a - 1)
      \/ chunk_overlap
         < lines_size (window lines (shared a b))
           + len (line_before lines b) + 1
      \/ (snd (shared a b) = 0%nat
          /\ is_subheader (nth (fst b) lines EmptyString) = true)).

(** What both loops keep true once they have read the first [k] lines: the
    chunks emitted are windows of the text, the chunk in hand is the window
    from [o] to [k], and each window follows the one before it. *)
Definition windows_inv (lines : list string) (chunk_overlap : Z)
    (L : nat * nat -> nat * nat -> Prop) (k : nat) (a : acc) : Prop :=
  exists ws o,
    chunks a = List.map (chunk_at lines) ws
    /\ current_chunk a = window lines (o, k - o)%nat
    /\ (o <= k)%nat /\ (0 < k -> o < k)%nat
    /\ chained (fun x y => follows lines chunk_overlap x y /\ L x y)
         (ws ++ [(o, k - o)%nat])
    /\ Forall (fun w => (0 < snd w)%nat /\ (fst w + snd w <= k)%nat) ws
    /\ fst (hd (o, 0%nat) ws) = 0%nat.

(** Every character of [s] is white space. *)
Definition all_space (s : string) : bool :=
  forallb isspace (list_ascii_of_string s).

(** The number of documents whose field [field] is [key]. *)
Definition count_where (field : Document -> string) (key : string)
    (documents : list Document) : nat :=
  List.length (List.filter (fun doc => String.eqb (field doc) key) documents).

(** The sum of the counts of a histogram. *)
Definition sum_counts (d : gmap string nat) : nat :=
  map_fold (fun _ k total => (k + total)%nat) 0%nat d.

(** The sum of the lengths of the contents. *)
Definition sum_lengths (documents : list Document) : Z :=
  fold_right (fun doc total => Py.len (doc_content doc) + total) 0 documents.

(** The window [w], [s] lines further down. *)
Definition shift (s : nat) (w : nat * nat) : nat * nat :=
  ((s + fst w)%nat, snd w).

End MoreNotions.

Module MoreFixtures.

Import Py Store Service Notions Fixtures.

(** A chunk in the language [lang]; its embedding text starts with the
    language, so the letter model embeds it by the language's first letter. *)
Definition lang_chunk (id lang text : string) : DocumentChunk :=
  {| chunk_id := id; document_id := "doc"; content := text;
     language := lang; category := ""; chunk_index := 0;
     start_pos := 0; end_pos := 0;
     metadata := {| title := ""; tags := []; file_path := "" |} |}.

Definition ca : DocumentChunk := lang_chunk "ca" "a1" "x".
Definition cb : DocumentChunk := lang_chunk "cb" "b1" "y".

Definition two_languages : MemoryVectorStore := store_of [ca; cb].

End MoreFixtures.

(* ===================================================================== *)
(** * Facts about binary64 comparisons *)
(* ===================================================================== *)

Module F64Facts.

Import F64.

Lemma compare_cont_Eq (p q : positive) :
  Pos.compare_cont Eq p q = Pos.compare p q.
Proof. reflexivity. Qed.

(** Case analysis on every comparison of a goal about [SFcompare]. *)
Ltac cmp_cases :=
  repeat match goal with
    | s : bool |- _ => destruct s
    end;
  cbn in *; rewrite ?compare_cont_Eq in *;
  repeat match goal with
    | H : context [Z.compare ?a ?b] |- _ =>
        destruct (Z.compare_spec a b); cbn in H
    | |- context [Z.compare ?a ?b] =>
        destruct (Z.compare_spec a b); cbn
    | H : context [Pos.compare ?a ?b] |- _ =>
        destruct (Pos.compare_spec a b); cbn in H
    | |- context [Pos.compare ?a ?b] =>
        destruct (Pos.compare_spec a b); cbn
    end;
  subst; try reflexivity; try discriminate; try lia.

Lemma SFleb_trans x y z :
  SFleb x y = true -> SFleb y z = true -> SFleb x z = true.
Proof.
  unfold SFleb; destruct x, y, z; cbn; try discriminate; try reflexivity;
    intros Hxy Hyz; cmp_cases.
Qed.

Lemma SFcompare_antisym x y :
  SFcompare y x = option_map CompOpp (SFcompare x y).
Proof.
  destruct x as [s|s| |s m e], y as [s'|s'| |s' m' e']; cbn;
    try reflexivity;
    repeat match goal with b : bool |- _ => destruct b end;
    try reflexivity.
  all: rewrite !compare_cont_Eq, (Z.compare_antisym e e'),
         (Pos.compare_antisym m m');
    destruct (e ?= e'); cbn; try reflexivity;
    destruct (m ?= m')%positive; reflexivity.
Qed.

Lemma SFcompare_None x y :
  SFcompare x y = None <-> sf_is_nan x = true \/ sf_is_nan y = true.
Proof.
  destruct x, y; cbn; split; intros H; try discriminate; auto;
    destruct H; discriminate.
Qed.

Lemma SFcompare_refl x : sf_is_nan x = false -> SFcompare x x = Some Eq.
Proof.
  destruct x as [s|s| |s m e]; cbn; try discriminate; intros _;
    try destruct s; try reflexivity;
    rewrite compare_cont_Eq, Z.compare_refl, Pos.compare_refl; reflexivity.
Qed.

(** ** The same facts on primitive floats *)

Lemma is_nan_spec x : is_nan x = sf_is_nan (Prim2SF x).
Proof.
  unfold is_nan, PrimFloat.is_nan. rewrite FloatAxioms.eqb_spec. unfold SFeqb.
  destruct (sf_is_nan (Prim2SF x)) eqn:E.
  - assert (H : SFcompare (Prim2SF x) (Prim2SF x) = None)
      by (apply SFcompare_None; auto).
    rewrite H. reflexivity.
  - rewrite SFcompare_refl by exact E. reflexivity.
Qed.

Lemma eqb_refl_is_nan x : PrimFloat.eqb x x = negb (is_nan x).
Proof.
  unfold is_nan, PrimFloat.is_nan. destruct (PrimFloat.eqb x x); reflexivity.
Qed.

Lemma leb_trans x y z :
  PrimFloat.leb x y = true -> PrimFloat.leb y z = true ->
  PrimFloat.leb x z = true.
Proof. rewrite !FloatAxioms.leb_spec. apply SFleb_trans. Qed.

Lemma leb_not_nan x y :
  PrimFloat.leb x y = true -> is_nan x = false /\ is_nan y = false.
Proof.
  rewrite FloatAxioms.leb_spec, !is_nan_spec. unfold SFleb.
  destruct (SFcompare (Prim2SF x) (Prim2SF y)) eqn:E; [|discriminate].
  intros _. destruct (Prim2SF x), (Prim2SF y); cbn in *; auto; discriminate.
Qed.

Lemma ltb_leb x y : PrimFloat.ltb x y = true -> PrimFloat.leb x y = true.
Proof.
  rewrite FloatAxioms.ltb_spec, FloatAxioms.leb_spec. unfold SFltb, SFleb.
  destruct (SFcompare _ _) as [[]|]; auto.
Qed.

Lemma ltb_negb_leb x y :
  is_nan x = false -> is_nan y = false ->
  PrimFloat.ltb x y = negb (PrimFloat.leb y x).
Proof.
  rewrite FloatAxioms.ltb_spec, FloatAxioms.leb_spec, !is_nan_spec.
  unfold SFltb, SFleb.
  intros Hx Hy. rewrite (SFcompare_antisym (Prim2SF x) (Prim2SF y)).
  destruct (SFcompare (Prim2SF x) (Prim2SF y)) as [[]|] eqn:E;
    try reflexivity.
  apply SFcompare_None in E. destruct E; congruence.
Qed.

Lemma ltb_nan_l x y : is_nan x = true -> PrimFloat.ltb x y = false.
Proof.
  rewrite FloatAxioms.ltb_spec, is_nan_spec. unfold SFltb. intros H.
  destruct (Prim2SF x); try discriminate. reflexivity.
Qed.

Lemma ltb_nan_r x y : is_nan y = true -> PrimFloat.ltb x y = false.
Proof.
  rewrite FloatAxioms.ltb_spec, is_nan_spec. unfold SFltb. intros H.
  destruct (Prim2SF y); try discriminate. destruct (Prim2SF x); reflexivity.
Qed.

Lemma eqb_leb x y :
  PrimFloat.eqb x y = PrimFloat.leb x y && PrimFloat.leb y x.
Proof.
  rewrite FloatAxioms.eqb_spec, !FloatAxioms.leb_spec. unfold SFeqb, SFleb.
  rewrite (SFcompare_antisym (Prim2SF x) (Prim2SF y)).
  destruct (SFcompare (Prim2SF x) (Prim2SF y)) as [[]|]; reflexivity.
Qed.

Lemma leb_total x y :
  is_nan x = false -> is_nan y = false ->
  PrimFloat.leb x y = true \/ PrimFloat.leb y x = true.
Proof.
  intros Hx Hy. destruct (PrimFloat.leb y x) eqn:E; auto.
  left. apply ltb_leb. rewrite ltb_negb_leb, E by assumption. reflexivity.
Qed.

(** [np_le] is the total preorder that puts NaN last. *)
Lemma np_le_spec a b :
  np_le a b = is_nan b || (negb (is_nan a) && PrimFloat.leb a b).
Proof.
  unfold np_le, np_lt. rewrite !eqb_refl_is_nan.
  destruct (is_nan a) eqn:Ha, (is_nan b) eqn:Hb; cbn.
  - rewrite ltb_nan_l by assumption. reflexivity.
  - rewrite ltb_nan_r by assumption. reflexivity.
  - rewrite ltb_nan_l by assumption. reflexivity.
  - rewrite ltb_negb_leb by assumption.
    destruct (PrimFloat.leb a b); reflexivity.
Qed.

Lemma np_le_trans a b c :
  np_le a b = true -> np_le b c = true -> np_le a c = true.
Proof.
  rewrite !np_le_spec.
  destruct (is_nan a), (is_nan b), (is_nan c); cbn; try discriminate; auto.
  apply leb_trans.
Qed.

Lemma np_le_total a b : np_le a b = true \/ np_le b a = true.
Proof.
  rewrite !np_le_spec.
  destruct (is_nan a) eqn:Ha, (is_nan b) eqn:Hb; cbn; auto.
  apply leb_total; assumption.
Qed.

Lemma np_lt_np_le a b : np_lt a b = true -> np_le a b = true.
Proof.
  intros H. destruct (np_le_total a b) as [|H']; [assumption|].
  unfold np_le in H'. rewrite H in H'. discriminate.
Qed.

(** Below a number, in numpy's order, there are only numbers. *)
Lemma np_le_number a b :
  np_le a b = true -> is_nan b = false -> PrimFloat.leb a b = true.
Proof.
  rewrite np_le_spec. intros H Hb. rewrite Hb in H.
  destruct (is_nan a); cbn in H; [discriminate | exact H].
Qed.

Lemma geb_trans t1 t2 s :
  PrimFloat.leb t1 t2 = true -> geb s t2 = true -> geb s t1 = true.
Proof. unfold geb. apply leb_trans. Qed.

Lemma geb_not_nan s t : geb s t = true -> is_nan s = false.
Proof. unfold geb. intros H. apply leb_not_nan in H. tauto. Qed.

(** A key equal to [x] is not equal to anything strictly above [x]. *)
Lemma eqb_ltb_neq k x y :
  PrimFloat.eqb k x = true -> PrimFloat.ltb x y = true ->
  PrimFloat.eqb k y = false.
Proof.
  rewrite !eqb_leb. intros Hkx Hxy.
  apply andb_true_iff in Hkx as [Hkx _].
  destruct (PrimFloat.leb k y) eqn:E1; [|reflexivity].
  destruct (PrimFloat.leb y k) eqn:E2; [|reflexivity].
  pose proof (leb_trans _ _ _ E2 Hkx) as Hyx.
  pose proof (ltb_leb _ _ Hxy) as Hxy'.
  apply leb_not_nan in Hxy' as [Hx Hy].
  rewrite ltb_negb_leb, Hyx in Hxy by assumption. discriminate.
Qed.

(** ** Division by a zero product *)

Lemma Prim2SF_zero : Prim2SF PrimFloat.zero = S754_zero false.
Proof. vm_compute. reflexivity. Qed.

Lemma Prim2SF_infinity : Prim2SF PrimFloat.infinity = S754_infinity false.
Proof. vm_compute. reflexivity. Qed.

Lemma is_zero_spec x : PrimFloat.is_zero x = sf_is_zero (Prim2SF x).
Proof.
  unfold PrimFloat.is_zero. rewrite FloatAxioms.eqb_spec, Prim2SF_zero.
  unfold SFeqb. destruct (Prim2SF x) as [s|s| |s m e]; cbn;
    try destruct s; reflexivity.
Qed.

Lemma is_infinity_spec x :
  PrimFloat.is_infinity x = sf_is_infinity (Prim2SF x).
Proof.
  unfold PrimFloat.is_infinity.
  rewrite FloatAxioms.eqb_spec, FloatAxioms.abs_spec, Prim2SF_infinity.
  unfold SFeqb. destruct (Prim2SF x) as [s|s| |s m e]; cbn; reflexivity.
Qed.

(** A product with a zero factor is a zero or not a number. *)
Lemma mul_zero_l x y :
  PrimFloat.is_zero x = true ->
  PrimFloat.is_zero (PrimFloat.mul x y) = true
  \/ is_nan (PrimFloat.mul x y) = true.
Proof.
  rewrite !is_zero_spec, is_nan_spec, FloatAxioms.mul_spec. unfold SF64mul.
  destruct (Prim2SF x); try discriminate. intros _.
  destruct (Prim2SF y); cbn; auto.
Qed.

Lemma mul_zero_r x y :
  PrimFloat.is_zero y = true ->
  PrimFloat.is_zero (PrimFloat.mul x y) = true
  \/ is_nan (PrimFloat.mul x y) = true.
Proof.
  rewrite !is_zero_spec, is_nan_spec, FloatAxioms.mul_spec. unfold SF64mul.
  destruct (Prim2SF y); try discriminate. intros _.
  destruct (Prim2SF x); cbn; auto.
Qed.

(** A quotient by a zero or by what is not a number is not a number, or
    infinite: it is never zero, nor any other finite value. *)
Lemma div_zero_or_nan x d :
  PrimFloat.is_zero d = true \/ is_nan d = true ->
  is_nan (PrimFloat.div x d) = true
  \/ PrimFloat.is_infinity (PrimFloat.div x d) = true.
Proof.
  rewrite is_zero_spec, !is_nan_spec, is_infinity_spec, FloatAxioms.div_spec.
  unfold SF64div.
  intros [H|H]; destruct (Prim2SF d); try discriminate;
    destruct (Prim2SF x); cbn; auto.
Qed.

(** ** Arithmetic on zeros *)

Lemma zero_or_nan_spec x :
  zero_or_nan x <-> PrimFloat.is_zero x = true \/ is_nan x = true.
Proof.
  unfold zero_or_nan, sf_zero_or_nan. rewrite is_zero_spec, is_nan_spec.
  apply orb_true_iff.
Qed.

Lemma zero_or_nan_zero : zero_or_nan PrimFloat.zero.
Proof. unfold zero_or_nan. rewrite Prim2SF_zero. reflexivity. Qed.

Lemma zero_or_nan_mul_r x y : zero_or_nan y -> zero_or_nan (PrimFloat.mul x y).
Proof.
  unfold zero_or_nan. rewrite FloatAxioms.mul_spec. unfold SF64mul.
  destruct (Prim2SF y); try discriminate; intros _;
    destruct (Prim2SF x); reflexivity.
Qed.

Lemma zero_or_nan_add x y :
  zero_or_nan x -> zero_or_nan y -> zero_or_nan (PrimFloat.add x y).
Proof.
  unfold zero_or_nan. rewrite FloatAxioms.add_spec. unfold SF64add.
  destruct (Prim2SF x) as [[]| | |]; try discriminate; intros _;
    destruct (Prim2SF y) as [[]| | |]; try discriminate; reflexivity.
Qed.

Lemma zero_or_nan_sqrt x : zero_or_nan x -> zero_or_nan (PrimFloat.sqrt x).
Proof.
  unfold zero_or_nan. rewrite FloatAxioms.sqrt_spec. unfold SF64sqrt.
  destruct (Prim2SF x); try discriminate; reflexivity.
Qed.

Lemma zero_or_nan_div x d :
  zero_or_nan x -> zero_or_nan d -> is_nan (PrimFloat.div x d) = true.
Proof.
  unfold zero_or_nan. rewrite is_nan_spec, FloatAxioms.div_spec.
  unfold SF64div.
  destruct (Prim2SF x); try discriminate; intros _;
    destruct (Prim2SF d); try discriminate; reflexivity.
Qed.

End F64Facts.

(* ===================================================================== *)
(** * The model on concrete inputs *)
(* ===================================================================== *)

Example split_lines_abc :
  Py.split_lines (String "a" (String Py.newline (String Py.newline "b")))
  = ["a"; ""; "b"].
Proof. reflexivity. Qed.

(** [170 * 0.7] is a binary64 product, just below 119. *)
Example scaled_170 :
  F64.int_gt_scaled 119 170 F64.f0_7 = true
  /\ F64.int_gt_scaled 7 10 F64.f0_7 = false.
Proof. split; vm_compute; reflexivity. Qed.

Example range_down_4_1 : Py.range_down 4 1 = [4; 3; 2].
Proof. reflexivity. Qed.

Example slice_negative : Py.slice "hello" (-1) 4 = "".
Proof. reflexivity. Qed.

Example find_missing : Py.find "hello" "xyz" = -1.
Proof. reflexivity. Qed.

Example strip_spaces : Py.strip "  ## t  " = "## t".
Proof. reflexivity. Qed.

Example str_of_nat_12 : Py.str_of_nat 12 = "12" /\ Py.str_of_nat 0 = "0".
Proof. split; reflexivity. Qed.

(** The scenario of the specification: two headers, two chunks. *)
Example split_two_headers :
  Chunker.split_into_chunks "# A

content a

## B

content b" 100 20
  = ["# A

content a

## B

content b"; "## B

content b"].
Proof. vm_compute. reflexivity. Qed.

(* ===================================================================== *)
(** * The chunker: cuts and overlap *)
(* ===================================================================== *)

Module ChunkerFacts.

Import Py Chunker Notions Fixtures.

(** Neither loop looks at the chunks it has already emitted. *)
Lemma cut_with_prepend c0 a seed :
  cut_with (prepend c0 a) seed = prepend c0 (cut_with a seed).
Proof. unfold cut_with, prepend; cbn. rewrite app_assoc. reflexivity. Qed.

Lemma large_step_prepend cs co c0 a x :
  large_step cs co (prepend c0 a) x = prepend c0 (large_step cs co a x).
Proof.
  unfold large_step.
  change (header_cut (prepend c0 a) x cs) with (header_cut a x cs).
  destruct (header_cut a x cs).
  - rewrite cut_with_prepend.
    change (size_cut (prepend c0 ?b) x cs) with (size_cut b x cs).
    destruct (size_cut _ x cs); [rewrite cut_with_prepend|]; reflexivity.
  - change (size_cut (prepend c0 a) x cs) with (size_cut a x cs).
    destruct (size_cut a x cs); [rewrite cut_with_prepend|]; reflexivity.
Qed.

Lemma fold_large_prepend cs co c0 ls : forall a,
  fold_left (large_step cs co) ls (prepend c0 a)
  = prepend c0 (fold_left (large_step cs co) ls a).
Proof.
  induction ls as [|x ls IH]; intros a; cbn; [reflexivity|].
  rewrite large_step_prepend. apply IH.
Qed.

Lemma flush_prepend c0 a : flush (prepend c0 a) = c0 ++ flush a.
Proof.
  unfold flush, prepend; cbn. destruct (nonempty (current_chunk a));
    rewrite ?app_assoc; reflexivity.
Qed.

(** What a header cut leaves behind. *)
Lemma large_step_header_cut cs co a x :
  header_cut a x cs = true ->
  large_step cs co a x
  = Acc (chunks a ++ [join_lines (current_chunk a)]) [x] (len x + 1).
Proof.
  intros H. unfold large_step. rewrite H.
  unfold size_cut, cut_with, push_line; cbn.
  rewrite andb_false_r. reflexivity.
Qed.

Lemma large_step_size_cut cs co a x :
  header_cut a x cs = false -> size_cut a x cs = true ->
  large_step cs co a x
  = Acc (chunks a ++ [join_lines (current_chunk a)])
        (fst (overlap_large (current_chunk a) co) ++ [x])
        (snd (overlap_large (current_chunk a) co) + (len x + 1)).
Proof. intros Hh Hs. unfold large_step. rewrite Hh, Hs. reflexivity. Qed.

Lemma large_step_no_cut cs co a x :
  header_cut a x cs = false -> size_cut a x cs = false ->
  large_step cs co a x = push_line a x.
Proof. intros Hh Hs. unfold large_step. rewrite Hh, Hs. reflexivity. Qed.

(** The first step of a run. *)
Lemma large_step_acc0 cs co x :
  large_step cs co acc0 x = Acc [] [x] (len x + 1).
Proof.
  apply large_step_no_cut; unfold header_cut, size_cut, acc0; cbn;
    rewrite ?andb_false_r; reflexivity.
Qed.

Lemma flush_fold_large cs co rest c1 cc sz :
  flush (fold_left (large_step cs co) rest (Acc c1 cc sz))
  = c1 ++ flush (fold_left (large_step cs co) rest (Acc [] cc sz)).
Proof.
  replace (Acc c1 cc sz) with (prepend c1 (Acc [] cc sz))
    by (unfold prepend; cbn; rewrite app_nil_r; reflexivity).
  rewrite fold_large_prepend, flush_prepend. reflexivity.
Qed.

(** While a run has a line in hand, the next chunk it emits starts with the
    first line in hand. *)
Lemma large_run_first_chunk cs co rest : forall l tail sz,
  exists tail' more,
    flush (fold_left (large_step cs co) rest (Acc [] (l :: tail) sz))
    = join_lines (l :: tail') :: more.
Proof.
  induction rest as [|x rest IH]; intros l tail sz; cbn [fold_left].
  - exists tail, []. reflexivity.
  - destruct (header_cut (Acc [] (l :: tail) sz) x cs) eqn:Hh.
    + rewrite large_step_header_cut by exact Hh.
      rewrite flush_fold_large. cbn. eauto.
    + destruct (size_cut (Acc [] (l :: tail) sz) x cs) eqn:Hs.
      * rewrite large_step_size_cut by assumption.
        rewrite flush_fold_large. cbn. eauto.
      * rewrite large_step_no_cut by assumption.
        unfold push_line; cbn. apply IH.
Qed.

(** ** The overlap window *)

Lemma range_down_nil hi stop : hi <= stop -> range_down hi stop = [].
Proof.
  intros H. unfold range_down.
  replace (Z.to_nat (hi - stop)) with 0%nat by lia. reflexivity.
Qed.

Lemma range_down_cons hi stop :
  stop < hi -> range_down hi stop = hi :: range_down (hi - 1) stop.
Proof.
  intros H. unfold range_down.
  replace (Z.to_nat (hi - stop)) with (S (Z.to_nat (hi - 1 - stop))) by lia.
  cbn [seq List.map]. f_equal; [lia|].
  rewrite <- seq_shift, List.map_map.
  apply List.map_ext. intros k. lia.
Qed.

Lemma len_nonneg s : 0 <= len s.
Proof. unfold len. lia. Qed.

Lemma skipn_pred_nth (current : list string) (j : nat) :
  (0 < j <= List.length current)%nat ->
  skipn (j - 1) current = nth (j - 1) current EmptyString :: skipn j current.
Proof.
  revert j. induction current as [|c current IH]; intros j Hj; cbn in Hj.
  - lia.
  - destruct j as [|[|j]]; [lia| reflexivity |].
    replace (S (S j) - 1)%nat with (S j) by lia. cbn [skipn nth].
    specialize (IH (S j)). replace (S j - 1)%nat with j in IH by lia.
    apply IH. lia.
Qed.

(** The loop started at index [j - 1] with the lines from [j] on in hand,
    and [n] indices to visit: it returns a suffix of [current] that extends
    the lines in hand by [m <= n] lines, with its size; it stops early only
    at a line that does not fit. *)
Lemma overlap_loop_spec (current : list string) (co : Z) : forall n j,
  (n <= j <= List.length current)%nat ->
  exists m, (m <= n)%nat
    /\ overlap_loop current co
         (range_down (Z.of_nat j - 1) (Z.of_nat j - 1 - Z.of_nat n))
         (skipn j current) (lines_size (skipn j current))
       = (skipn (j - m) current, lines_size (skipn (j - m) current))
    /\ (lines_size (skipn j current) <= Z.max 0 co ->
        lines_size (skipn (j - m) current) <= Z.max 0 co)
    /\ (m = n
        \/ co < lines_size (skipn (j - m) current)
                + len (nth (j - m - 1) current EmptyString) + 1).
Proof.
  induction n as [|n IH]; intros j Hj.
  - exists 0%nat. rewrite range_down_nil by lia. rewrite Nat.sub_0_r.
    cbn. repeat split; auto.
  - rewrite range_down_cons by lia. cbn [overlap_loop].
    replace (Z.to_nat (Z.of_nat j - 1)) with (j - 1)%nat by lia.
    destruct (Z.leb_spec
                (lines_size (skipn j current)
                 + len (nth (j - 1) current EmptyString) + 1) co) as [Hfit|Hno].
    + destruct (IH (j - 1)%nat ltac:(lia)) as (m & Hm & Hrun & Hbound & Hstop).
      exists (S m). split; [lia|].
      assert (Hsk : skipn (j - 1) current
                    = nth (j - 1) current EmptyString :: skipn j current)
        by (apply skipn_pred_nth; lia).
      replace (j - S m)%nat with (j - 1 - m)%nat by lia.
      replace (Z.of_nat j - 1 - 1) with (Z.of_nat (j - 1) - 1) by lia.
      replace (Z.of_nat j - 1 - Z.of_nat (S n))
        with (Z.of_nat (j - 1) - 1 - Z.of_nat n) by lia.
      rewrite Hsk in Hrun. cbn [lines_size fold_right] in Hrun.
      fold (lines_size (skipn j current)) in Hrun.
      replace (lines_size (skipn j current)
               + len (nth (j - 1) current EmptyString) + 1)
        with (len (nth (j - 1) current EmptyString) + 1
              + lines_size (skipn j current)) by lia.
      split; [exact Hrun|]. split.
      * intros _. apply Hbound. rewrite Hsk. cbn [lines_size fold_right].
        fold (lines_size (skipn j current)). lia.
      * destruct Hstop as [->|Hstop]; [left; reflexivity | right; exact Hstop].
    + exists 0%nat. rewrite !Nat.sub_0_r. split; [lia|].
      split; [reflexivity|]. split; [auto|]. right. lia.
Qed.

Lemma skipn_suffix {A} (l : list A) (k : nat) :
  l = firstn k l ++ skipn k l.
Proof. symmetry. apply firstn_skipn. Qed.

(** The window the fallback split seeds: the longest run of trailing lines
    that fits in [chunk_overlap], however many lines that takes. *)
Lemma overlap_simple_spec (current : list string) (co : Z) :
  exists p w,
    overlap_simple current co = (w, lines_size w)
    /\ current = p ++ w
    /\ lines_size w <= Z.max 0 co
    /\ (p = [] \/ exists p' l, p = p' ++ [l] /\ co < lines_size w + len l + 1).
Proof.
  destruct (overlap_loop_spec current co (List.length current)
              (List.length current) ltac:(lia)) as (m & Hm & Hrun & Hb & Hstop).
  unfold overlap_simple, length_Z.
  replace (-1) with
    (Z.of_nat (List.length current) - 1 - Z.of_nat (List.length current))
    by lia.
  rewrite skipn_all in Hrun. cbn [lines_size fold_right] in Hrun.
  rewrite skipn_all in Hb. cbn [lines_size fold_right] in Hb.
  exists (firstn (List.length current - m) current),
         (skipn (List.length current - m) current).
  split; [exact Hrun|]. split; [apply skipn_suffix|].
  split; [apply Hb; lia|].
  destruct Hstop as [->|Hstop].
  - left. rewrite Nat.sub_diag. reflexivity.
  - destruct (Nat.eq_dec m (List.length current)) as [->|Hne].
    + left. rewrite Nat.sub_diag. reflexivity.
    + right.
      exists (firstn (List.length current - m - 1) current),
             (nth (List.length current - m - 1) current EmptyString).
      split; [|exact Hstop].
      rewrite (skipn_suffix (firstn (List.length current - m) current)
                 (List.length current - m - 1)) at 1.
      rewrite firstn_firstn.
      replace (Init.Nat.min (List.length current - m - 1)
                 (List.length current - m))
        with (List.length current - m - 1)%nat by lia.
      f_equal.
      rewrite skipn_firstn_comm.
      replace (List.length current - m - (List.length current - m - 1))%nat
        with 1%nat by lia.
      pose proof (skipn_pred_nth current (List.length current - m)
                    ltac:(lia)) as Hsk.
      rewrite Hsk. reflexivity.
Qed.

(** The window the sub-split seeds: trailing lines that fit in
    [chunk_overlap], two at most, and never the first line of the chunk. *)
Lemma overlap_large_spec (current : list string) (co : Z) :
  current <> [] ->
  exists p w,
    overlap_large current co = (w, lines_size w)
    /\ current = p ++ w
    /\ lines_size w <= Z.max 0 co
    /\ (List.length w <= 2)%nat
    /\ p <> []
    /\ (List.length w = Nat.min 2 (List.length current - 1)
        \/ exists p' l, p = p' ++ [l] /\ co < lines_size w + len l + 1).
Proof.
  intros Hne.
  assert (Hlen : (0 < List.length current)%nat)
    by (destruct current; [congruence | cbn; lia]).
  set (n := Nat.min (List.length current - 1) 2).
  destruct (overlap_loop_spec current co n (List.length current)
              ltac:(lia)) as (m & Hm & Hrun & Hb & Hstop).
  unfold overlap_large, length_Z.
  replace (Z.max 0 (Z.of_nat (List.length current) - 3))
    with (Z.of_nat (List.length current) - 1 - Z.of_nat n) by lia.
  rewrite skipn_all in Hrun. cbn [lines_size fold_right] in Hrun.
  rewrite skipn_all in Hb. cbn [lines_size fold_right] in Hb.
  exists (firstn (List.length current - m) current),
         (skipn (List.length current - m) current).
  split; [exact Hrun|]. split; [apply skipn_suffix|].
  split; [apply Hb; lia|]. split; [rewrite length_skipn; lia|]. split.
  - intros Hp. apply (f_equal (@List.length string)) in Hp.
    rewrite length_firstn in Hp. cbn in Hp. lia.
  - destruct Hstop as [->|Hstop].
    + left. rewrite length_skipn. lia.
    + right.
      exists (firstn (List.length current - m - 1) current),
             (nth (List.length current - m - 1) current EmptyString).
      split; [|exact Hstop].
      rewrite (skipn_suffix (firstn (List.length current - m) current)
                 (List.length current - m - 1)) at 1.
      rewrite firstn_firstn.
      replace (Init.Nat.min (List.length current - m - 1)
                 (List.length current - m))
        with (List.length current - m - 1)%nat by lia.
      f_equal.
      rewrite skipn_firstn_comm.
      replace (List.length current - m - (List.length current - m - 1))%nat
        with 1%nat by lia.
      pose proof (skipn_pred_nth current (List.length current - m)
                    ltac:(lia)) as Hsk.
      rewrite Hsk. reflexivity.
Qed.

(** C4.  At a size-based cut the chunk in hand is emitted and the next one
    is seeded with a window [w] of its trailing lines, counted like every
    size in this file (each line with its newline) and no larger than
    [chunk_overlap].  In [_split_large_section] (where a size-based cut is
    one not preceded by a header cut on the same line) the window has at most
    3 lines, and it is the longest the loop can take: it holds every line
    the look-back visits (the last two, short of the first line of the
    chunk), or the line before it does not fit.  In [_simple_split_chunks]
    the look-back is bounded by the overlap alone: the window is the whole
    previous chunk, or the line before it does not fit. *)
Theorem size_cut_seeds_overlap cs co a x :
  size_cut a x cs = true ->
  (header_cut a x cs = false ->
   exists p w,
     current_chunk a = p ++ w
     /\ lines_size w <= Z.max 0 co
     /\ (List.length w <= 3)%nat
     /\ (List.length w = Nat.min 2 (List.length (current_chunk a) - 1)
         \/ exists p' l, p = p' ++ [l] /\ co < lines_size w + len l + 1)
     /\ large_step cs co a x
        = Acc (chunks a ++ [join_lines (current_chunk a)]) (w ++ [x])
              (lines_size w + (len x + 1)))
  /\ (exists p w,
        current_chunk a = p ++ w
        /\ lines_size w <= Z.max 0 co
        /\ (p = [] \/ exists p' l,
               p = p' ++ [l] /\ co < lines_size w + len l + 1)
        /\ simple_step cs co a x
           = Acc (chunks a ++ [join_lines (current_chunk a)]) (w ++ [x])
                 (lines_size w + (len x + 1))).
Proof.
  intros Hs. split.
  - intros Hh.
    assert (Hne : current_chunk a <> []).
    { unfold size_cut in Hs. apply andb_true_iff in Hs as [_ Hs].
      destruct (current_chunk a); [discriminate | congruence]. }
    destruct (overlap_large_spec (current_chunk a) co Hne)
      as (p & w & Hw & Hsplit & Hsize & Hlen & _ & Hmax).
    exists p, w. split; [exact Hsplit|]. split; [exact Hsize|].
    split; [lia|]. split; [exact Hmax|].
    rewrite large_step_size_cut by assumption. rewrite Hw. reflexivity.
  - destruct (overlap_simple_spec (current_chunk a) co)
      as (p & w & Hw & Hsplit & Hsize & Hmax).
    exists p, w. repeat split; try assumption.
    unfold simple_step. rewrite Hs. unfold cut_with, push_line; cbn.
    rewrite Hw. reflexivity.
Qed.

Lemma size_cut_seeds_overlap_witness :
  size_cut four_lines "dd" 14 = true
  /\ header_cut four_lines "dd" 14 = false
  /\ exists p w,
       current_chunk four_lines = p ++ w
       /\ lines_size w <= Z.max 0 100
       /\ (List.length w <= 3)%nat
       /\ (List.length w = Nat.min 2 (List.length (current_chunk four_lines) - 1)
           \/ exists p' l, p = p' ++ [l] /\ 100 < lines_size w + len l + 1)
       /\ large_step 14 100 four_lines "dd"
          = Acc (chunks four_lines ++ [join_lines (current_chunk four_lines)])
                (w ++ ["dd"]) (lines_size w + (len "dd" + 1)).
Proof.
  split; [reflexivity|]. split; [reflexivity|].
  apply (size_cut_seeds_overlap 14 100 four_lines "dd");
    vm_compute; reflexivity.
Defined.

(** On that input the sub-split seeds the last two lines, the fallback split
    all four. *)
Example overlap_large_two_lines :
  overlap_large ["# h"; "aa"; "bb"; "cc"] 100 = (["bb"; "cc"], 6)
  /\ overlap_simple ["# h"; "aa"; "bb"; "cc"] 100
     = (["# h"; "aa"; "bb"; "cc"], 13).
Proof. split; reflexivity. Qed.

(** C10.  In [_split_large_section], when a line starting with ['###']
    arrives while the chunk in hand is not empty and larger than
    [0.7 * chunk_size], the chunk in hand is emitted and the next one is
    started empty: nothing of the previous chunk is seeded into it, so the
    chunk that follows begins exactly at the sub-header line.  (The run
    continues as a fresh run on the sub-header line and what follows it.) *)
Theorem header_cut_starts_at_header cs co pre x rest :
  let a := fold_left (large_step cs co) pre acc0 in
  header_cut a x cs = true ->
  large_step cs co a x
  = Acc (chunks a ++ [join_lines (current_chunk a)]) [x] (len x + 1)
  /\ _split_large_section (pre ++ x :: rest) cs co
     = chunks a ++ join_lines (current_chunk a)
       :: _split_large_section (x :: rest) cs co
  /\ exists tail more,
       _split_large_section (x :: rest) cs co = join_lines (x :: tail) :: more.
Proof.
  intros a H. split; [|split].
  - apply large_step_header_cut, H.
  - unfold _split_large_section. rewrite fold_left_app. fold a.
    cbn [fold_left]. rewrite large_step_header_cut by exact H.
    rewrite large_step_acc0, flush_fold_large, <- app_assoc. reflexivity.
  - unfold _split_large_section. cbn [fold_left]. rewrite large_step_acc0.
    apply large_run_first_chunk.
Qed.

(** A sub-header arriving after ten characters, with [chunk_size = 10]. *)
Lemma header_cut_starts_at_header_witness :
  header_cut (fold_left (large_step 10 4) ["## h"; "aaaa"] acc0) "### s" 10
  = true
  /\ _split_large_section (["## h"; "aaaa"] ++ "### s" :: ["b"]) 10 4
     = chunks (fold_left (large_step 10 4) ["## h"; "aaaa"] acc0)
       ++ join_lines
            (current_chunk (fold_left (large_step 10 4) ["## h"; "aaaa"] acc0))
       :: _split_large_section ("### s" :: ["b"]) 10 4.
Proof.
  split; [vm_compute; reflexivity|].
  apply (header_cut_starts_at_header 10 4 ["## h"; "aaaa"] "### s" ["b"]).
  vm_compute; reflexivity.
Defined.

(** C3, as the code has it.  On the empty string [split_into_chunks] returns
    one chunk, the empty string, whatever the sizes; [create_chunks] then
    drops it, so a document without content gets no chunk. *)
Theorem split_empty_one_empty_chunk cs co :
  split_into_chunks "" cs co = [""]
  /\ forall settings id title' language' category' tags' path,
       Processor.create_chunks settings
         {| doc_id := id; doc_title := title'; doc_content := "";
            doc_language := language'; doc_category := category';
            doc_tags := tags'; doc_file_path := path |} = [].
Proof.
  assert (H : forall cs' co', split_into_chunks "" cs' co' = [""]).
  { intros cs' co'. unfold split_into_chunks; cbn.
    unfold _simple_split_chunks; cbn.
    unfold simple_step, size_cut; cbn. rewrite andb_false_r. reflexivity. }
  split; [apply H|].
  intros settings id title' language' category' tags' path.
  unfold Processor.create_chunks; cbn [doc_content]. rewrite H. reflexivity.
Qed.

(** C3 as stated fails: the empty text gives one chunk, not none. *)
Lemma split_empty_not_nil : split_into_chunks "" 1000 200 <> [].
Proof. vm_compute. discriminate. Qed.

End ChunkerFacts.

(* ===================================================================== *)
(** * Chunk positions *)
(* ===================================================================== *)

Module ProcessorFacts.

Import Py Processor Notions Fixtures.

Lemma prefix_length (a b : string) :
  String.prefix a b = true -> (String.length a <= String.length b)%nat.
Proof.
  revert b. induction a as [|c a IH]; intros b H; cbn; [lia|].
  destruct b as [|c' b]; cbn in H; [discriminate|].
  destruct (ascii_dec c c'); [|discriminate].
  apply IH in H. cbn. lia.
Qed.

(** [find] returns a place where the text is. *)
Lemma find_index_spec (sub : string) : forall s i,
  find_index s sub = Some i ->
  String.substring i (String.length sub) s = sub
  /\ (i + String.length sub <= String.length s)%nat.
Proof.
  induction s as [|c s IH]; intros i H; cbn [find_index] in H.
  - destruct (String.prefix sub "") eqn:E; [|discriminate].
    injection H as <-. split.
    + apply prefix_correct, E.
    + apply prefix_length in E. lia.
  - destruct (String.prefix sub (String c s)) eqn:E.
    + injection H as <-. split.
      * apply prefix_correct, E.
      * apply prefix_length in E. lia.
    + destruct (find_index s sub) as [i'|] eqn:E'; [|discriminate].
      cbn in H. injection H as <-.
      destruct (IH i' eq_refl) as [Hsub Hlen]. split.
      * cbn [String.substring]. exact Hsub.
      * cbn [String.length]. lia.
Qed.

(** [find] finds the text wherever it occurs. *)
Lemma occurrences_find_index (sub : string) : forall s k,
  occurrences_from k s sub <> [] -> exists i, find_index s sub = Some i.
Proof.
  induction s as [|c s IH]; intros k H; cbn [occurrences_from find_index] in *.
  - destruct (String.prefix sub ""); [eauto|]. cbn in H. congruence.
  - destruct (String.prefix sub (String c s)); [eauto|].
    cbn [app] in H. destruct (IH _ H) as [i Hi]. rewrite Hi. cbn. eauto.
Qed.

Lemma slice_at_find (s sub : string) (i : nat) :
  find_index s sub = Some i ->
  slice s (find s sub) (find s sub + len sub) = sub.
Proof.
  intros H. destruct (find_index_spec sub s i H) as [Hsub Hlen].
  unfold find. rewrite H. unfold slice, clip, len.
  destruct (Z.ltb_spec (Z.of_nat i) 0) as [?|_]; [lia|].
  destruct (Z.ltb_spec (Z.of_nat i + Z.of_nat (String.length sub)) 0)
    as [?|_]; [lia|].
  replace (Z.to_nat (Z.min (Z.of_nat i) (Z.of_nat (String.length s))))
    with i by lia.
  replace (Z.to_nat
             (Z.min (Z.of_nat i + Z.of_nat (String.length sub))
                (Z.of_nat (String.length s))
              - Z.min (Z.of_nat i) (Z.of_nat (String.length s))))
    with (String.length sub) by lia.
  exact Hsub.
Qed.

(** Every chunk of [create_chunks] carries the positions [find] gives for
    its own content. *)
Lemma create_loop_positions document : forall chunks i document_chunks c,
  In c (create_loop document i chunks document_chunks) ->
  In c document_chunks
  \/ (start_pos c = find (doc_content document) (content c)
      /\ end_pos c = find (doc_content document) (content c) + len (content c)).
Proof.
  induction chunks as [|t chunks IH]; intros i acc c H; cbn in H; [auto|].
  destruct (is_blank t).
  - apply (IH _ _ _ H).
  - destruct (IH _ _ _ H) as [Hin|Hpos]; [|auto].
    apply in_app_or in Hin as [Hin|[<-|[]]]; [auto|].
    right. split; reflexivity.
Qed.

(** C8.  For every chunk [create_chunks] makes of a document, if the content
    of the chunk occurs exactly once in the content of the document, the
    slice of the document from [start_pos] to [end_pos] is the content of the
    chunk. *)
Theorem chunk_positions_round_trip settings document c :
  In c (create_chunks settings document) ->
  List.length (occurrences (doc_content document) (content c)) = 1%nat ->
  slice (doc_content document) (start_pos c) (end_pos c) = content c.
Proof.
  intros Hin Hocc.
  destruct (create_loop_positions _ _ _ _ _ Hin) as [[]|[-> ->]].
  destruct (occurrences_find_index (content c) (doc_content document) 0)
    as [i Hi].
  - unfold occurrences in Hocc.
    destruct (occurrences_from 0 (doc_content document) (content c));
      [discriminate | congruence].
  - apply (slice_at_find _ _ i Hi).
Qed.

Lemma chunk_positions_round_trip_witness :
  In chunk_B (create_chunks default_settings two_headers)
  /\ List.length (occurrences (doc_content two_headers) (content chunk_B))
     = 1%nat
  /\ slice (doc_content two_headers) (start_pos chunk_B) (end_pos chunk_B)
     = content chunk_B.
Proof.
  assert (Hin : In chunk_B (create_chunks default_settings two_headers))
    by (vm_compute; right; left; reflexivity).
  assert (Hocc : List.length
                   (occurrences (doc_content two_headers) (content chunk_B))
                 = 1%nat) by (vm_compute; reflexivity).
  split; [exact Hin|]. split; [exact Hocc|].
  exact (chunk_positions_round_trip default_settings two_headers chunk_B
           Hin Hocc).
Defined.

End ProcessorFacts.

(* ===================================================================== *)
(** * The vector index: alignment of chunks and vectors *)
(* ===================================================================== *)

Module StoreFacts.

Import Py Store Notions Fixtures.

Section Alignment.

Variable encode : list string -> option (list vector).

(** The contract of the embedding model: one row for every text. *)
Hypothesis encode_rows : forall texts rows,
  encode texts = Some rows -> List.length rows = List.length texts.

Lemma add_chunks_aligned st chunks :
  aligned st -> aligned (fst (add_chunks encode st chunks)).
Proof.
  unfold aligned, add_chunks. intros H.
  destruct chunks as [|c chunks]; [exact H|].
  destruct (encode (List.map get_embedding_text (c :: chunks)))
    as [rows|] eqn:E; [|exact H].
  cbn [fst _chunks embeddings]. apply encode_rows in E.
  rewrite !length_app, E, length_map, H. reflexivity.
Qed.

Lemma run_op_aligned st o : aligned st -> aligned (run_op encode st o).
Proof.
  destruct o; cbn; auto using add_chunks_aligned. intros _. reflexivity.
Qed.

End Alignment.

(** C6.  With an embedding model that returns one row for every text, the
    chunk list and the vector list of the store have the same length at the
    start and after every operation: [add_chunks] of any list (empty, or
    with repeated ids), [search], [get_stats] and [clear]; hence in every
    state the store can reach. *)
Theorem chunks_embeddings_aligned
    (encode : list string -> option (list vector)) :
  (forall texts rows,
     encode texts = Some rows -> List.length rows = List.length texts) ->
  aligned empty_store
  /\ (forall st o, aligned st -> aligned (run_op encode st o))
  /\ (forall ops, aligned (fold_left (run_op encode) ops empty_store)).
Proof.
  intros Hrows. split; [reflexivity|]. split.
  - intros st o. apply run_op_aligned, Hrows.
  - intros ops. generalize empty_store (eq_refl : aligned empty_store).
    induction ops as [|o ops IH]; intros st Hst; cbn; [exact Hst|].
    apply IH, run_op_aligned; assumption.
Qed.

Lemma constant_model_rows v texts rows :
  constant_model v texts = Some rows ->
  List.length rows = List.length texts.
Proof. intros [= <-]. apply length_map. Qed.

Lemma chunks_embeddings_aligned_witness :
  aligned empty_store
  /\ (forall st o,
        aligned st ->
        aligned (run_op (constant_model [1%float; 0%float]) st o))
  /\ (forall ops,
        aligned
          (fold_left (run_op (constant_model [1%float; 0%float])) ops
             empty_store)).
Proof.
  apply (chunks_embeddings_aligned (constant_model [1%float; 0%float])).
  intros texts rows. apply constant_model_rows.
Defined.

End StoreFacts.

(* ===================================================================== *)
(** * The vector index: ranking *)
(* ===================================================================== *)

Module SearchFacts.

Import Py Store Notions Fixtures.

(** ** Sorted lists *)

Lemma insert_asc_perm x l : Permutation (insert_asc x l) (x :: l).
Proof.
  induction l as [|y l IH]; cbn; [reflexivity|].
  destruct (F64.np_lt (snd y) (snd x)); [|reflexivity].
  rewrite IH. apply perm_swap.
Qed.

Lemma insert_asc_sorted x l :
  StronglySorted asc l -> StronglySorted asc (insert_asc x l).
Proof.
  induction 1 as [|y l Hl IH Hy]; cbn; [repeat constructor|].
  destruct (F64.np_lt (snd y) (snd x)) eqn:E.
  - constructor; [exact IH|].
    rewrite (insert_asc_perm x l). constructor; [|exact Hy].
    apply F64Facts.np_lt_np_le, E.
  - assert (Hxy : asc x y) by (unfold asc, F64.np_le; rewrite E; reflexivity).
    constructor; [constructor; assumption|].
    constructor; [exact Hxy|].
    eapply List.Forall_impl; [|exact Hy].
    intros z Hz. unfold asc in *. eapply F64Facts.np_le_trans; eassumption.
Qed.

Lemma sorted_pairs_perm (l : list (nat * float)) :
  Permutation (fold_right insert_asc [] l) l.
Proof.
  induction l as [|x l IH]; cbn; [reflexivity|].
  rewrite insert_asc_perm, IH. reflexivity.
Qed.

Lemma sorted_pairs_sorted (l : list (nat * float)) :
  StronglySorted asc (fold_right insert_asc [] l).
Proof.
  induction l as [|x l IH]; cbn; [constructor|].
  apply insert_asc_sorted, IH.
Qed.

Lemma StronglySorted_rev {A} (R : A -> A -> Prop) l :
  StronglySorted R l -> StronglySorted (fun a b => R b a) (List.rev l).
Proof.
  induction 1 as [|x l Hl IH Hx]; cbn; [constructor|].
  apply StronglySorted_app. split; [|split].
  - intros a b Ha Hb. apply list_elem_of_In in Ha, Hb.
    destruct Hb as [<-|[]]. apply in_rev in Ha.
    rewrite List.Forall_forall in Hx. apply Hx, Ha.
  - exact IH.
  - repeat constructor.
Qed.

Lemma StronglySorted_filter {A} (R : A -> A -> Prop) (f : A -> bool) l :
  StronglySorted R l -> StronglySorted R (List.filter f l).
Proof.
  induction 1 as [|x l Hl IH Hx]; cbn; [constructor|].
  destruct (f x); [|exact IH].
  constructor; [exact IH|].
  rewrite List.Forall_forall in *. intros y Hy.
  apply List.filter_In in Hy as [Hy _]. apply Hx, Hy.
Qed.

Lemma StronglySorted_map {A B} (R : B -> B -> Prop) (f : A -> B) l :
  StronglySorted (fun x y => R (f x) (f y)) l ->
  StronglySorted R (List.map f l).
Proof.
  induction 1 as [|x l Hs IH Hx]; cbn; constructor; [exact IH|].
  apply List.Forall_forall. intros y Hy.
  apply in_map_iff in Hy as (y' & <- & Hy').
  rewrite List.Forall_forall in Hx. apply Hx, Hy'.
Qed.

Lemma StronglySorted_weaken {A} (R R' : A -> A -> Prop) l :
  (forall x y, In x l -> In y l -> R x y -> R' x y) ->
  StronglySorted R l -> StronglySorted R' l.
Proof.
  intros H Hs. induction Hs as [|x l Hl IH Hx]; [constructor|].
  constructor.
  - apply IH. intros a b' Ha Hb. apply H; right; assumption.
  - rewrite List.Forall_forall in *. intros y Hy.
    apply H; [left; reflexivity | right; exact Hy | apply Hx, Hy].
Qed.

Lemma take_upto_map {A B} (f : A -> B) k l :
  take_upto k (List.map f l) = List.map f (take_upto k l).
Proof.
  unfold take_upto. rewrite length_map. apply List.firstn_map.
Qed.

Lemma take_upto_split {A} k (l : list A) :
  exists rest, l = take_upto k l ++ rest.
Proof.
  unfold take_upto. eexists. symmetry. apply firstn_skipn.
Qed.

Lemma take_upto_In {A} k (l : list A) x : In x (take_upto k l) -> In x l.
Proof.
  intros H. destruct (take_upto_split k l) as [rest Hl]. rewrite Hl.
  apply in_or_app. auto.
Qed.

Lemma take_upto_length {A} k (l : list A) :
  0 <= k -> Z.of_nat (List.length (take_upto k l)) <= k.
Proof.
  intros Hk. unfold take_upto, clip. rewrite length_firstn.
  destruct (Z.ltb_spec k 0); lia.
Qed.

Lemma take_upto_nil {A} k : take_upto k (@nil A) = [].
Proof. unfold take_upto. apply List.firstn_nil. Qed.

Lemma enumerate_from_lookup {A} (l : list A) : forall i p,
  In p (enumerate_from i l) ->
  (i <= fst p)%nat /\ nth_error l (fst p - i) = Some (snd p).
Proof.
  induction l as [|x l IH]; intros i p H; cbn in H; [contradiction|].
  destruct H as [<-|H]; cbn.
  - rewrite Nat.sub_diag. auto.
  - apply IH in H as [Hle Hnth]. split; [lia|].
    replace (fst p - i)%nat with (S (fst p - S i)) by lia. exact Hnth.
Qed.

Lemma enumerate_from_fst {A} (l : list A) : forall i,
  List.map fst (enumerate_from i l) = seq i (List.length l).
Proof.
  induction l as [|x l IH]; intros i; cbn; [reflexivity|].
  rewrite IH. reflexivity.
Qed.

Lemma enumerate_from_seq {A} (d : A) (l : list A) : forall i,
  enumerate_from i l
  = List.map (fun j => (j, nth (j - i) l d)) (seq i (List.length l)).
Proof.
  induction l as [|x l IH]; intros i; cbn [enumerate_from]; [reflexivity|].
  cbn [List.length seq List.map]. rewrite Nat.sub_diag. cbn [nth]. f_equal.
  rewrite IH. apply List.map_ext_in. intros j Hj. apply in_seq in Hj.
  replace (j - i)%nat with (S (j - S i)) by lia. reflexivity.
Qed.

Lemma enumerate_seq {A} (d : A) (l : list A) :
  enumerate_from 0 l
  = List.map (fun j => (j, nth j l d)) (seq 0 (List.length l)).
Proof.
  rewrite (enumerate_from_seq d). apply List.map_ext. intros j.
  rewrite Nat.sub_0_r. reflexivity.
Qed.

(** The insertion sort of the fixtures is an [argsort] as numpy has it. *)
Lemma insertion_argsort_sorts : sorts_ascending insertion_argsort.
Proof.
  intros a. unfold insertion_argsort. split.
  - rewrite <- (enumerate_from_fst a 0).
    apply Permutation_map, sorted_pairs_perm.
  - apply StronglySorted_map.
    eapply StronglySorted_weaken; [|apply sorted_pairs_sorted].
    intros p p' Hp Hp' H.
    apply (Permutation_in _ (sorted_pairs_perm _)) in Hp, Hp'.
    apply enumerate_from_lookup in Hp as [_ Hp], Hp' as [_ Hp'].
    rewrite Nat.sub_0_r in Hp, Hp'.
    rewrite (nth_error_nth _ _ _ Hp), (nth_error_nth _ _ _ Hp'). exact H.
Qed.

(** ** The two loops of [search] *)

(** The scoring loop keeps one slot for every score; the slots are those of
    stored chunks and grow from one position to the next. *)
Lemma score_loop_valid filtered qe embs : forall chunks i sims idxs sims' idxs',
  score_loop filtered qe embs i chunks sims idxs = Ok (sims', idxs') ->
  List.length sims = List.length idxs ->
  StronglySorted lt idxs ->
  Forall (fun slot => slot < i)%nat idxs ->
  List.length sims' = List.length idxs'
  /\ StronglySorted lt idxs'
  /\ Forall (fun slot => slot < i + List.length chunks)%nat idxs'.
Proof.
  induction chunks as [|c chunks IH];
    intros i sims idxs sims' idxs' H Hlen Hs Hlt; cbn [score_loop] in H.
  - injection H as <- <-. rewrite Nat.add_0_r. auto.
  - assert (Hlt' : Forall (fun slot => slot < S i)%nat idxs)
      by (eapply List.Forall_impl; [|exact Hlt]; cbn; lia).
    cbn [List.length]. replace (i + S (List.length chunks))%nat
      with (S i + List.length chunks)%nat by lia.
    destruct (bool_decide (c ∈ filtered)).
    + destruct (index embs i) as [emb|]; [|discriminate]. cbn [bind] in H.
      destruct (_cosine_similarity qe emb) as [s|]; [|discriminate].
      cbn [bind] in H. apply IH in H; [exact H| | |].
      * rewrite !length_app, Hlen. reflexivity.
      * apply StronglySorted_app.
        split; [|split; [exact Hs|repeat constructor]].
        intros a b Ha Hb. apply list_elem_of_In in Ha, Hb.
        destruct Hb as [<-|[]].
        rewrite List.Forall_forall in Hlt. apply Hlt, Ha.
      * apply Forall_app. split; [exact Hlt'|]. repeat constructor.
    + apply IH in H; auto.
Qed.

Lemma scored_valid encode st query language' category' sims idxs :
  scored encode st query language' category' = Ok (sims, idxs) ->
  List.length sims = List.length idxs
  /\ StronglySorted lt idxs
  /\ Forall (fun slot => slot < List.length (_chunks st))%nat idxs.
Proof.
  unfold scored. intros H.
  destruct (_chunks st) as [|c0 chunks] eqn:E.
  - injection H as <- <-. repeat split; constructor.
  - destruct (encode [query]) as [rows|]; [|discriminate].
    destruct (index rows 0) as [qe|]; [|discriminate]. cbn [bind] in H.
    apply score_loop_valid in H; [exact H|reflexivity| |]; constructor.
Qed.

Lemma filter_chunks_keeps language' category' chunks :
  filter_chunks language' category' chunks
  = List.filter (keeps language' category') chunks.
Proof.
  unfold filter_chunks, keeps.
  destruct (truthy language'), (truthy category'); cbn; try reflexivity.
  induction chunks as [|c chunks IH]; cbn; congruence.
Qed.

Lemma index_0_Ok {A} (rows : list A) x :
  index rows 0 = Ok x -> exists rest, rows = x :: rest.
Proof.
  unfold index. destruct rows as [|y rows]; cbn; [discriminate|].
  intros [= ->]. eauto.
Qed.

(** The scoring loop scores exactly the chunks that are in the filtered
    list, each in its slot. *)
Lemma score_loop_spec filtered qe embs : forall chunks i sims idxs sims' idxs',
  score_loop filtered qe embs i chunks sims idxs = Ok (sims', idxs') ->
  exists new_sims new_idxs,
    sims' = sims ++ new_sims /\ idxs' = idxs ++ new_idxs
    /\ Forall2
         (fun slot s =>
            exists c emb,
              (i <= slot)%nat /\ nth_error chunks (slot - i) = Some c
              /\ c ∈ filtered /\ nth_error embs slot = Some emb
              /\ _cosine_similarity qe emb = Ok s)
         new_idxs new_sims
    /\ (forall j c,
          nth_error chunks j = Some c -> c ∈ filtered ->
          In (i + j)%nat new_idxs).
Proof.
  induction chunks as [|c chunks IH]; intros i sims idxs sims' idxs' H;
    cbn [score_loop] in H.
  - injection H as <- <-. exists [], []. rewrite !app_nil_r.
    repeat split; [constructor|]. intros [|j] c'; discriminate.
  - destruct (bool_decide (c ∈ filtered)) eqn:Hc.
    + apply bool_decide_eq_true in Hc.
      destruct (index embs i) as [emb|] eqn:Hemb; [|discriminate].
      cbn [bind] in H.
      destruct (_cosine_similarity qe emb) as [s|] eqn:Hs; [|discriminate].
      cbn [bind] in H.
      apply IH in H as (ns & ni & -> & -> & Hall & Hcomplete).
      exists (s :: ns), (i :: ni). rewrite <- !app_assoc.
      split; [reflexivity|]. split; [reflexivity|]. split.
      * constructor.
        -- exists c, emb. rewrite Nat.sub_diag. repeat split; auto.
           unfold index in Hemb. destruct (nth_error embs i); congruence.
        -- eapply Forall2_impl; [exact Hall|].
           intros slot s' (c' & emb' & Hle & Hnth & Hrest).
           exists c', emb'. split; [lia|]. split; [|exact Hrest].
           replace (slot - i)%nat with (S (slot - S i)) by lia. exact Hnth.
      * intros [|j] c' Hj Hin.
        -- left. lia.
        -- right. replace (i + S j)%nat with (S i + j)%nat by lia.
           apply (Hcomplete j c' Hj Hin).
    + apply bool_decide_eq_false in Hc.
      apply IH in H as (ns & ni & -> & -> & Hall & Hcomplete).
      exists ns, ni. split; [reflexivity|]. split; [reflexivity|]. split.
      * eapply Forall2_impl; [exact Hall|].
        intros slot s' (c' & emb' & Hle & Hnth & Hrest).
        exists c', emb'. split; [lia|]. split; [|exact Hrest].
        replace (slot - i)%nat with (S (slot - S i)) by lia. exact Hnth.
      * intros [|j] c' Hj Hin.
        -- cbn in Hj. injection Hj as ->. contradiction.
        -- replace (i + S j)%nat with (S i + j)%nat by lia.
           apply (Hcomplete j c' Hj Hin).
Qed.

(** The scores are those of the candidates, slot by slot, and every stored
    chunk that passes the filters is scored. *)
Lemma scored_candidates encode st query language' category' sims idxs :
  scored encode st query language' category' = Ok (sims, idxs) ->
  Forall2 (candidate encode st query language' category') idxs sims
  /\ (forall slot chunk,
        nth_error (_chunks st) slot = Some chunk ->
        keeps language' category' chunk = true -> In slot idxs).
Proof.
  unfold scored. intros H.
  destruct (_chunks st) as [|c0 chunks] eqn:E.
  - injection H as <- <-. split; [constructor|].
    intros [|slot] chunk; discriminate.
  - destruct (encode [query]) as [rows|] eqn:Henc; [|discriminate].
    destruct (index rows 0) as [qe|] eqn:Hq; [|discriminate].
    cbn [bind] in H. apply index_0_Ok in Hq as [rest ->].
    apply score_loop_spec in H as (ns & ni & -> & -> & Hall & Hcomplete).
    cbn [app]. rewrite filter_chunks_keeps in *. split.
    + eapply Forall2_impl; [exact Hall|].
      intros slot s (c & emb & _ & Hnth & Hin & Hemb & Hs).
      rewrite Nat.sub_0_r in Hnth.
      apply list_elem_of_In, List.filter_In in Hin as [_ Hk].
      exists c, emb, qe, rest. rewrite E. auto.
    + intros slot chunk Hnth Hk. apply (Hcomplete slot chunk Hnth).
      apply list_elem_of_In, List.filter_In. split; [|exact Hk].
      eapply nth_error_In, Hnth.
Qed.

(** On positions that hold their scores and have entries, the result loop
    raises nothing and keeps the entries that reach the threshold. *)
Lemma result_loop_spec chunks sims idxs threshold : forall ps es results,
  Forall (fun p => nth_error sims (fst p) = Some (snd p)) ps ->
  Forall2 (entry chunks idxs) ps es ->
  result_loop chunks sims idxs threshold (List.map fst ps) results
  = Ok (results ++ List.filter (at_least threshold) es).
Proof.
  induction ps as [|p ps IH]; intros es results Hs He.
  - apply Forall2_nil_inv_l in He as ->. cbn. rewrite app_nil_r. reflexivity.
  - apply Forall2_cons_inv_l in He
      as (e & es' & (slot & Hslot & Hc & Hsc) & He & ->).
    apply Forall_cons in Hs as [Hp Hs].
    cbn [List.map result_loop]. unfold index at 1. rewrite Hp. cbn [bind].
    cbn [List.filter]. unfold at_least at 1. rewrite Hsc.
    destruct (F64.geb (snd p) threshold).
    + unfold index. rewrite Hslot. cbn [bind]. rewrite Hc. cbn [bind].
      rewrite (IH es' _ Hs He), <- app_assoc.
      destruct e as [c s]; cbn in Hsc; subst s. reflexivity.
    + apply (IH es' _ Hs He).
Qed.

Lemma entries_exist chunks sims idxs : forall ps,
  List.length sims = List.length idxs ->
  Forall (fun slot => slot < List.length chunks)%nat idxs ->
  Forall (fun p => nth_error sims (fst p) = Some (snd p)) ps ->
  exists es, Forall2 (entry chunks idxs) ps es.
Proof.
  intros ps Hlen Hslots. induction 1 as [|p ps Hp _ [es IH]].
  - exists []. constructor.
  - assert (Hi : (fst p < List.length idxs)%nat).
    { rewrite <- Hlen. apply nth_error_Some. congruence. }
    destruct (nth_error idxs (fst p)) as [slot|] eqn:Hslot;
      [|apply nth_error_None in Hslot; lia].
    assert (Hs : (slot < List.length chunks)%nat).
    { rewrite List.Forall_forall in Hslots.
      apply Hslots. eapply nth_error_In, Hslot. }
    destruct (nth_error chunks slot) as [c|] eqn:Hc;
      [|apply nth_error_None in Hc; lia].
    exists ((c, snd p) :: es). constructor; [|exact IH].
    exists slot. auto.
Qed.

(** [search] returns: on an index that keeps a vector for every chunk, all
    of the query vector's length, nothing is raised once the model has
    embedded the query. *)
Lemma score_loop_returns filtered (qe : vector) (embs : list vector) :
  forall chunks i sims idxs,
  (forall j, (j < List.length chunks)%nat ->
     exists emb : vector,
       @nth_error vector embs (i + j) = Some emb
       /\ List.length qe = List.length emb) ->
  exists r, score_loop filtered qe embs i chunks sims idxs = Ok r.
Proof.
  induction chunks as [|c chunks IH]; intros i sims idxs H; cbn [score_loop].
  - eauto.
  - assert (IH' : forall sims' idxs',
              exists r,
                score_loop filtered qe embs (S i) chunks sims' idxs' = Ok r).
    { intros sims' idxs'. apply IH. intros j Hj.
      replace (S i + j)%nat with (i + S j)%nat by lia.
      apply H. cbn. lia. }
    destruct (bool_decide (c ∈ filtered)); [|apply IH'].
    destruct (H 0%nat ltac:(cbn; lia)) as (emb & Hemb & Hlen).
    rewrite Nat.add_0_r in Hemb. unfold index. rewrite Hemb. cbn [bind].
    unfold _cosine_similarity. rewrite (proj2 (Nat.eqb_eq _ _) Hlen).
    cbn [bind]. apply IH'.
Qed.

Lemma entries_sorted chunks idxs : forall ps es,
  Forall2 (entry chunks idxs) ps es ->
  StronglySorted desc ps ->
  StronglySorted
    (fun e e' : DocumentChunk * float => F64.np_le (snd e') (snd e) = true) es.
Proof.
  induction 1 as [|p e ps es (slot & _ & _ & Hsc) Hrest IH]; intros Hs;
    [constructor|].
  apply StronglySorted_inv in Hs as [Hs Hp].
  constructor; [apply IH, Hs|].
  clear IH Hs. induction Hrest as [|p' e' ps es (slot' & _ & _ & Hsc') _ IH'];
    [constructor|].
  apply Forall_cons in Hp as [Hpp' Hp].
  constructor; [|apply IH', Hp].
  unfold desc, asc in Hpp'. rewrite Hsc, Hsc'. exact Hpp'.
Qed.

Lemma StronglySorted_lt_NoDup (l : list nat) :
  StronglySorted lt l -> List.NoDup l.
Proof.
  induction 1 as [|x l Hl IH Hx]; constructor; [|exact IH].
  intros Hin. rewrite List.Forall_forall in Hx. apply Hx in Hin. lia.
Qed.

Lemma nth_error_inj {A} (l : list A) i j x :
  List.NoDup l -> nth_error l i = Some x -> nth_error l j = Some x -> i = j.
Proof.
  intros Hnd Hi Hj.
  apply (proj1 (List.NoDup_nth_error l) Hnd).
  - apply nth_error_Some. congruence.
  - congruence.
Qed.

Lemma NoDup_map_filter {A B} (g : A -> B) (f : A -> bool) l :
  List.NoDup (List.map g l) -> List.NoDup (List.map g (List.filter f l)).
Proof.
  induction l as [|x l IH]; cbn; [auto|].
  intros H. apply List.NoDup_cons_iff in H as [Hx Hl].
  destruct (f x); [|auto]. cbn. constructor; [|auto].
  intros Hin. apply Hx. apply in_map_iff in Hin as (y & Hy & Hin).
  apply List.filter_In in Hin as [Hin _].
  apply in_map_iff. eauto.
Qed.

Lemma entries_NoDup chunks idxs : forall ps es,
  List.NoDup (List.map chunk_id chunks) ->
  List.NoDup idxs ->
  Forall2 (entry chunks idxs) ps es ->
  List.NoDup (List.map fst ps) ->
  List.NoDup (List.map (fun e => chunk_id (fst e)) es).
Proof.
  intros ps es Hids Hidxs.
  induction 1 as [|p e ps es (slot & Hslot & Hc & _) Hrest IH]; cbn;
    intros Hps; [constructor|].
  apply List.NoDup_cons_iff in Hps as [Hp Hps].
  constructor; [|apply IH, Hps].
  intros Hin. apply Hp. clear IH Hps Hp.
  apply in_map_iff in Hin as (e' & Hid & He').
  apply list_elem_of_In in He'.
  apply list_elem_of_lookup in He' as [i Hi].
  destruct (Forall2_lookup_r _ _ _ _ _ Hrest Hi)
    as (p' & Hp' & slot' & Hslot' & Hc' & _).
  assert (slot' = slot).
  { eapply (nth_error_inj (List.map chunk_id chunks)); [exact Hids| |].
    - rewrite nth_error_map, Hc'. cbn. rewrite Hid. reflexivity.
    - rewrite nth_error_map, Hc. reflexivity. }
  subst slot'.
  assert (Hfst : fst p' = fst p)
    by (eapply (nth_error_inj idxs); eassumption).
  rewrite <- Hfst. apply in_map. apply list_elem_of_In.
  eapply list_elem_of_lookup_2, Hp'.
Qed.

(** ** Vectors without length *)

Lemma dot_from_zeros_r (b : vector) : forall a acc,
  F64.zero_or_nan acc ->
  Forall F64.zero_or_nan b ->
  F64.zero_or_nan (dot_from acc a b).
Proof.
  induction b as [|y b IH]; intros a acc Hacc Hb.
  - destruct a; exact Hacc.
  - destruct a as [|x a]; [exact Hacc|]. apply Forall_cons in Hb as [Hy Hb].
    cbn [dot_from]. apply IH; [|exact Hb].
    apply F64Facts.zero_or_nan_add; [exact Hacc|].
    apply F64Facts.zero_or_nan_mul_r, Hy.
Qed.

(** The score of an all-zero vector against any vector of its length is
    not a number. *)
Lemma cosine_all_zero v1 v2 :
  List.length v1 = List.length v2 ->
  Forall (fun x => PrimFloat.is_zero x = true) v2 ->
  exists s, _cosine_similarity v1 v2 = Ok s /\ F64.is_nan s = true.
Proof.
  intros Hlen Hz. unfold _cosine_similarity.
  rewrite (proj2 (Nat.eqb_eq _ _) Hlen). eexists. split; [reflexivity|].
  assert (Hz' : Forall F64.zero_or_nan v2).
  { eapply List.Forall_impl; [|exact Hz]. intros x Hx.
    apply F64Facts.zero_or_nan_spec. auto. }
  apply F64Facts.zero_or_nan_div.
  - apply dot_from_zeros_r; [apply F64Facts.zero_or_nan_zero | exact Hz'].
  - apply F64Facts.zero_or_nan_mul_r, F64Facts.zero_or_nan_sqrt.
    apply dot_from_zeros_r; [apply F64Facts.zero_or_nan_zero | exact Hz'].
Qed.

(** Every score [search] returns reached the threshold, whatever [argsort]
    returns. *)
Lemma result_loop_at_least chunks sims idxs threshold : forall tops results res,
  result_loop chunks sims idxs threshold tops results = Ok res ->
  Forall (fun e => F64.geb (snd e) threshold = true) results ->
  Forall (fun e => F64.geb (snd e) threshold = true) res.
Proof.
  induction tops as [|idx tops IH]; intros results res H Hall;
    cbn [result_loop] in H.
  - injection H as <-. exact Hall.
  - destruct (index sims idx) as [s|]; [|discriminate]. cbn [bind] in H.
    destruct (F64.geb s threshold) eqn:Hs; [|apply (IH _ _ H Hall)].
    destruct (index idxs idx) as [slot|]; [|discriminate]. cbn [bind] in H.
    destruct (index chunks slot) as [c|]; [|discriminate]. cbn [bind] in H.
    apply (IH _ _ H). apply Forall_app. split; [exact Hall|].
    repeat constructor. exact Hs.
Qed.

Lemma search_at_least encode argsort st query top_k threshold
    language' category' res :
  search encode argsort st query top_k threshold language' category' = Ok res ->
  Forall (fun e => F64.geb (snd e) threshold = true) res.
Proof.
  unfold search. intros H.
  destruct (_chunks st) as [|c0 chunks]; [injection H as <-; constructor|].
  destruct (encode [query]) as [rows|]; [|discriminate].
  destruct (index rows 0) as [qe|]; [|discriminate]. cbn [bind] in H.
  destruct (score_loop _ qe (embeddings st) 0 (c0 :: chunks) [] [])
    as [[sims idxs]|]; [|discriminate].
  cbn [bind] in H. destruct sims as [|s sims]; [injection H as <-; constructor|].
  apply (result_loop_at_least _ _ _ _ _ _ _ H). constructor.
Qed.

(** ** The ranking

    What follows holds for every [argsort] that does what numpy's does. *)

Section Ranked.

Variable argsort : list float -> list nat.
Hypothesis argsort_sorts : sorts_ascending argsort.

Local Set Default Proof Using "argsort argsort_sorts".

Lemma ranking_perm sims :
  Permutation (ranking argsort sims) (enumerate_from 0 sims).
Proof.
  unfold ranking. rewrite <- Permutation_rev.
  rewrite (enumerate_seq PrimFloat.zero).
  apply Permutation_map, argsort_sorts.
Qed.

Lemma ranking_sorted sims : StronglySorted desc (ranking argsort sims).
Proof.
  unfold ranking. apply StronglySorted_rev, StronglySorted_map.
  apply argsort_sorts.
Qed.

Lemma argsort_rev sims :
  List.rev (argsort sims) = List.map fst (ranking argsort sims).
Proof.
  unfold ranking. rewrite List.map_rev, List.map_map. cbn [fst].
  rewrite List.map_id. reflexivity.
Qed.

(** Every ranked position holds the score ranked with it, and no position
    is ranked twice. *)

Lemma ranking_lookup sims p :
  In p (ranking argsort sims) -> nth_error sims (fst p) = Some (snd p).
Proof.
  intros H. apply (Permutation_in _ (ranking_perm sims)) in H.
  apply enumerate_from_lookup in H as [_ H].
  rewrite Nat.sub_0_r in H. exact H.
Qed.

Lemma ranking_NoDup sims : List.NoDup (List.map fst (ranking argsort sims)).
Proof.
  eapply Permutation_NoDup.
  - symmetry. apply Permutation_map, ranking_perm.
  - rewrite enumerate_from_fst. apply seq_NoDup.
Qed.

Lemma argsort_nil : argsort [] = [].
Proof.
  destruct (argsort_sorts []) as [H _]. cbn in H.
  apply Permutation_sym, Permutation_nil in H. exact H.
Qed.

Lemma search_scored encode st query top_k threshold language' category' :
  search encode argsort st query top_k threshold language' category'
  = do sc <- scored encode st query language' category';
    result_loop (_chunks st) (fst sc) (snd sc) threshold
      (take_upto top_k (List.rev (argsort (fst sc)))) [].
Proof.
  unfold search, scored.
  destruct (_chunks st) as [|c0 chunks].
  { cbn. rewrite argsort_nil. cbn [List.rev]. rewrite take_upto_nil.
    reflexivity. }
  destruct (encode [query]) as [rows|]; [|reflexivity].
  destruct (index rows 0) as [qe|e]; [|reflexivity]. cbn [bind].
  destruct (score_loop _ qe (embeddings st) 0 (c0 :: chunks) [] [])
    as [[sims idxs]|e]; [|reflexivity].
  cbn [bind fst snd]. destruct sims; [|reflexivity].
  rewrite argsort_nil. cbn [List.rev]. rewrite take_upto_nil. reflexivity.
Qed.

(** What [search] returns, once the scores are there: the entries of the
    first [top_k] ranked positions that reach the threshold.  The entries do
    not depend on the threshold. *)
Lemma search_ranked encode st query top_k language' category' sims idxs :
  scored encode st query language' category' = Ok (sims, idxs) ->
  exists es,
    Forall2 (entry (_chunks st) idxs) (take_upto top_k (ranking argsort sims))
        es
    /\ forall threshold,
         search encode argsort st query top_k threshold language' category'
         = Ok (List.filter (at_least threshold) es).
Proof.
  intros Hsc. destruct (scored_valid _ _ _ _ _ _ _ Hsc) as (Hlen & _ & Hslots).
  assert (Hps : Forall (fun p => nth_error sims (fst p) = Some (snd p))
                  (take_upto top_k (ranking argsort sims))).
  { apply List.Forall_forall. intros p Hp. apply ranking_lookup.
    eapply take_upto_In, Hp. }
  destruct (entries_exist (_chunks st) sims idxs _ Hlen Hslots Hps) as [es He].
  exists es. split; [exact He|]. intros threshold.
  rewrite search_scored, Hsc. cbn [bind fst snd].
  rewrite argsort_rev, take_upto_map.
  apply (result_loop_spec _ _ _ _ _ _ [] Hps He).
Qed.

Lemma search_returns encode st query top_k threshold language' category'
    query_embedding rows :
  aligned st ->
  encode [query] = Some (query_embedding :: rows) ->
  Forall (fun emb => List.length query_embedding = List.length emb)
    (embeddings st) ->
  exists res,
    search encode argsort st query top_k threshold language' category' = Ok res.
Proof.
  intros Hal Henc Hdim.
  assert (Hsc : exists sc,
            scored encode st query language' category' = Ok sc).
  { unfold scored. destruct (_chunks st) as [|c0 chunks] eqn:E; [eauto|].
    rewrite Henc. cbn [index nth_error bind]. rewrite <- E.
    apply score_loop_returns. intros j Hj. unfold aligned in Hal.
    destruct (nth_error (embeddings st) j) as [emb|] eqn:Hemb;
      [|apply nth_error_None in Hemb; lia].
    exists emb. split; [exact Hemb|].
    rewrite List.Forall_forall in Hdim. eapply Hdim, nth_error_In, Hemb. }
  destruct Hsc as [[sims idxs] Hsc].
  destruct (search_ranked encode st query top_k language' category' _ _ Hsc)
    as (es & _ & Hres).
  eauto.
Qed.

Lemma search_Ok_scored encode st query top_k threshold language' category' res :
  search encode argsort st query top_k threshold language' category' = Ok res ->
  exists sims idxs,
    scored encode st query language' category' = Ok (sims, idxs).
Proof.
  rewrite search_scored.
  destruct (scored encode st query language' category') as [[sims idxs]|];
    [eauto | discriminate].
Qed.

(** On an index whose chunk ids are distinct, the ids of a result are. *)
Lemma search_ids_NoDup encode st query top_k threshold language' category' res :
  List.NoDup (List.map chunk_id (_chunks st)) ->
  search encode argsort st query top_k threshold language' category' = Ok res ->
  List.NoDup (List.map (fun e => chunk_id (fst e)) res).
Proof.
  intros Hids H.
  destruct (search_Ok_scored _ _ _ _ _ _ _ _ H) as (sims & idxs & Hsc).
  destruct (scored_valid _ _ _ _ _ _ _ Hsc) as (_ & Hsorted & _).
  destruct (search_ranked encode st query top_k language' category' _ _ Hsc)
    as (es & He & Hres).
  rewrite Hres in H. injection H as <-.
  apply NoDup_map_filter.
  apply (entries_NoDup _ _ _ _ Hids (StronglySorted_lt_NoDup _ Hsorted) He).
  destruct (take_upto_split top_k (ranking argsort sims)) as [rest Hsplit].
  pose proof (ranking_NoDup sims) as Hnd.
  rewrite Hsplit, List.map_app in Hnd.
  apply List.NoDup_app_remove_r in Hnd. exact Hnd.
Qed.

(** C7.  For thresholds [t1 <= t2], whenever [search] with [t2] returns,
    [search] with [t1] on the same index, query, [top_k] and filters returns
    too, and the chunk ids of the first result are among the chunk ids of the
    second.  (This holds for every [top_k], so also for those large enough
    to cut nothing off.) *)
Theorem search_threshold_monotone encode st query top_k t1 t2
    language' category' r2 :
  PrimFloat.leb t1 t2 = true ->
  search encode argsort st query top_k t2 language' category' = Ok r2 ->
  exists r1,
    search encode argsort st query top_k t1 language' category' = Ok r1
    /\ ids r2 ⊆ ids r1.
Proof.
  intros Ht H2.
  destruct (search_Ok_scored _ _ _ _ _ _ _ _ H2) as (sims & idxs & Hsc).
  destruct (search_ranked encode st query top_k language' category' _ _ Hsc)
    as (es & _ & Hres).
  rewrite Hres in H2. injection H2 as <-.
  exists (List.filter (at_least t1) es). split; [apply Hres|].
  unfold ids. intros id Hid.
  apply elem_of_list_to_set, list_elem_of_In, in_map_iff in Hid
    as (e & <- & He).
  apply List.filter_In in He as [He Hge].
  apply elem_of_list_to_set, list_elem_of_In, in_map_iff.
  exists e. split; [reflexivity|].
  apply List.filter_In. split; [exact He|].
  unfold at_least in *. eapply F64Facts.geb_trans; eassumption.
Qed.

(** C2, as the code has it.  [search] ranks all scored candidates in
    descending order of similarity (numpy's order, in which a score that is
    not a number ranks first), takes the first [top_k] of the ranking and
    returns those of them whose similarity reaches the threshold, in ranking
    order: the result is sorted descending by similarity and has at most
    [top_k] elements.  The ranking is the reversed [argsort], and this holds
    whichever ascending order [argsort] returns: candidates of equal scores
    come in the order it leaves them, and nothing puts the earlier-inserted
    one first. *)
Theorem search_top_k_descending encode st query top_k threshold
    language' category' res :
  search encode argsort st query top_k threshold language' category' = Ok res ->
  exists sims idxs es,
    scored encode st query language' category' = Ok (sims, idxs)
    /\ Forall2 (candidate encode st query language' category') idxs sims
    /\ Permutation (ranking argsort sims) (enumerate_from 0 sims)
    /\ StronglySorted desc (ranking argsort sims)
    /\ Forall2 (entry (_chunks st) idxs) (take_upto top_k (ranking argsort
        sims)) es
    /\ res = List.filter (at_least threshold) es
    /\ StronglySorted
         (fun e e' : DocumentChunk * float =>
            PrimFloat.leb (snd e') (snd e) = true) res
    /\ (0 <= top_k -> Z.of_nat (List.length res) <= top_k).
Proof.
  intros H.
  destruct (search_Ok_scored _ _ _ _ _ _ _ _ H) as (sims & idxs & Hsc).
  destruct (search_ranked encode st query top_k language' category' _ _ Hsc)
    as (es & He & Hres).
  rewrite Hres in H. injection H as <-.
  exists sims, idxs, es.
  split; [exact Hsc|]. split; [apply (scored_candidates _ _ _ _ _ _ _ Hsc)|].
  split; [apply ranking_perm|].
  split; [apply ranking_sorted|]. split; [exact He|].
  split; [reflexivity|]. split.
  - apply (StronglySorted_weaken
             (fun e e' => F64.np_le (snd e') (snd e) = true)).
    + intros x y Hx _ Hxy. apply List.filter_In in Hx as [_ Hx].
      apply F64Facts.np_le_number; [exact Hxy|].
      eapply F64Facts.geb_not_nan, Hx.
    + apply StronglySorted_filter. apply (entries_sorted _ _ _ _ He).
      destruct (take_upto_split top_k (ranking argsort sims)) as [rest Hsplit].
      pose proof (ranking_sorted sims) as Hs. rewrite Hsplit in Hs.
      apply StronglySorted_app_1_l in Hs. exact Hs.
  - intros Hk. pose proof (take_upto_length top_k (ranking argsort sims) Hk)
      as Hlen.
    apply Forall2_length in He.
    pose proof (List.filter_length_le (at_least threshold) es). lia.
Qed.

End Ranked.

Lemma search_threshold_monotone_witness :
  PrimFloat.leb 0.5 0.75 = true
  /\ search letter_model insertion_argsort (store_of [c0; c1; c2]) "a" 5 0.75
       None None
     = Ok [(c1, 1%float); (c0, 1%float)]
  /\ exists r1,
       search letter_model insertion_argsort (store_of [c0; c1; c2]) "a" 5 0.5
         None None = Ok r1
       /\ ids [(c1, 1%float); (c0, 1%float)] ⊆ ids r1.
Proof.
  assert (Ht : PrimFloat.leb 0.5 0.75 = true) by reflexivity.
  assert (H2 : search letter_model insertion_argsort (store_of [c0; c1; c2])
                 "a" 5 0.75 None None
               = Ok [(c1, 1%float); (c0, 1%float)])
    by (vm_compute; reflexivity).
  split; [exact Ht|]. split; [exact H2|].
  exact (search_threshold_monotone insertion_argsort insertion_argsort_sorts
           letter_model (store_of [c0; c1; c2]) "a" 5
           0.5 0.75 None None _ Ht H2).
Defined.

Lemma search_top_k_descending_witness :
  search letter_model insertion_argsort (store_of [c0; c2; c1]) "a" 2 0.5
    None None
  = Ok [(c1, 1%float); (c0, 1%float)]
  /\ StronglySorted
       (fun e e' : DocumentChunk * float =>
          PrimFloat.leb (snd e') (snd e) = true)
       [(c1, 1%float); (c0, 1%float)].
Proof.
  assert (H : search letter_model insertion_argsort (store_of [c0; c2; c1])
                "a" 2 0.5 None None
              = Ok [(c1, 1%float); (c0, 1%float)])
    by (vm_compute; reflexivity).
  split; [exact H|].
  destruct (search_top_k_descending insertion_argsort insertion_argsort_sorts
              letter_model (store_of [c0; c2; c1]) "a" 2 0.5 None None _ H)
    as (sims & idxs & es & _ & _ & _ & _ & _ & _ & Hs & _).
  exact Hs.
Defined.

(** Short arrays have one ascending order when their values differ. *)
Lemma argsort_two argsort (x y : float) :
  sorts_ascending argsort -> F64.np_le x y = false ->
  argsort [x; y] = [1; 0]%nat.
Proof.
  intros H Hxy. destruct (H [x; y]) as [Hperm Hsorted].
  cbn [List.length seq] in Hperm.
  apply Permutation_sym, Permutation_length_2_inv in Hperm as [Heq|Heq];
    [|exact Heq].
  rewrite Heq in Hsorted. apply StronglySorted_inv in Hsorted as [_ Hle].
  apply Forall_cons in Hle as [Hle _]. cbn [nth] in Hle. congruence.
Qed.

Lemma argsort_one argsort (x : float) :
  sorts_ascending argsort -> argsort [x] = [0%nat].
Proof.
  intros H. destruct (H [x]) as [Hperm _]. cbn [List.length seq] in Hperm.
  apply Permutation_sym, Permutation_length_1_inv in Hperm. exact Hperm.
Qed.

(** C2 as stated fails.  Whatever [argsort] returns among the ascending
    orders, a score that is not a number ranks first: with [top_k = 1] it
    takes the one place and the chunk with the highest similarity is not
    returned.  And with the [argsort] that leaves equal values in index
    order, two chunks of the same score come back with the one inserted
    later first. *)
Lemma search_ties_later_first :
  (forall argsort, sorts_ascending argsort ->
     search letter_model argsort (store_of [cz; c0]) "a" 1 0.5 None None
     = Ok []
     /\ search letter_model argsort (store_of [c0]) "a" 1 0.5 None None
        = Ok [(c0, 1%float)])
  /\ sorts_ascending insertion_argsort
  /\ search letter_model insertion_argsort (store_of [c0; c1]) "a" 5 0.5
       None None
     = Ok [(c1, 1%float); (c0, 1%float)].
Proof.
  split; [|split; [exact insertion_argsort_sorts | vm_compute; reflexivity]].
  intros argsort H. split.
  - rewrite (search_scored argsort H).
    assert (Hsc : scored letter_model (store_of [cz; c0]) "a" None None
                  = Ok ([PrimFloat.nan; 1%float], [0; 1]%nat))
      by (vm_compute; reflexivity).
    rewrite Hsc. cbn [bind fst snd].
    rewrite (argsort_two argsort _ _ H) by (vm_compute; reflexivity).
    vm_compute. reflexivity.
  - rewrite (search_scored argsort H).
    assert (Hsc : scored letter_model (store_of [c0]) "a" None None
                  = Ok ([1%float], [0%nat]))
      by (vm_compute; reflexivity).
    rewrite Hsc. cbn [bind fst snd].
    rewrite (argsort_one argsort _ H). vm_compute. reflexivity.
Qed.

(** C5, as the code has it.  For two vectors of one length of which either
    has norm zero, computing the similarity raises nothing, but nothing
    guards the division either: the score is not a number or infinite, never
    0 (and not a number when the second vector is all zeros).  What [search]
    guarantees is only that no result carries a score that is not a number,
    since such a score fails [similarity >= threshold]. *)
Theorem zero_norm_similarity v1 v2 :
  List.length v1 = List.length v2 ->
  PrimFloat.is_zero (norm v1) = true \/ PrimFloat.is_zero (norm v2) = true ->
  (exists s,
     _cosine_similarity v1 v2 = Ok s
     /\ (F64.is_nan s = true \/ PrimFloat.is_infinity s = true)
     /\ PrimFloat.is_zero s = false
     /\ (Forall (fun x => PrimFloat.is_zero x = true) v2 ->
         F64.is_nan s = true))
  /\ forall encode argsort st query top_k threshold language' category' res,
       search encode argsort st query top_k threshold language' category'
       = Ok res ->
       Forall (fun e => F64.is_nan (snd e) = false) res.
Proof.
  intros Hlen Hnorm. split.
  - unfold _cosine_similarity. rewrite (proj2 (Nat.eqb_eq _ _) Hlen).
    eexists. split; [reflexivity|].
    assert (H : F64.is_nan
                  (PrimFloat.div (dot v1 v2)
                     (PrimFloat.mul (norm v1) (norm v2))) = true
                \/ PrimFloat.is_infinity
                     (PrimFloat.div (dot v1 v2)
                        (PrimFloat.mul (norm v1) (norm v2))) = true).
    { apply F64Facts.div_zero_or_nan.
      destruct Hnorm as [H|H];
        [apply F64Facts.mul_zero_l | apply F64Facts.mul_zero_r]; exact H. }
    split; [exact H|]. split.
    + rewrite F64Facts.is_zero_spec.
      rewrite F64Facts.is_nan_spec, F64Facts.is_infinity_spec in H.
      destruct (Prim2SF _); destruct H; try discriminate; reflexivity.
    + intros Hz. destruct (cosine_all_zero v1 v2 Hlen Hz) as (s & Hs & Hnan).
      unfold _cosine_similarity in Hs.
      rewrite (proj2 (Nat.eqb_eq _ _) Hlen) in Hs. injection Hs as <-.
      exact Hnan.
  - intros encode argsort st query top_k threshold language' category' res H.
    eapply List.Forall_impl; [|apply (search_at_least _ _ _ _ _ _ _ _ _ H)].
    intros e He. eapply F64Facts.geb_not_nan, He.
Qed.

Lemma zero_norm_similarity_witness :
  List.length [1%float; 0%float] = List.length [0%float; 0%float]
  /\ exists s,
       _cosine_similarity [1%float; 0%float] [0%float; 0%float] = Ok s
       /\ (F64.is_nan s = true \/ PrimFloat.is_infinity s = true)
       /\ PrimFloat.is_zero s = false
       /\ (Forall (fun x => PrimFloat.is_zero x = true) [0%float; 0%float] ->
           F64.is_nan s = true).
Proof.
  split; [reflexivity|].
  apply (zero_norm_similarity [1%float; 0%float] [0%float; 0%float]).
  - reflexivity.
  - right. vm_compute. reflexivity.
Defined.

(** C5 as stated fails: against an all-zero vector the score is not a
    number, and the candidate is ranked with it: here it takes the one place
    [top_k] leaves, and the chunk that matches the query is not returned. *)
Lemma zero_norm_score_is_nan :
  (exists s,
     _cosine_similarity [1%float; 0%float] [0%float; 0%float] = Ok s
     /\ F64.is_nan s = true)
  /\ search letter_model insertion_argsort (store_of [cz; c0]) "a" 1 0.5
       None None = Ok []
  /\ search letter_model insertion_argsort (store_of [c0]) "a" 1 0.5
       None None
     = Ok [(c0, 1%float)].
Proof.
  split; [eexists; split; vm_compute; reflexivity|].
  split; vm_compute; reflexivity.
Qed.


End SearchFacts.

(* ===================================================================== *)
(** * The orchestrator: merging the two passes *)
(* ===================================================================== *)

Module ServiceFacts.

Import Py Store Service SearchFacts Notions Fixtures.

Section SortDesc.

Context {A : Type} (key : A -> float).

Lemma insert_desc_perm x l : Permutation (insert_desc key x l) (x :: l).
Proof.
  induction l as [|y l IH]; cbn; [reflexivity|].
  destruct (PrimFloat.ltb (key x) (key y)); [|reflexivity].
  rewrite IH. apply perm_swap.
Qed.

Lemma sort_desc_perm l : Permutation (sort_desc key l) l.
Proof.
  induction l as [|x l IH]; cbn; [reflexivity|].
  rewrite insert_desc_perm, IH. reflexivity.
Qed.

Let ge (a b : A) : Prop := PrimFloat.leb (key b) (key a) = true.

Lemma insert_desc_sorted x l :
  F64.is_nan (key x) = false ->
  Forall (fun y => F64.is_nan (key y) = false) l ->
  StronglySorted ge l -> StronglySorted ge (insert_desc key x l).
Proof.
  intros Hx Hl Hs. induction Hs as [|y l Hs IH Hy]; cbn;
    [repeat constructor|].
  apply Forall_cons in Hl as [Hny Hl].
  destruct (PrimFloat.ltb (key x) (key y)) eqn:E.
  - constructor; [apply IH, Hl|].
    rewrite (insert_desc_perm x l). constructor; [|exact Hy].
    apply F64Facts.ltb_leb, E.
  - assert (Hxy : ge x y).
    { unfold ge. rewrite F64Facts.ltb_negb_leb in E by assumption.
      destruct (PrimFloat.leb (key y) (key x)); [reflexivity|discriminate]. }
    constructor; [constructor; assumption|].
    constructor; [exact Hxy|].
    eapply List.Forall_impl; [|exact Hy].
    intros z Hz. unfold ge in *. eapply F64Facts.leb_trans; eassumption.
Qed.

Lemma sort_desc_sorted l :
  Forall (fun y => F64.is_nan (key y) = false) l ->
  StronglySorted ge (sort_desc key l).
Proof.
  induction l as [|x l IH]; cbn; intros H; [constructor|].
  apply Forall_cons in H as [Hx Hl].
  apply insert_desc_sorted; [exact Hx| |apply IH, Hl].
  rewrite (sort_desc_perm l). exact Hl.
Qed.

(** Stability: among the elements whose key equals [k], the order of the
    list is kept. *)
Lemma insert_desc_stable k x l :
  List.filter (fun y => PrimFloat.eqb k (key y)) (insert_desc key x l)
  = List.filter (fun y => PrimFloat.eqb k (key y)) (x :: l).
Proof.
  induction l as [|y l IH]; [reflexivity|]. cbn [insert_desc].
  destruct (PrimFloat.ltb (key x) (key y)) eqn:E; [|reflexivity].
  cbn [List.filter] in *. rewrite IH.
  destruct (PrimFloat.eqb k (key x)) eqn:Ex; [|reflexivity].
  rewrite (F64Facts.eqb_ltb_neq _ _ _ Ex E). reflexivity.
Qed.

Lemma sort_desc_stable k l :
  List.filter (fun y => PrimFloat.eqb k (key y)) (sort_desc key l)
  = List.filter (fun y => PrimFloat.eqb k (key y)) l.
Proof.
  induction l as [|x l IH]; [reflexivity|]. cbn [sort_desc fold_right].
  fold (sort_desc key l). rewrite insert_desc_stable. cbn [List.filter].
  rewrite IH. reflexivity.
Qed.

End SortDesc.

(** ** The merged list *)

Lemma merge_spec refined broad :
  merge refined broad
  = List.map (tag 2) refined
    ++ List.map (tag 1)
         (List.filter
            (fun e =>
               negb (bool_decide (chunk_id (fst e) ∈ pass_ids refined)))
            broad).
Proof.
  unfold merge. f_equal. f_equal. apply List.filter_ext. intros e.
  f_equal. apply bool_decide_ext.
  rewrite elem_of_list_to_set, List.map_map. reflexivity.
Qed.

Lemma result_ids_tag r results :
  result_ids (List.map (tag r) results) = pass_ids results.
Proof. unfold result_ids, pass_ids. rewrite List.map_map. reflexivity. Qed.

Lemma merge_NoDup refined broad :
  List.NoDup (pass_ids refined) -> List.NoDup (pass_ids broad) ->
  List.NoDup (result_ids (merge refined broad)).
Proof.
  intros Hr Hb. rewrite merge_spec. unfold result_ids.
  rewrite List.map_app. fold (result_ids (List.map (tag 2) refined)).
  match goal with
  | |- List.NoDup (_ ++ List.map _ (List.map (tag 1) ?l)) =>
      fold (result_ids (List.map (tag 1) l))
  end.
  rewrite !result_ids_tag. apply NoDup_ListNoDup, NoDup_app.
  split; [apply NoDup_ListNoDup, Hr|]. split.
  - intros id Hid Hid'. unfold pass_ids at 1 in Hid'.
    apply list_elem_of_In, in_map_iff in Hid' as (e & <- & He).
    apply List.filter_In in He as [_ He].
    rewrite bool_decide_eq_true_2 in He by exact Hid. discriminate.
  - apply NoDup_ListNoDup. unfold pass_ids. apply NoDup_map_filter, Hb.
Qed.

Lemma sublist_pair_app {A} (a b : A) (l1 l2 : list A) :
  [a; b] `sublist_of` l1 ++ l2 -> In a l1 \/ In b l2.
Proof.
  intros H. apply sublist_app_r in H as (k1 & k2 & Hk & H1 & H2).
  destruct k1 as [|a' k1]; cbn in Hk.
  - subst k2. right. apply list_elem_of_In.
    eapply sublist_subseteq; [exact H2|]. set_solver.
  - injection Hk as <- _. left. apply list_elem_of_In.
    eapply sublist_subseteq; [exact H1|]. set_solver.
Qed.

Lemma filter_pair_sublist {A} (f : A -> bool) l1 a l2 b l3 :
  f a = true -> f b = true ->
  [a; b] `sublist_of` List.filter f (l1 ++ a :: l2 ++ b :: l3).
Proof.
  intros Ha Hb. rewrite List.filter_app. cbn [List.filter]. rewrite Ha.
  rewrite List.filter_app. cbn [List.filter]. rewrite Hb.
  apply sublist_inserts_l. constructor.
  apply sublist_inserts_l. constructor. apply sublist_nil_l.
Qed.

(** In the sorted merge, a broad result is never followed by a refined
    result of exactly the same score. *)
Lemma merge_refined_first refined broad l1 r l2 r' l3 :
  sort_desc similarity (merge refined broad) = l1 ++ r :: l2 ++ r' :: l3 ->
  PrimFloat.eqb (similarity r) (similarity r') = true ->
  round r = 1%nat -> round r' = 1%nat.
Proof.
  intros Hres Heq Hr.
  assert (Hrr : PrimFloat.eqb (similarity r) (similarity r) = true).
  { rewrite F64Facts.eqb_leb in Heq. apply andb_true_iff in Heq as [H _].
    apply F64Facts.leb_not_nan in H as [H _].
    rewrite F64Facts.eqb_refl_is_nan, H. reflexivity. }
  pose proof (filter_pair_sublist
                (fun y => PrimFloat.eqb (similarity r) (similarity y))
                l1 r l2 r' l3 Hrr Heq) as Hsub.
  rewrite <- Hres, sort_desc_stable, merge_spec, List.filter_app in Hsub.
  apply sublist_pair_app in Hsub as [Hin|Hin];
    apply List.filter_In in Hin as [Hin _];
    apply in_map_iff in Hin as (e & <- & _).
  - cbn in Hr. discriminate.
  - reflexivity.
Qed.

(** ** The log lines *)

Lemma append_String c a b :
  String.append (String c a) b = String c (String.append a b).
Proof. reflexivity. Qed.

Lemma plain_app a b : plain (String.append a b) = plain a && plain b.
Proof.
  unfold plain. induction a as [|c a IH]; [reflexivity|].
  rewrite append_String. cbn [list_ascii_of_string forallb].
  rewrite IH. apply andb_assoc.
Qed.

Lemma plain_uint (d : Decimal.uint) :
  plain (NilEmpty.string_of_uint d) = true.
Proof. unfold plain. induction d; cbn; auto. Qed.

Lemma plain_count a n b :
  plain a = true -> plain b = true ->
  plain (String.append a (String.append (str_of_nat n) b)) = true.
Proof.
  intros Ha Hb. rewrite !plain_app, Ha, Hb. unfold str_of_nat.
  rewrite plain_uint. reflexivity.
Qed.

Lemma occurs_plain sub t : forall message,
  plain message = true ->
  occurs (String "[" sub) (String.append message t)
  = occurs (String "[" sub) t.
Proof.
  unfold plain.
  induction message as [|c message IH]; intros H; [reflexivity|].
  rewrite append_String.
  cbn [list_ascii_of_string forallb] in H. apply andb_true_iff in H as [Hc H].
  cbn [occurs String.prefix].
  destruct (ascii_dec "[" c) as [<-|_]; [discriminate|].
  cbn [orb]. apply IH, H.
Qed.

Lemma occurs_plain_nil sub message :
  plain message = true -> occurs (String "[" sub) message = false.
Proof.
  unfold plain. induction message as [|c message IH]; intros H; [reflexivity|].
  cbn [list_ascii_of_string forallb] in H. apply andb_true_iff in H as [Hc H].
  cbn [occurs String.prefix].
  destruct (ascii_dec "[" c) as [<-|_]; [discriminate|].
  cbn [orb]. apply IH, H.
Qed.

Lemma strict_console_plain : prints_plain strict_console.
Proof.
  intros message H. unfold Logger.info, Logger.success, Logger.warning.
  pose proof (occurs_plain_nil "/x]" message H) as Hm.
  pose proof (occurs_plain "/x]" "[/bold green]" message H) as Hs.
  unfold strict_console.
  split; [|split].
  - rewrite !append_String. change (String.append "" message) with message.
    cbn. rewrite Hm. reflexivity.
  - destruct (startswith message _).
    + rewrite !append_String.
      change (String.append "" (String.append message "[/bold green]"))
        with (String.append message "[/bold green]").
      cbn. rewrite Hs. reflexivity.
    + rewrite !append_String. change (String.append "" message) with message.
      cbn. rewrite Hm. reflexivity.
  - rewrite !append_String. change (String.append "" message) with message.
    cbn. rewrite Hm. reflexivity.
Qed.

Lemma quiet_console_plain : prints_plain quiet_console.
Proof.
  intros message _. unfold Logger.info, Logger.success, Logger.warning.
  destruct (startswith message _); repeat split.
Qed.

Section Logged.

Variable console_print : string -> result unit.
Variable encode : list string -> option (list vector).
Variable argsort : list float -> list nat.
Hypothesis console_plain : prints_plain console_print.

Local Set Default Proof Using "console_print encode argsort console_plain".

(** Once the console has printed the line that names the query, every other
    line is printed: [multi_round_search] is its two searches and its
    merge. *)
Lemma multi_round_search_printed st query broad_top_k refined_top_k
    broad_threshold refined_threshold :
  Logger.info console_print (String.append "Multi-round search for: " query)
  = Ok tt ->
  multi_round_search console_print encode argsort st query broad_top_k
    refined_top_k broad_threshold refined_threshold
  = two_passes encode argsort st query broad_top_k refined_top_k
      broad_threshold refined_threshold.
Proof.
  intros H. unfold multi_round_search, two_passes. rewrite H. cbn [logged].
  rewrite (proj1 (console_plain "Round 1: Broad search" eq_refl)).
  cbn [logged].
  destruct (search encode argsort st query broad_top_k broad_threshold
              None None) as [[|b broad]|e]; [| |reflexivity].
  - rewrite (proj2 (proj2 (console_plain "No results found in broad search"
                             eq_refl))).
    reflexivity.
  - rewrite (proj1 (proj2 (console_plain _
                             (plain_count "Broad search found " _
                                " candidates" eq_refl eq_refl)))).
    cbn [logged].
    rewrite (proj1 (console_plain "Round 2: Refined search" eq_refl)).
    cbn [logged].
    destruct (search encode argsort st query refined_top_k refined_threshold
                None None) as [refined|e]; [|reflexivity].
    rewrite (proj1 (proj2 (console_plain _
                             (plain_count "Refined search found " _
                                " high-quality results" eq_refl eq_refl)))).
    cbn [logged].
    rewrite (proj1 (proj2 (console_plain _
                             (plain_count "Combined search returned " _
                                " unique results" eq_refl eq_refl)))).
    reflexivity.
Qed.

(** ** The claims *)

(** C1, as the code has it.  When the console prints the line that names the
    query, the broad pass returns a list that is not empty and the refined
    pass returns, [multi_round_search] returns after these two calls a list
    that is a rearrangement of all refined results (tagged 2) followed by
    the broad results whose chunk id is not among those of the refined
    results (tagged 1); it is sorted descending by similarity; the sort is
    stable, so a broad-tagged result never precedes a refined-tagged one of
    exactly the same score; and its chunk ids are pairwise distinct when the
    stored chunk ids are (and [argsort] sorts as numpy's does). *)
Theorem multi_round_search_merged st query broad_top_k refined_top_k
    broad_threshold refined_threshold broad refined :
  Logger.info console_print (String.append "Multi-round search for: " query)
  = Ok tt ->
  search encode argsort st query broad_top_k broad_threshold None None
  = Ok broad ->
  broad <> [] ->
  search encode argsort st query refined_top_k refined_threshold None None
  = Ok refined ->
  exists res,
    multi_round_search console_print encode argsort st query broad_top_k
      refined_top_k broad_threshold refined_threshold
    = ([SearchCall query broad_top_k broad_threshold;
        SearchCall query refined_top_k refined_threshold], Ok res)
    /\ Permutation res
         (List.map (tag 2) refined
          ++ List.map (tag 1)
               (List.filter
                  (fun e =>
                     negb (bool_decide (chunk_id (fst e) ∈ pass_ids refined)))
                  broad))
    /\ StronglySorted descending res
    /\ (forall k,
          List.filter (fun r => PrimFloat.eqb k (similarity r)) res
          = List.filter (fun r => PrimFloat.eqb k (similarity r))
              (merge refined broad))
    /\ (forall l1 r l2 r' l3,
          res = l1 ++ r :: l2 ++ r' :: l3 ->
          PrimFloat.eqb (similarity r) (similarity r') = true ->
          round r = 1%nat -> round r' = 1%nat)
    /\ (sorts_ascending argsort ->
        List.NoDup (List.map chunk_id (_chunks st)) ->
        List.NoDup (result_ids res)).
Proof.
  intros Hlog Hb Hne Hr.
  exists (sort_desc similarity (merge refined broad)).
  split; [|split; [|split; [|split; [|split]]]].
  - rewrite (multi_round_search_printed _ _ _ _ _ _ Hlog).
    unfold two_passes. rewrite Hb.
    destruct broad as [|b0 broad']; [congruence|]. rewrite Hr. reflexivity.
  - rewrite <- merge_spec. apply sort_desc_perm.
  - apply sort_desc_sorted. rewrite merge_spec.
    apply Forall_app. split; apply List.Forall_forall; intros r Hin;
      apply in_map_iff in Hin as (e & <- & He); cbn.
    + pose proof (search_at_least _ _ _ _ _ _ _ _ _ Hr) as H.
      rewrite List.Forall_forall in H.
      eapply F64Facts.geb_not_nan, H, He.
    + apply List.filter_In in He as [He _].
      pose proof (search_at_least _ _ _ _ _ _ _ _ _ Hb) as H.
      rewrite List.Forall_forall in H.
      eapply F64Facts.geb_not_nan, H, He.
  - intros k. apply sort_desc_stable.
  - apply merge_refined_first.
  - intros Hsorts Hids. eapply Permutation_NoDup.
    + symmetry. apply Permutation_map, sort_desc_perm.
    + apply merge_NoDup; eapply (search_ids_NoDup argsort Hsorts);
        eassumption.
Qed.

(** C9, on the code.  On an index without chunks [search] returns the empty
    list, whatever its arguments and the model.  [multi_round_search] first
    logs the query.  When the console prints that line, and the index has no
    chunks or the broad pass returns the empty list, it returns the empty
    list having called [search] once: the refined pass is not run.  When the
    console refuses that line, it raises the console's exception before any
    search, also on an index without chunks. *)
Theorem empty_index_empty_results st query broad_top_k refined_top_k
    broad_threshold refined_threshold :
  (_chunks st = [] ->
   forall top_k threshold language' category',
     search encode argsort st query top_k threshold language' category'
     = Ok [])
  /\ (_chunks st = []
      \/ search encode argsort st query broad_top_k broad_threshold None None
         = Ok [] ->
      multi_round_search console_print encode argsort st query broad_top_k
        refined_top_k broad_threshold refined_threshold
      = match Logger.info console_print
                (String.append "Multi-round search for: " query) with
        | Ok _ => ([SearchCall query broad_top_k broad_threshold], Ok [])
        | Raise e => ([], Raise e)
        end).
Proof.
  assert (Hempty : _chunks st = [] ->
            forall top_k threshold language' category',
              search encode argsort st query top_k threshold language'
                category'
              = Ok []).
  { intros H top_k threshold language' category'. unfold search.
    rewrite H. reflexivity. }
  split; [exact Hempty|]. intros H.
  assert (Hb : search encode argsort st query broad_top_k broad_threshold
                 None None = Ok [])
    by (destruct H as [H|H]; [apply Hempty, H | exact H]).
  destruct (Logger.info console_print
              (String.append "Multi-round search for: " query))
    as [[]|e] eqn:Hlog.
  - rewrite (multi_round_search_printed _ _ _ _ _ _ Hlog).
    unfold two_passes. rewrite Hb. reflexivity.
  - unfold multi_round_search. rewrite Hlog. reflexivity.
Qed.

End Logged.

(** ** On the small index *)

Lemma multi_round_search_merged_witness :
  prints_plain strict_console
  /\ Logger.info strict_console "Multi-round search for: a" = Ok tt
  /\ search letter_model insertion_argsort small_index "a" 20 0.5 None None
     = Ok (pass 20 0.5)
  /\ pass 20 0.5 <> []
  /\ search letter_model insertion_argsort small_index "a" 5 0.75 None None
     = Ok (pass 5 0.75)
  /\ sorts_ascending insertion_argsort
  /\ List.NoDup (List.map chunk_id (_chunks small_index))
  /\ exists res,
       multi_round_search strict_console letter_model insertion_argsort
         small_index "a" 20 5 0.5 0.75
       = ([SearchCall "a" 20 0.5; SearchCall "a" 5 0.75], Ok res)
       /\ List.NoDup (result_ids res)
       /\ List.map round res = [2; 2; 1]%nat.
Proof.
  assert (Hids : List.NoDup (List.map chunk_id (_chunks small_index))).
  { vm_compute.
    repeat (constructor;
            [cbn; intros H; repeat destruct H as [H|H];
             try discriminate; try contradiction|]).
    constructor. }
  assert (Hlog : Logger.info strict_console "Multi-round search for: a"
                 = Ok tt) by (vm_compute; reflexivity).
  assert (Hb : search letter_model insertion_argsort small_index "a" 20 0.5
                 None None
               = Ok (pass 20 0.5)) by (vm_compute; reflexivity).
  assert (Hne : pass 20 0.5 <> []) by (vm_compute; discriminate).
  assert (Hr : search letter_model insertion_argsort small_index "a" 5 0.75
                 None None
               = Ok (pass 5 0.75)) by (vm_compute; reflexivity).
  split; [exact strict_console_plain|].
  repeat (split; [assumption|]).
  split; [exact insertion_argsort_sorts|]. split; [exact Hids|].
  destruct (multi_round_search_merged strict_console letter_model
              insertion_argsort strict_console_plain small_index "a" 20 5
              0.5 0.75 _ _ Hlog Hb Hne Hr)
    as (res & Hres & _ & _ & _ & _ & Hnd).
  exists res. split; [exact Hres|].
  split; [exact (Hnd insertion_argsort_sorts Hids)|].
  assert (H : snd (multi_round_search strict_console letter_model
                     insertion_argsort small_index "a" 20 5
                     0.5 0.75) = Ok res) by (rewrite Hres; reflexivity).
  vm_compute in H. injection H as <-. reflexivity.
Defined.

(** C1 as stated fails: once a chunk id is stored twice, the merged list
    repeats it. *)
Lemma multi_round_search_repeats_id :
  exists res,
    snd (multi_round_search strict_console letter_model insertion_argsort
           reingested "a" 20 5 0.25 0.5) = Ok res
    /\ result_ids res = ["c0"; "c1"; "c0"]
    /\ ~ List.NoDup (result_ids res).
Proof.
  eexists. split; [vm_compute; reflexivity|]. split; [reflexivity|].
  intros H. apply List.NoDup_cons_iff in H as [H _].
  apply H. right. left. reflexivity.
Qed.

(** On the index without chunks: the query [[/x]] is refused by the console
    and nothing is returned; the query [a] gives the empty list. *)
Lemma empty_index_empty_results_witness :
  prints_plain strict_console
  /\ _chunks empty_store = []
  /\ multi_round_search strict_console letter_model insertion_argsort
       empty_store "[/x]" 20 5 0.25 0.5
     = ([], Raise MarkupError)
  /\ multi_round_search strict_console letter_model insertion_argsort
       empty_store "a" 20 5 0.25 0.5
     = ([SearchCall "a" 20 0.25], Ok []).
Proof.
  assert (H1 : _chunks empty_store = []) by reflexivity.
  split; [exact strict_console_plain|]. split; [exact H1|]. split.
  - exact (proj2 (empty_index_empty_results strict_console letter_model
                    insertion_argsort strict_console_plain empty_store
                    "[/x]" 20 5 0.25 0.5) (or_introl H1)).
  - exact (proj2 (empty_index_empty_results strict_console letter_model
                    insertion_argsort strict_console_plain empty_store
                    "a" 20 5 0.25 0.5) (or_introl H1)).
Defined.

End ServiceFacts.

(* ===================================================================== *)
(** * The chunker: what the chunks are made of *)
(* ===================================================================== *)

Module CoverageFacts.

Import Chunker Py Processor Notions MoreNotions ChunkerFacts ProcessorFacts.

(** ** Strings *)

Lemma append_cons x (a b : string) :
  String.append (String x a) b = String x (String.append a b).
Proof. reflexivity. Qed.

Lemma append_nil_l (b : string) : String.append EmptyString b = b.
Proof. reflexivity. Qed.

Lemma append_assoc (a b c : string) :
  String.append (String.append a b) c = String.append a (String.append b c).
Proof.
  induction a as [|x a IH]; rewrite ?append_nil_l, ?append_cons;
    [reflexivity|]. rewrite IH. reflexivity.
Qed.

Lemma append_nil_r (a : string) : String.append a EmptyString = a.
Proof.
  induction a as [|x a IH]; rewrite ?append_nil_l, ?append_cons;
    [reflexivity|]. rewrite IH. reflexivity.
Qed.

Lemma length_append (a b : string) :
  String.length (String.append a b) = (String.length a + String.length b)%nat.
Proof.
  induction a as [|x a IH]; rewrite ?append_nil_l, ?append_cons;
    [reflexivity|]. cbn [String.length]. rewrite IH. reflexivity.
Qed.

Lemma prefix_append (a b : string) : String.prefix a (String.append a b) = true.
Proof.
  induction a as [|x a IH]; rewrite ?append_nil_l, ?append_cons.
  - destruct b; reflexivity.
  - cbn [String.prefix]. destruct (ascii_dec x x); [exact IH | congruence].
Qed.

Lemma occurs_in_refl s : occurs_in s s.
Proof.
  exists EmptyString, EmptyString.
  rewrite append_nil_l, append_nil_r. reflexivity.
Qed.

Lemma occurs_in_find sub : forall s,
  occurs_in sub s -> exists i, find_index s sub = Some i.
Proof.
  intros s (before & after & ->). induction before as [|c before IH].
  - rewrite append_nil_l. destruct (String.append sub after) eqn:E;
      cbn [find_index]; rewrite <- ?E, prefix_append; eauto.
  - rewrite append_cons. cbn [find_index]. destruct IH as [i Hi]. rewrite Hi.
    destruct (String.prefix sub _); cbn; eauto.
Qed.

(** ** Lines *)

Lemma split_lines_nonempty s : split_lines s <> [].
Proof.
  destruct s as [|c s]; cbn; [discriminate|].
  destruct (Ascii.eqb c newline); [discriminate|].
  destruct (split_lines s); discriminate.
Qed.

(** ['\n'.join(s.split('\n')) == s]. *)
Lemma join_split_lines s : join_lines (split_lines s) = s.
Proof.
  induction s as [|c s IH]; [reflexivity|]. cbn [split_lines].
  pose proof (split_lines_nonempty s) as Hne.
  destruct (Ascii.eqb c newline) eqn:E.
  - apply Ascii.eqb_eq in E. subst c.
    destruct (split_lines s) as [|l ls]; [congruence|].
    cbn [join_lines]. rewrite append_nil_l. f_equal. exact IH.
  - destruct (split_lines s) as [|l ls]; [congruence|].
    destruct ls as [|l' ls]; cbn [join_lines] in *;
      rewrite ?append_cons; f_equal; exact IH.
Qed.

Lemma join_lines_cons l ls :
  ls <> [] ->
  join_lines (l :: ls) = String.append l (String newline (join_lines ls)).
Proof. destruct ls; [congruence | reflexivity]. Qed.

Lemma join_lines_app xs ys :
  xs <> [] -> ys <> [] ->
  join_lines (xs ++ ys)
  = String.append (join_lines xs) (String newline (join_lines ys)).
Proof.
  intros Hx Hy. induction xs as [|x xs IH]; [congruence|].
  destruct xs as [|x' xs].
  - cbn [app]. apply join_lines_cons, Hy.
  - change ((x :: x' :: xs) ++ ys) with (x :: ((x' :: xs) ++ ys)).
    rewrite join_lines_cons by discriminate.
    rewrite IH by discriminate.
    rewrite (join_lines_cons x (x' :: xs)) by discriminate.
    rewrite append_assoc. reflexivity.
Qed.

(** A run of lines, joined, occurs in the joined lines. *)
Lemma run_of_occurs run lines :
  run_of run lines -> occurs_in (join_lines run) (join_lines lines).
Proof.
  intros (before & after & ->).
  destruct run as [|r run].
  { exists EmptyString, (join_lines (before ++ after)). reflexivity. }
  destruct before as [|b before], after as [|a after].
  - rewrite app_nil_r. apply occurs_in_refl.
  - cbn [app]. change (r :: run ++ a :: after) with ((r :: run) ++ a :: after).
    rewrite join_lines_app by discriminate.
    exists EmptyString, (String newline (join_lines (a :: after))).
    reflexivity.
  - rewrite app_nil_r. rewrite join_lines_app by discriminate.
    exists (String.append (join_lines (b :: before))
              (String newline EmptyString)), EmptyString.
    rewrite append_nil_r, append_assoc, append_cons, append_nil_l.
    reflexivity.
  - rewrite join_lines_app by discriminate.
    rewrite join_lines_app by discriminate.
    exists (String.append (join_lines (b :: before))
              (String newline EmptyString)),
           (String newline (join_lines (a :: after))).
    rewrite append_assoc, append_cons, append_nil_l. reflexivity.
Qed.

Lemma run_of_trans a b c : run_of a b -> run_of b c -> run_of a c.
Proof.
  intros (b1 & b2 & ->) (c1 & c2 & ->).
  exists (c1 ++ b1), (b2 ++ c2). rewrite <- !app_assoc. reflexivity.
Qed.

Lemma run_of_firstn_skipn (lines : list string) i n :
  run_of (firstn n (skipn i lines)) lines.
Proof.
  exists (firstn i lines), (skipn n (skipn i lines)).
  rewrite (firstn_skipn n (skipn i lines)), (firstn_skipn i lines).
  reflexivity.
Qed.

(** ** The loops *)

Lemma lines_size_app xs ys : lines_size (xs ++ ys) = lines_size xs + lines_size ys.
Proof.
  unfold lines_size. induction xs as [|x xs IH]; cbn [app fold_right]; lia.
Qed.

Lemma lines_size_nonneg ls : 0 <= lines_size ls.
Proof.
  unfold lines_size. induction ls as [|l ls IH]; cbn [fold_right]; [lia|].
  pose proof (len_nonneg l). lia.
Qed.

Lemma run_of_snoc run lines x : run_of run lines -> run_of run (lines ++ [x]).
Proof.
  intros (before & after & ->). exists before, (after ++ [x]).
  rewrite <- !app_assoc. reflexivity.
Qed.

Lemma chunk_of_lines_snoc cs co lines x c :
  chunk_of_lines cs co lines c -> chunk_of_lines cs co (lines ++ [x]) c.
Proof.
  intros (run & Hne & Hrun & Hb & ->). exists run.
  auto using run_of_snoc.
Qed.

Lemma nonempty_true {A} (l : list A) : nonempty l = true <-> l <> [].
Proof. destruct l; cbn; split; congruence. Qed.

(** Reading a line without cutting. *)
Lemma inv_push cs co processed a x :
  chunking_inv cs co processed a ->
  size_cut a x cs = false ->
  chunking_inv cs co (processed ++ [x]) (push_line a x).
Proof.
  intros ((p & Hp) & Hsize & Hcur & Hchunks) Hcut.
  unfold chunking_inv, push_line; cbn [current_chunk current_size chunks].
  split; [|split; [|split]].
  - exists p. rewrite Hp, <- app_assoc. reflexivity.
  - rewrite lines_size_app, Hsize. unfold lines_size; cbn. lia.
  - right. unfold size_cut in Hcut.
    destruct (current_chunk a) as [|c cc] eqn:E.
    + right. exists [], x. split; [reflexivity|]. cbn. lia.
    + left. rewrite andb_true_r in Hcut. apply Z.ltb_ge in Hcut.
      rewrite lines_size_app, <- Hsize. unfold lines_size at 1; cbn. lia.
  - eapply List.Forall_impl; [|exact Hchunks].
    intros c. apply chunk_of_lines_snoc.
Qed.

(** Cutting, reseeding with a window [w] of the chunk in hand, and reading
    a line. *)
Lemma inv_cut cs co processed a x p w :
  chunking_inv cs co processed a ->
  current_chunk a <> [] ->
  current_chunk a = p ++ w ->
  lines_size w <= Z.max 0 co ->
  chunking_inv cs co (processed ++ [x])
    (Acc (chunks a ++ [join_lines (current_chunk a)]) (w ++ [x])
         (lines_size w + (len x + 1))).
Proof.
  intros ((q & Hq) & Hsize & Hcur & Hchunks) Hne Hw Hbound.
  unfold chunking_inv; cbn [current_chunk current_size chunks].
  split; [|split; [|split]].
  - exists (q ++ p). rewrite Hq, Hw, <- !app_assoc. reflexivity.
  - rewrite lines_size_app. unfold lines_size at 3; cbn. lia.
  - right. right. exists w, x. auto.
  - apply Forall_app. split.
    + eapply List.Forall_impl; [|exact Hchunks].
      intros c. apply chunk_of_lines_snoc.
    + constructor; [|constructor].
      exists (current_chunk a). split; [exact Hne|]. split.
      * exists q, [x]. rewrite Hq, <- app_assoc. reflexivity.
      * split; [|reflexivity]. destruct Hcur; [contradiction|assumption].
Qed.

Lemma size_cut_nonempty a x cs : size_cut a x cs = true -> current_chunk a <> [].
Proof.
  unfold size_cut. intros H. apply andb_true_iff in H as [_ H].
  apply nonempty_true, H.
Qed.

Lemma simple_step_inv cs co processed a x :
  chunking_inv cs co processed a ->
  chunking_inv cs co (processed ++ [x]) (simple_step cs co a x).
Proof.
  intros Hinv. unfold simple_step.
  destruct (size_cut a x cs) eqn:Hcut; [|apply inv_push; assumption].
  destruct (overlap_simple_spec (current_chunk a) co)
    as (p & w & Hw & Hsplit & Hbound & _).
  unfold cut_with, push_line; cbn [chunks current_chunk current_size].
  rewrite Hw. cbn [fst snd].
  eapply inv_cut; eauto using size_cut_nonempty.
Qed.

Lemma large_step_inv cs co processed a x :
  chunking_inv cs co processed a ->
  chunking_inv cs co (processed ++ [x]) (large_step cs co a x).
Proof.
  intros Hinv.
  destruct (header_cut a x cs) eqn:Hh.
  - rewrite large_step_header_cut by exact Hh.
    replace (len x + 1) with (lines_size [] + (len x + 1)) by reflexivity.
    apply (inv_cut cs co processed a x (current_chunk a) []); auto.
    + unfold header_cut in Hh. apply andb_true_iff in Hh as [Hh _].
      apply andb_true_iff in Hh as [_ Hh]. apply nonempty_true, Hh.
    + rewrite app_nil_r. reflexivity.
    + cbn. lia.
  - destruct (size_cut a x cs) eqn:Hcut.
    + rewrite large_step_size_cut by assumption.
      pose proof (size_cut_nonempty _ _ _ Hcut) as Hne.
      destruct (overlap_large_spec (current_chunk a) co Hne)
        as (p & w & Hw & Hsplit & Hbound & _).
      rewrite Hw. cbn [fst snd]. eapply inv_cut; eauto.
    + rewrite large_step_no_cut by assumption. apply inv_push; assumption.
Qed.

Lemma inv_acc0 cs co : chunking_inv cs co [] acc0.
Proof.
  split; [exists []; reflexivity|]. split; [reflexivity|].
  split; [left; reflexivity | constructor].
Qed.

Lemma fold_inv cs co (step : acc -> string -> acc) :
  (forall processed a x,
     chunking_inv cs co processed a ->
     chunking_inv cs co (processed ++ [x]) (step a x)) ->
  forall lines processed a,
    chunking_inv cs co processed a ->
    chunking_inv cs co (processed ++ lines) (fold_left step lines a).
Proof.
  intros Hstep. induction lines as [|x lines IH]; intros processed a Hinv.
  - rewrite app_nil_r. exact Hinv.
  - cbn [fold_left].
    replace (processed ++ x :: lines) with ((processed ++ [x]) ++ lines)
      by (rewrite <- app_assoc; reflexivity).
    apply IH, Hstep, Hinv.
Qed.

Lemma flush_inv cs co lines a :
  chunking_inv cs co lines a ->
  Forall (chunk_of_lines cs co lines) (flush a).
Proof.
  intros ((p & Hp) & _ & Hcur & Hchunks). unfold flush.
  destruct (nonempty (current_chunk a)) eqn:E; [|exact Hchunks].
  apply nonempty_true in E.
  apply Forall_app. split; [exact Hchunks|].
  constructor; [|constructor].
  exists (current_chunk a). split; [exact E|]. split.
  - exists p, []. rewrite app_nil_r. exact Hp.
  - split; [|reflexivity]. destruct Hcur; [contradiction|assumption].
Qed.

Lemma simple_split_chunks_of_lines content cs co :
  Forall (chunk_of_lines cs co (split_lines content))
    (_simple_split_chunks content cs co).
Proof.
  unfold _simple_split_chunks. apply flush_inv.
  apply (fold_inv cs co _ (simple_step_inv cs co) _ [] acc0), inv_acc0.
Qed.

Lemma split_large_chunks_of_lines section_lines cs co :
  Forall (chunk_of_lines cs co section_lines)
    (_split_large_section section_lines cs co).
Proof.
  unfold _split_large_section. apply flush_inv.
  apply (fold_inv cs co _ (large_step_inv cs co) _ [] acc0), inv_acc0.
Qed.

(** ** What [split_into_chunks] returns *)

Lemma chunk_of_lines_run cs co lines c :
  chunk_of_lines cs co lines c ->
  exists run, run_of run lines /\ c = join_lines run.
Proof. intros (run & _ & Hrun & _ & ->). eauto. Qed.

Lemma sections_runs lines cs co : forall hs,
  Forall (fun c => exists run, run_of run lines /\ c = join_lines run)
    (sections lines hs cs co).
Proof.
  induction hs as [|h hs IH]; cbn [sections]; [constructor|].
  apply Forall_app. split; [|exact IH].
  destruct (F64.int_gt_scaled _ cs F64.f1_5).
  - eapply List.Forall_impl;
      [|apply (split_large_chunks_of_lines _ cs co)].
    intros c Hc. apply chunk_of_lines_run in Hc as (run & Hrun & ->).
    exists run. split; [|reflexivity].
    eapply run_of_trans; [exact Hrun|]. apply run_of_firstn_skipn.
  - constructor; [|constructor]. eexists. split; [|reflexivity].
    apply run_of_firstn_skipn.
Qed.

Lemma split_into_chunks_runs content cs co :
  Forall
    (fun c => exists run, run_of run (split_lines content) /\ c = join_lines run)
    (split_into_chunks content cs co).
Proof.
  unfold split_into_chunks.
  destruct (nonempty (scan_headers 0 (split_lines content))).
  - apply sections_runs.
  - eapply List.Forall_impl; [|apply simple_split_chunks_of_lines].
    intros c. apply chunk_of_lines_run.
Qed.

Lemma len_join_lines run :
  run <> [] -> len (join_lines run) = lines_size run - 1.
Proof.
  induction run as [|l run IH]; [congruence|]. intros _.
  destruct run as [|l' run].
  - unfold lines_size; cbn. lia.
  - rewrite join_lines_cons by discriminate.
    unfold len in *. rewrite length_append. cbn [String.length].
    specialize (IH ltac:(discriminate)).
    change (lines_size (l :: l' :: run))
      with (len l + 1 + lines_size (l' :: run)).
    unfold len. lia.
Qed.

(** The size-based loops never emit a chunk over the budget: every chunk of
    [_simple_split_chunks] and of [_split_large_section] is a run of input
    lines that stand next to each other, not empty, whose text is shorter
    than [chunk_size], unless it is a window of at most [chunk_overlap]
    followed by a single line. *)
Theorem split_chunks_within_budget cs co content section_lines :
  Forall
    (fun c =>
       exists run,
         run <> [] /\ run_of run (split_lines content) /\ c = join_lines run
         /\ (len c < cs
             \/ exists w l, run = w ++ [l] /\ lines_size w <= Z.max 0 co))
    (_simple_split_chunks content cs co)
  /\ Forall
       (fun c =>
          exists run,
            run <> [] /\ run_of run section_lines /\ c = join_lines run
            /\ (len c < cs
                \/ exists w l, run = w ++ [l] /\ lines_size w <= Z.max 0 co))
       (_split_large_section section_lines cs co).
Proof.
  assert (H : forall lines c,
            chunk_of_lines cs co lines c ->
            exists run,
              run <> [] /\ run_of run lines /\ c = join_lines run
              /\ (len c < cs
                  \/ exists w l,
                       run = w ++ [l] /\ lines_size w <= Z.max 0 co)).
  { intros lines c (run & Hne & Hrun & Hb & ->). exists run.
    repeat split; auto. destruct Hb as [Hb|Hb]; [left|right; exact Hb].
    rewrite len_join_lines by exact Hne. lia. }
  split.
  - eapply List.Forall_impl; [apply H|apply simple_split_chunks_of_lines].
  - eapply List.Forall_impl; [apply H|apply split_large_chunks_of_lines].
Qed.

Lemma split_chunk_occurs content cs co c :
  In c (split_into_chunks content cs co) -> occurs_in c content.
Proof.
  intros Hin. pose proof (split_into_chunks_runs content cs co) as H.
  rewrite List.Forall_forall in H. destruct (H c Hin) as (run & Hrun & ->).
  rewrite <- (join_split_lines content). apply run_of_occurs, Hrun.
Qed.

(** Every chunk of [split_into_chunks] occurs in the text: it is a run of
    lines of the text that stand next to each other, joined by newlines. *)
Theorem chunks_occur_in_content content cs co c :
  In c (split_into_chunks content cs co) ->
  (exists run, run_of run (split_lines content) /\ c = join_lines run)
  /\ occurs_in c content.
Proof.
  intros Hin. pose proof (split_into_chunks_runs content cs co) as H.
  rewrite List.Forall_forall in H. destruct (H c Hin) as (run & Hrun & ->).
  split; [eauto|].
  rewrite <- (join_split_lines content). apply run_of_occurs, Hrun.
Qed.

Lemma chunks_occur_in_content_witness :
  In "## B

content b" (split_into_chunks (doc_content Fixtures.two_headers) 100 20)
  /\ occurs_in "## B

content b" (doc_content Fixtures.two_headers).
Proof.
  assert (H : In "## B

content b" (split_into_chunks (doc_content Fixtures.two_headers) 100 20))
    by (vm_compute; right; left; reflexivity).
  split; [exact H|].
  exact (proj2 (chunks_occur_in_content _ _ _ _ H)).
Defined.

(** ** What [create_chunks] makes of the chunks *)

Lemma is_blank_nonempty t : is_blank t = false -> 0 < len t.
Proof.
  destruct t; [vm_compute; discriminate|]. intros _. unfold len. cbn. lia.
Qed.

Lemma create_loop_made document : forall ts i acc c,
  In c (create_loop document i ts acc) ->
  In c acc
  \/ exists j t n,
       In t ts /\ is_blank t = false /\ c = make_chunk document j t n.
Proof.
  induction ts as [|t ts IH]; intros i acc c H; cbn [create_loop] in H; [auto|].
  destruct (is_blank t) eqn:E.
  - destruct (IH _ _ _ H) as [Hin|(j & t' & n & Ht & Hb & ->)]; [auto|].
    right. exists j, t', n. split; [right; exact Ht|auto].
  - destruct (IH _ _ _ H) as [Hin|(j & t' & n & Ht & Hb & ->)].
    + apply in_app_or in Hin as [Hin|[<-|[]]]; [auto|].
      right. exists i, t, (List.length acc). split; [left; reflexivity|auto].
    + right. exists j, t', n. split; [right; exact Ht|auto].
Qed.

(** For every chunk of [create_chunks], the content is found in the
    document: [start_pos] is not negative, [start_pos < end_pos], [end_pos]
    is within the document, and the document sliced from [start_pos] to
    [end_pos] is the content of the chunk, whether or not the content
    occurs more than once. *)
Theorem chunk_positions_always_slice settings document c :
  In c (create_chunks settings document) ->
  0 <= start_pos c < end_pos c
  /\ end_pos c <= len (doc_content document)
  /\ slice (doc_content document) (start_pos c) (end_pos c) = content c.
Proof.
  intros Hin. unfold create_chunks in Hin.
  apply create_loop_made in Hin as [[]|(j & t & n & Ht & Hb & ->)].
  unfold make_chunk; cbn [start_pos end_pos content].
  apply split_chunk_occurs in Ht as Hocc.
  apply occurs_in_find in Hocc as [i Hi].
  pose proof (slice_at_find _ _ _ Hi) as Hslice.
  destruct (find_index_spec _ _ _ Hi) as [_ Hlen].
  apply is_blank_nonempty in Hb.
  unfold find in *. rewrite Hi in *. unfold len in *.
  split; [lia|]. split; [lia|]. exact Hslice.
Qed.

Lemma chunk_positions_always_slice_witness :
  In Fixtures.chunk_B (create_chunks default_settings Fixtures.two_headers)
  /\ 0 <= start_pos Fixtures.chunk_B < end_pos Fixtures.chunk_B.
Proof.
  assert (H : In Fixtures.chunk_B
                (create_chunks default_settings Fixtures.two_headers))
    by (vm_compute; right; left; reflexivity).
  split; [exact H|].
  exact (proj1 (chunk_positions_always_slice _ _ _ H)).
Defined.

Lemma create_loop_numbered document : forall ts i acc,
  create_loop document i ts acc
  = acc ++ numbered document (List.length acc) (kept i ts).
Proof.
  induction ts as [|t ts IH]; intros i acc; cbn [create_loop kept].
  - cbn. rewrite app_nil_r. reflexivity.
  - destruct (is_blank t); rewrite IH; [reflexivity|].
    rewrite length_app, <- app_assoc. cbn [List.length app numbered].
    replace (List.length acc + 1)%nat with (S (List.length acc)) by lia.
    reflexivity.
Qed.

Lemma kept_texts ts : forall i,
  List.map snd (kept i ts) = List.filter (fun t => negb (is_blank t)) ts.
Proof.
  induction ts as [|t ts IH]; intros i; cbn [kept List.filter]; [reflexivity|].
  destruct (is_blank t); cbn; rewrite IH; reflexivity.
Qed.

Lemma kept_positions ts : forall i,
  Forall (fun p => (i <= fst p)%nat) (kept i ts)
  /\ List.NoDup (List.map fst (kept i ts)).
Proof.
  induction ts as [|t ts IH]; intros i; cbn [kept].
  - split; constructor.
  - destruct (IH (S i)) as [Hge Hnd].
    assert (Hge' : Forall (fun p => (i <= fst p)%nat) (kept (S i) ts))
      by (eapply List.Forall_impl; [|exact Hge]; cbn; lia).
    destruct (is_blank t); cbn [app]; [auto|]. split.
    + constructor; [cbn; lia | exact Hge'].
    + cbn. constructor; [|exact Hnd].
      intros Hin. apply in_map_iff in Hin as (p & Hp & Hin).
      rewrite List.Forall_forall in Hge. apply Hge in Hin. lia.
Qed.

Lemma numbered_fields document : forall l n,
  List.map content (numbered document n l) = List.map snd l
  /\ List.map chunk_index (numbered document n l) = seq n (List.length l)
  /\ List.map chunk_id (numbered document n l)
     = List.map
         (fun p =>
            String.append (doc_id document)
              (String.append "_chunk_" (str_of_nat (fst p))))
         l
  /\ Forall
       (fun c =>
          document_id c = doc_id document
          /\ language c = doc_language document
          /\ category c = doc_category document)
       (numbered document n l).
Proof.
  induction l as [|[j t] l IH]; intros n; cbn [numbered List.map seq List.length].
  - repeat split; constructor.
  - destruct (IH (S n)) as (Hc & Hi & Hid & Hall).
    rewrite Hc, Hi, Hid. repeat split; auto.
Qed.

(** [create_chunks] keeps the texts of [split_into_chunks] that are not
    blank, in order; numbers the chunks it makes 0, 1, 2, ... without gaps,
    whatever it skipped; and copies the id, language and category of the
    document into each. *)
Theorem create_chunks_numbered settings document :
  List.map content (create_chunks settings document)
  = List.filter (fun t => negb (is_blank t))
      (split_into_chunks (doc_content document) (chunk_size settings)
         (chunk_overlap settings))
  /\ List.map chunk_index (create_chunks settings document)
     = seq 0 (List.length (create_chunks settings document))
  /\ Forall
       (fun c =>
          document_id c = doc_id document
          /\ language c = doc_language document
          /\ category c = doc_category document)
       (create_chunks settings document).
Proof.
  unfold create_chunks. rewrite create_loop_numbered. cbn [app List.length].
  destruct (numbered_fields document
              (kept 0 (split_into_chunks (doc_content document)
                         (chunk_size settings) (chunk_overlap settings))) 0)
    as (Hc & Hi & _ & Hall).
  rewrite Hc, Hi, kept_texts. repeat split; [|exact Hall].
  f_equal. rewrite <- (length_map chunk_index), Hi, length_seq. reflexivity.
Qed.

(** ** Chunk ids *)

Lemma list_ascii_append (a b : string) :
  list_ascii_of_string (String.append a b)
  = list_ascii_of_string a ++ list_ascii_of_string b.
Proof.
  induction a as [|x a IH]; rewrite ?append_nil_l, ?append_cons;
    [reflexivity|]. cbn [list_ascii_of_string app]. rewrite IH. reflexivity.
Qed.

Lemma list_ascii_inj (a b : string) :
  list_ascii_of_string a = list_ascii_of_string b -> a = b.
Proof.
  intros H. rewrite <- (string_of_list_ascii_of_string a),
    <- (string_of_list_ascii_of_string b), H. reflexivity.
Qed.

Lemma digits_no_underscore (d : Decimal.uint) :
  ~ In "_"%char (list_ascii_of_string (NilEmpty.string_of_uint d)).
Proof.
  induction d; cbn; intros H;
    [exact H | destruct H as [H|H]; [discriminate | auto] ..].
Qed.

Lemma str_of_nat_inj n m : str_of_nat n = str_of_nat m -> n = m.
Proof.
  unfold str_of_nat. intros H. apply DecimalNat.Unsigned.to_uint_inj.
  apply (f_equal NilEmpty.uint_of_string) in H.
  rewrite !NilEmpty.usu in H. congruence.
Qed.

Lemma split_at_last {A} (c : A) : forall x1 x2 n1 n2,
  x1 ++ c :: n1 = x2 ++ c :: n2 -> ~ In c n1 -> ~ In c n2 ->
  x1 = x2 /\ n1 = n2.
Proof.
  induction x1 as [|a x1 IH]; intros [|b x2] n1 n2 H H1 H2; cbn in H.
  - injection H as ->. auto.
  - injection H as <- ->. exfalso. apply H1, in_or_app. right. left. reflexivity.
  - injection H as -> <-. exfalso. apply H2, in_or_app. right. left. reflexivity.
  - injection H as -> H. destruct (IH _ _ _ H H1 H2) as [-> ->]. auto.
Qed.

(** A chunk id determines the document id and the position it is made of. *)
Lemma chunk_id_inj d1 d2 j1 j2 :
  String.append d1 (String.append "_chunk_" (str_of_nat j1))
  = String.append d2 (String.append "_chunk_" (str_of_nat j2)) ->
  d1 = d2 /\ j1 = j2.
Proof.
  intros H. apply (f_equal list_ascii_of_string) in H.
  rewrite !list_ascii_append in H.
  change (list_ascii_of_string "_chunk_")
    with (list_ascii_of_string "_chunk" ++ ["_"%char]) in H.
  rewrite <- !app_assoc in H. cbn [app] in H.
  rewrite !(app_assoc (list_ascii_of_string _)) in H.
  apply split_at_last in H as [H1 H2];
    try (unfold str_of_nat; apply digits_no_underscore).
  split.
  - apply app_inv_tail in H1. apply list_ascii_inj, H1.
  - apply str_of_nat_inj, list_ascii_inj, H2.
Qed.

Lemma create_chunks_ids settings document :
  exists l,
    List.NoDup (List.map fst l)
    /\ List.map chunk_id (create_chunks settings document)
       = List.map
           (fun p : nat * string =>
              String.append (doc_id document)
                (String.append "_chunk_" (str_of_nat (fst p))))
           l.
Proof.
  unfold create_chunks. rewrite create_loop_numbered. cbn [app List.length].
  exists (kept 0 (split_into_chunks (doc_content document)
                    (chunk_size settings) (chunk_overlap settings))).
  split; [apply kept_positions|].
  apply (numbered_fields document _ 0).
Qed.

Lemma create_all_chunks_cons settings documents : forall acc,
  fold_left
    (fun all_chunks document => all_chunks ++ create_chunks settings document)
    documents acc
  = acc ++ List.concat (List.map (create_chunks settings) documents).
Proof.
  induction documents as [|d documents IH]; intros acc; cbn.
  - rewrite app_nil_r. reflexivity.
  - rewrite IH, <- app_assoc. reflexivity.
Qed.

(** The chunk ids [create_chunks] gives within a document are pairwise
    distinct, and so are those [create_all_chunks] gives over documents
    whose ids are pairwise distinct. *)
Theorem chunk_ids_distinct settings documents :
  List.NoDup (List.map doc_id documents) ->
  (forall document,
     List.NoDup (List.map chunk_id (create_chunks settings document)))
  /\ List.NoDup
       (List.map chunk_id (Loader.create_all_chunks settings documents)).
Proof.
  intros Hdocs.
  assert (Hone : forall document,
            List.NoDup (List.map chunk_id (create_chunks settings document))).
  { intros document.
    destruct (create_chunks_ids settings document) as (l & Hnd & ->).
    clear Hdocs. induction l as [|p l IH]; cbn; [constructor|].
    cbn in Hnd. apply List.NoDup_cons_iff in Hnd as [Hp Hnd].
    constructor; [|apply IH, Hnd].
    intros Hin. apply in_map_iff in Hin as (q & Hq & Hin).
    apply chunk_id_inj in Hq as [_ Hq].
    apply Hp. rewrite <- Hq. apply in_map, Hin. }
  split; [exact Hone|].
  unfold Loader.create_all_chunks. rewrite create_all_chunks_cons.
  cbn [app]. induction documents as [|d documents IH]; cbn; [constructor|].
  cbn in Hdocs. apply List.NoDup_cons_iff in Hdocs as [Hd Hdocs].
  rewrite List.map_app. apply NoDup_ListNoDup, NoDup_app.
  split; [apply NoDup_ListNoDup, Hone|].
  split; [|apply NoDup_ListNoDup, IH, Hdocs].
  intros id Hid Hid'. apply list_elem_of_In in Hid, Hid'.
  destruct (create_chunks_ids settings d) as (l & _ & Hl).
  rewrite Hl in Hid. apply in_map_iff in Hid as (p & <- & _).
  apply in_map_iff in Hid' as (c & Hc & Hin).
  apply in_concat in Hin as (cs & Hcs & Hin).
  apply in_map_iff in Hcs as (d' & <- & Hd').
  destruct (create_chunks_ids settings d') as (l' & _ & Hl').
  assert (Hin' : In (chunk_id c) (List.map chunk_id (create_chunks settings d')))
    by (apply in_map, Hin).
  rewrite Hl', Hc in Hin'. apply in_map_iff in Hin' as (q & Hq & _).
  apply chunk_id_inj in Hq as [Hq _].
  apply Hd. rewrite <- Hq. apply in_map, Hd'.
Qed.

Lemma chunk_ids_distinct_witness :
  List.NoDup (List.map doc_id [Fixtures.two_headers])
  /\ List.NoDup
       (List.map chunk_id
          (Loader.create_all_chunks default_settings [Fixtures.two_headers])).
Proof.
  assert (H : List.NoDup (List.map doc_id [Fixtures.two_headers]))
    by (repeat constructor; intros []).
  split; [exact H|].
  exact (proj2 (chunk_ids_distinct default_settings [Fixtures.two_headers] H)).
Defined.

(** ** Splitting without overlap *)

Lemma overlap_loop_nonpositive current co idxs :
  co <= 0 -> overlap_loop current co idxs [] 0 = ([], 0).
Proof.
  intros Hco. destruct idxs as [|i idxs]; cbn [overlap_loop]; [reflexivity|].
  pose proof (len_nonneg (nth (Z.to_nat i) current EmptyString)).
  destruct (Z.leb_spec (0 + len (nth (Z.to_nat i) current EmptyString) + 1) co);
    [lia | reflexivity].
Qed.

Lemma join_concat runs :
  Forall (fun run : list string => run <> []) runs ->
  join_lines (List.map join_lines runs) = join_lines (List.concat runs).
Proof.
  induction 1 as [|r runs Hr Hruns IH]; [reflexivity|].
  cbn [List.map List.concat]. destruct runs as [|r' runs].
  - cbn. rewrite app_nil_r. reflexivity.
  - rewrite join_lines_cons by discriminate.
    rewrite join_lines_app; [rewrite IH; reflexivity | exact Hr |].
    apply Forall_cons in Hruns as [Hr' _]. cbn [List.concat].
    destruct r'; [congruence | discriminate].
Qed.

Lemma partition_push processed a x :
  partition_inv processed a -> partition_inv (processed ++ [x]) (push_line a x).
Proof.
  intros (runs & Hc & Hne & ->). exists runs. unfold push_line; cbn.
  rewrite <- app_assoc. auto.
Qed.

Lemma partition_cut processed a x :
  partition_inv processed a -> current_chunk a <> [] ->
  partition_inv (processed ++ [x])
    (Acc (chunks a ++ [join_lines (current_chunk a)]) [x] (len x + 1)).
Proof.
  intros (runs & Hc & Hne & ->) Hcur. exists (runs ++ [current_chunk a]).
  cbn [chunks current_chunk]. split; [|split].
  - rewrite List.map_app, Hc. reflexivity.
  - apply Forall_app. auto.
  - rewrite concat_app. cbn. rewrite app_nil_r. reflexivity.
Qed.

Lemma partition_flush lines a :
  partition_inv lines a -> join_lines (flush a) = join_lines lines.
Proof.
  intros (runs & Hc & Hne & ->). unfold flush.
  destruct (current_chunk a) as [|l cc] eqn:E; cbn [nonempty].
  - rewrite app_nil_r, Hc. apply join_concat, Hne.
  - rewrite Hc.
    change [join_lines (l :: cc)] with (List.map join_lines [l :: cc]).
    rewrite <- List.map_app, join_concat.
    + rewrite concat_app. cbn. rewrite app_nil_r. reflexivity.
    + apply Forall_app. split; [exact Hne|]. repeat constructor. discriminate.
Qed.

Lemma partition_fold (step : acc -> string -> acc) :
  (forall processed a x,
     partition_inv processed a -> partition_inv (processed ++ [x]) (step a x)) ->
  forall lines processed a,
    partition_inv processed a ->
    partition_inv (processed ++ lines) (fold_left step lines a).
Proof.
  intros Hstep. induction lines as [|x lines IH]; intros processed a Hinv.
  - rewrite app_nil_r. exact Hinv.
  - cbn [fold_left].
    replace (processed ++ x :: lines) with ((processed ++ [x]) ++ lines)
      by (rewrite <- app_assoc; reflexivity).
    apply IH, Hstep, Hinv.
Qed.

Lemma partition_acc0 : partition_inv [] acc0.
Proof. exists []. repeat split. constructor. Qed.

Lemma partition_run (step : acc -> string -> acc) lines :
  (forall processed a x,
     partition_inv processed a -> partition_inv (processed ++ [x]) (step a x)) ->
  partition_inv lines (fold_left step lines acc0).
Proof.
  intros Hstep. apply (partition_fold step Hstep lines [] acc0 partition_acc0).
Qed.

(** With a [chunk_overlap] of zero (or less) nothing is lost and nothing is
    repeated: the chunks of [_simple_split_chunks], joined by newlines, are
    the text, and those of [_split_large_section] are the lines of the
    section. *)
Theorem split_without_overlap_joins_back cs co content section_lines :
  co <= 0 ->
  join_lines (_simple_split_chunks content cs co) = content
  /\ join_lines (_split_large_section section_lines cs co)
     = join_lines section_lines.
Proof.
  intros Hco. split.
  - rewrite <- (join_split_lines content) at 2.
    unfold _simple_split_chunks. apply partition_flush.
    apply partition_run.
    intros processed a x Hinv. unfold simple_step.
    destruct (size_cut a x cs) eqn:Hcut; [|apply partition_push, Hinv].
    unfold cut_with, push_line, overlap_simple;
      cbn [chunks current_chunk current_size].
    rewrite overlap_loop_nonpositive by exact Hco. cbn [fst snd app].
    apply partition_cut; eauto using size_cut_nonempty.
  - unfold _split_large_section. apply partition_flush.
    apply partition_run.
    intros processed a x Hinv.
    destruct (header_cut a x cs) eqn:Hh.
    + rewrite large_step_header_cut by exact Hh.
      apply partition_cut; [exact Hinv|].
      unfold header_cut in Hh. apply andb_true_iff in Hh as [Hh _].
      apply andb_true_iff in Hh as [_ Hh]. apply nonempty_true, Hh.
    + destruct (size_cut a x cs) eqn:Hcut.
      * rewrite large_step_size_cut by assumption. unfold overlap_large.
        rewrite overlap_loop_nonpositive by exact Hco. cbn [fst snd app].
        apply partition_cut; eauto using size_cut_nonempty.
      * rewrite large_step_no_cut by assumption. apply partition_push, Hinv.
Qed.

Lemma split_without_overlap_joins_back_witness :
  0 <= 0
  /\ join_lines (_simple_split_chunks "aaaa
bb
cc
dd
eeee" 8 0) = "aaaa
bb
cc
dd
eeee".
Proof.
  split; [lia|].
  apply (split_without_overlap_joins_back 8 0 "aaaa
bb
cc
dd
eeee" []). lia.
Defined.

(** ** No line is dropped *)

(** A step of either loop reads the line into the chunk in hand, or emits
    the chunk in hand first and starts the next one with some window. *)
Lemma simple_step_shape cs co a x :
  simple_step cs co a x = push_line a x
  \/ exists w sz,
       simple_step cs co a x
       = Acc (chunks a ++ [join_lines (current_chunk a)]) (w ++ [x]) sz.
Proof.
  unfold simple_step. destruct (size_cut a x cs); [right|left; reflexivity].
  unfold cut_with, push_line; cbn. eauto.
Qed.

Lemma large_step_shape cs co a x :
  large_step cs co a x = push_line a x
  \/ exists w sz,
       large_step cs co a x
       = Acc (chunks a ++ [join_lines (current_chunk a)]) (w ++ [x]) sz.
Proof.
  destruct (header_cut a x cs) eqn:Hh.
  - right. exists [], (len x + 1). apply large_step_header_cut, Hh.
  - destruct (size_cut a x cs) eqn:Hs.
    + right. rewrite large_step_size_cut by assumption. eauto.
    + left. apply large_step_no_cut; assumption.
Qed.

Lemma covered_step (step : acc -> string -> acc) a x :
  (step a x = push_line a x
   \/ exists w sz,
        step a x
        = Acc (chunks a ++ [join_lines (current_chunk a)]) (w ++ [x]) sz) ->
  covered (step a x) x
  /\ forall l, covered a l -> covered (step a x) l.
Proof.
  intros [->|(w & sz & ->)]; unfold covered, push_line;
    cbn [chunks current_chunk].
  - split; [left; apply in_or_app; right; left; reflexivity|].
    intros l [H|H]; [left; apply in_or_app; auto | right; exact H].
  - split; [left; apply in_or_app; right; left; reflexivity|].
    intros l [H|(run & Hl & Hrun)]; right.
    + exists (current_chunk a). split; [exact H|].
      apply in_or_app. right. left. reflexivity.
    + exists run. split; [exact Hl|]. apply in_or_app. auto.
Qed.

Lemma covered_fold (step : acc -> string -> acc) :
  (forall a x,
     step a x = push_line a x
     \/ exists w sz,
          step a x
          = Acc (chunks a ++ [join_lines (current_chunk a)]) (w ++ [x]) sz) ->
  forall lines a l,
    In l lines \/ covered a l -> covered (fold_left step lines a) l.
Proof.
  intros Hshape. induction lines as [|x lines IH]; intros a l H;
    cbn [fold_left].
  - destruct H as [[]|H]; exact H.
  - destruct (covered_step step a x (Hshape a x)) as [Hx Hkeep].
    apply IH. destruct H as [[<-|H]|H]; auto.
Qed.

Lemma covered_flush a l : covered a l -> line_in_chunks (flush a) l.
Proof.
  unfold covered, flush, line_in_chunks.
  intros [H|(run & Hl & Hrun)].
  - destruct (current_chunk a) as [|c cc] eqn:E; [contradiction|].
    cbn [nonempty]. exists (c :: cc). split; [exact H|].
    apply in_or_app. right. left. reflexivity.
  - exists run. split; [exact Hl|].
    destruct (nonempty (current_chunk a)); [apply in_or_app; auto | exact Hrun].
Qed.

Lemma large_section_covers cs co section_lines l :
  In l section_lines ->
  line_in_chunks (_split_large_section section_lines cs co) l.
Proof.
  intros Hl. apply covered_flush.
  apply (covered_fold _ (large_step_shape cs co)). auto.
Qed.

(** ** Texts with headers *)

Lemma scan_headers_spec : forall ls i h,
  In h (scan_headers i ls) ->
  (i <= Chunker.index h < i + List.length ls)%nat
  /\ nth_error ls (Chunker.index h - i) = Some (line h).
Proof.
  induction ls as [|l ls IH]; intros i h H; cbn [scan_headers] in H;
    [contradiction|].
  apply in_app_or in H as [H|H].
  - destruct (is_header l); [|contradiction]. destruct H as [<-|[]].
    cbn. rewrite Nat.sub_diag. split; [lia | reflexivity].
  - apply IH in H as [Hi Hn]. cbn [List.length]. split; [lia|].
    replace (Chunker.index h - i)%nat with (S (Chunker.index h - S i)) by lia.
    exact Hn.
Qed.

Lemma scan_headers_sorted : forall ls i,
  StronglySorted (fun h h' => (Chunker.index h < Chunker.index h')%nat)
    (scan_headers i ls).
Proof.
  induction ls as [|l ls IH]; intros i; cbn [scan_headers]; [constructor|].
  destruct (is_header l); cbn [app]; [|apply IH].
  constructor; [apply IH|]. apply List.Forall_forall. intros h Hh.
  apply scan_headers_spec in Hh. cbn. lia.
Qed.

Lemma scan_headers_app : forall a b i,
  scan_headers i (a ++ b)
  = scan_headers i a ++ scan_headers (i + List.length a) b.
Proof.
  induction a as [|l a IH]; intros b i; cbn [app scan_headers List.length].
  - rewrite Nat.add_0_r. reflexivity.
  - rewrite IH, <- app_assoc.
    replace (S i + List.length a)%nat with (i + S (List.length a))%nat by lia.
    reflexivity.
Qed.

Lemma scan_headers_none : forall a i,
  Forall (fun l => is_header l = false) a -> scan_headers i a = [].
Proof.
  induction a as [|l a IH]; intros i H; cbn [scan_headers]; [reflexivity|].
  apply Forall_cons in H as [-> H]. apply IH, H.
Qed.

(** The chunks of one header: its section, or the pieces of its section. *)
Lemma sections_cons lines h later cs co :
  exists section_lines,
    section_lines
    = firstn (section_end (List.length lines) h later - Chunker.index h)
        (skipn (Chunker.index h) lines)
    /\ sections lines (h :: later) cs co
       = (if F64.int_gt_scaled (len (join_lines section_lines)) cs F64.f1_5
          then _split_large_section section_lines cs co
          else [join_lines section_lines])
         ++ sections lines later cs co.
Proof. eexists. split; reflexivity. Qed.

Lemma sections_app lines cs co : forall before hs,
  exists pre,
    sections lines (before ++ hs) cs co = pre ++ sections lines hs cs co.
Proof.
  induction before as [|h before IH]; intros hs.
  - exists []. reflexivity.
  - destruct (IH hs) as [pre Hpre]. cbn [app].
    destruct (sections_cons lines h (before ++ hs) cs co) as (sl & _ & Heq).
    rewrite Heq, Hpre, app_assoc. eauto.
Qed.

Lemma section_end_after n h later j :
  (j < n)%nat ->
  Forall (fun h' => (j < Chunker.index h')%nat) later ->
  (j < section_end n h later)%nat.
Proof.
  intros Hn Hlater. unfold section_end.
  destruct (List.find _ later) as [h'|] eqn:E; [|exact Hn].
  apply List.find_some in E as [E _].
  rewrite List.Forall_forall in Hlater. apply Hlater, E.
Qed.

Lemma section_end_le n h later :
  Forall (fun h' => (Chunker.index h' < n)%nat) later ->
  (section_end n h later <= n)%nat.
Proof.
  intros Hlater. unfold section_end.
  destruct (List.find _ later) as [h'|] eqn:E; [|lia].
  apply List.find_some in E as [E _].
  rewrite List.Forall_forall in Hlater. apply Hlater in E. lia.
Qed.

Lemma large_section_first_chunk l rest cs co :
  exists tail more,
    _split_large_section (l :: rest) cs co = join_lines (l :: tail) :: more.
Proof.
  unfold _split_large_section. cbn [fold_left]. rewrite large_step_acc0.
  apply large_run_first_chunk.
Qed.

(** The last header at or before the line [j]. *)
Lemma header_before j : forall hs,
  StronglySorted (fun h h' => (Chunker.index h < Chunker.index h')%nat) hs ->
  Exists (fun h => (Chunker.index h <= j)%nat) hs ->
  exists before h later,
    hs = before ++ h :: later
    /\ (Chunker.index h <= j)%nat
    /\ Forall (fun h' => (j < Chunker.index h')%nat) later.
Proof.
  induction hs as [|h hs IH]; intros Hs Hex; [inversion Hex|].
  apply StronglySorted_inv in Hs as [Hs Hh].
  destruct (decide (Exists (fun h => (Chunker.index h <= j)%nat) hs))
    as [Hin|Hout].
  - destruct (IH Hs Hin) as (before & h' & later & -> & Hle & Hlater).
    exists (h :: before), h', later. auto.
  - exists [], h, hs. split; [reflexivity|].
    split.
    + inversion Hex; subst; [assumption | contradiction].
    + apply List.Forall_Exists_neg in Hout.
      eapply List.Forall_impl; [|exact Hout]. cbn. lia.
Qed.

Lemma section_chunks_cover lines h later cs co j l :
  nth_error lines j = Some l ->
  (Chunker.index h <= j)%nat ->
  Forall (fun h' => (j < Chunker.index h')%nat) later ->
  line_in_chunks (sections lines (h :: later) cs co) l.
Proof.
  intros Hnth Hle Hlater.
  assert (Hj : (j < List.length lines)%nat)
    by (apply nth_error_Some; congruence).
  pose proof (section_end_after _ h later j Hj Hlater) as Hend.
  destruct (sections_cons lines h later cs co) as (sl & Hsl & ->).
  assert (Hin : In l sl).
  { apply (nth_error_In _ (j - Chunker.index h)).
    rewrite Hsl, nth_error_firstn, nth_error_skipn.
    replace (Chunker.index h + (j - Chunker.index h))%nat with j by lia.
    destruct (Nat.ltb_spec (j - Chunker.index h)
                (section_end (List.length lines) h later - Chunker.index h));
      [exact Hnth | lia]. }
  destruct (F64.int_gt_scaled _ cs F64.f1_5).
  - destruct (large_section_covers cs co sl l Hin) as (run & Hl & Hrun).
    exists run. split; [exact Hl|]. apply in_or_app. auto.
  - exists sl. split; [exact Hin|]. left. reflexivity.
Qed.

Lemma sections_runs_from lines cs co i0 : forall hs,
  Forall (fun h => (i0 <= Chunker.index h)%nat) hs ->
  Forall
    (fun c => exists run, run_of run (skipn i0 lines) /\ c = join_lines run)
    (sections lines hs cs co).
Proof.
  induction hs as [|h hs IH]; intros Hhs; cbn [sections]; [constructor|].
  apply Forall_cons in Hhs as [Hh Hhs].
  apply Forall_app. split; [|apply IH, Hhs].
  assert (Hrun : forall n,
            run_of (firstn n (skipn (Chunker.index h) lines)) (skipn i0 lines)).
  { intros n. replace (Chunker.index h) with ((Chunker.index h - i0) + i0)%nat
      by lia.
    rewrite <- skipn_skipn. apply run_of_firstn_skipn. }
  destruct (F64.int_gt_scaled _ cs F64.f1_5).
  - eapply List.Forall_impl;
      [|apply (split_large_chunks_of_lines _ cs co)].
    intros c Hc. apply chunk_of_lines_run in Hc as (run & Hr & ->).
    exists run. split; [|reflexivity].
    eapply run_of_trans; [exact Hr|]. apply Hrun.
  - constructor; [|constructor]. eexists. split; [|reflexivity]. apply Hrun.
Qed.

End CoverageFacts.

(* ===================================================================== *)
(** * The vector index: slots and the id map *)
(* ===================================================================== *)

Module IndexFacts.

Import Py Store Notions MoreNotions Fixtures StoreFacts.

Lemma update_mapping_lookup id : forall chunks m start,
  update_mapping m start chunks !! id
  = match last_slot_from start id chunks with
    | Some j => Some j
    | None => m !! id
    end.
Proof.
  induction chunks as [|c chunks IH]; intros m start;
    cbn [update_mapping last_slot_from]; [reflexivity|].
  rewrite IH. destruct (last_slot_from (S start) id chunks); [reflexivity|].
  destruct (String.eqb_spec (chunk_id c) id) as [->|Hne].
  - apply lookup_insert_eq.
  - apply lookup_insert_ne, Hne.
Qed.

Lemma last_slot_from_app id : forall old new i,
  last_slot_from i id (old ++ new)
  = match last_slot_from (i + List.length old) id new with
    | Some j => Some j
    | None => last_slot_from i id old
    end.
Proof.
  induction old as [|c old IH]; intros new i; cbn [app last_slot_from List.length].
  - rewrite Nat.add_0_r. destruct (last_slot_from i id new); reflexivity.
  - rewrite IH.
    replace (S i + List.length old)%nat with (i + S (List.length old))%nat
      by lia.
    destruct (last_slot_from (i + S (List.length old)) id new); reflexivity.
Qed.

Lemma last_slot_from_spec id : forall chunks i j,
  last_slot_from i id chunks = Some j ->
  (i <= j)%nat
  /\ (exists c, nth_error chunks (j - i) = Some c /\ chunk_id c = id)
  /\ forall k c,
       (j - i < k)%nat -> nth_error chunks k = Some c -> chunk_id c <> id.
Proof.
  induction chunks as [|c chunks IH]; intros i j H; cbn [last_slot_from] in H;
    [discriminate|].
  destruct (last_slot_from (S i) id chunks) as [j'|] eqn:E.
  - injection H as ->. destruct (IH _ _ E) as (Hle & (c' & Hc' & Hid) & Hlast).
    split; [lia|]. split.
    + exists c'. replace (j - i)%nat with (S (j - S i)) by lia. auto.
    + intros [|k] c'' Hk Hn; [lia|]. cbn in Hn.
      apply (Hlast k c''); [lia | exact Hn].
  - destruct (String.eqb_spec (chunk_id c) id) as [Hid|Hne]; [|discriminate].
    injection H as <-. rewrite Nat.sub_diag. split; [lia|]. split.
    + exists c. auto.
    + intros [|k] c' Hk Hn; [lia|]. cbn in Hn. intros Hid'.
      clear IH. revert k i E Hn Hk.
      induction chunks as [|d chunks IH']; intros k i E Hn Hk;
        [destruct k; discriminate|].
      cbn [last_slot_from] in E.
      destruct (last_slot_from (S (S i)) id chunks) eqn:E'; [discriminate|].
      destruct k as [|k]; cbn in Hn.
      * injection Hn as ->. rewrite (proj2 (String.eqb_eq _ _) Hid') in E.
        discriminate.
      * apply (IH' k (S i) E' Hn). lia.
Qed.

Lemma last_slot_from_none id : forall chunks i,
  last_slot_from i id chunks = None ->
  Forall (fun c => chunk_id c <> id) chunks.
Proof.
  induction chunks as [|c chunks IH]; intros i H; cbn [last_slot_from] in H;
    [constructor|].
  destruct (last_slot_from (S i) id chunks) eqn:E; [discriminate|].
  destruct (String.eqb_spec (chunk_id c) id); [discriminate|].
  constructor; [assumption | apply (IH _ E)].
Qed.

Lemma add_chunks_mapped encode st chunks :
  mapped st -> mapped (fst (add_chunks encode st chunks)).
Proof.
  intros H. unfold add_chunks. destruct chunks as [|c chunks]; [exact H|].
  destruct (encode _) as [rows|]; [|exact H].
  intros id. cbn [fst chunk_to_embedding _chunks].
  rewrite update_mapping_lookup, last_slot_from_app, H. reflexivity.
Qed.

Lemma empty_store_mapped : mapped empty_store.
Proof. intros id. apply lookup_empty. Qed.

Lemma run_op_mapped encode st o : mapped st -> mapped (run_op encode st o).
Proof.
  destruct o; cbn [run_op]; auto using add_chunks_mapped.
  intros _. apply empty_store_mapped.
Qed.

Lemma reachable_mapped encode ops : forall st,
  mapped st -> mapped (fold_left (run_op encode) ops st).
Proof.
  induction ops as [|o ops IH]; intros st H; cbn [fold_left]; [exact H|].
  apply IH, run_op_mapped, H.
Qed.

(** In every state the store reaches from the empty one, whatever the model
    does, the id map sends an id to the last slot that holds a chunk with
    that id, and knows exactly the ids that are stored: adding an id again
    repoints it to the new slot and leaves the old slot in place. *)
Theorem id_map_names_last_slot encode ops id :
  let st := fold_left (run_op encode) ops empty_store in
  match chunk_to_embedding st !! id with
  | Some slot =>
      (exists c, nth_error (_chunks st) slot = Some c /\ chunk_id c = id)
      /\ forall later c,
           (slot < later)%nat -> nth_error (_chunks st) later = Some c ->
           chunk_id c <> id
  | None => Forall (fun c => chunk_id c <> id) (_chunks st)
  end.
Proof.
  intros st.
  pose proof (reachable_mapped encode ops _ empty_store_mapped id) as Hm.
  fold st in Hm. rewrite Hm.
  destruct (last_slot_from 0 id (_chunks st)) as [slot|] eqn:E.
  - destruct (last_slot_from_spec _ _ _ _ E) as (_ & Hc & Hlast).
    rewrite Nat.sub_0_r in *. split; [exact Hc|]. exact Hlast.
  - apply (last_slot_from_none _ _ _ E).
Qed.

(** ** Append-only slots *)

Lemma add_chunks_appends encode st chunks :
  (exists rows,
     encode (List.map get_embedding_text chunks) = Some rows
     /\ chunks <> []
     /\ add_chunks encode st chunks
        = ({| _chunks := _chunks st ++ chunks;
              embeddings := embeddings st ++ rows;
              chunk_to_embedding :=
                update_mapping (chunk_to_embedding st)
                  (List.length (_chunks st)) chunks |}, Ok true))
  \/ (exists r, add_chunks encode st chunks = (st, r)).
Proof.
  unfold add_chunks. destruct chunks as [|c chunks]; [right; eauto|].
  destruct (encode _) as [rows|] eqn:E; [left|right; eauto].
  exists rows. repeat split. discriminate.
Qed.

(** Slots are append-only: as long as the store is not cleared, every
    operation leaves the stored chunks and vectors where they are and at
    most appends to them; and an [add_chunks] that raises (the model
    failed) leaves the store as it was. *)
Theorem slots_append_only encode ops st :
  forallb (fun o => negb (is_clear o)) ops = true ->
  (exists more_chunks more_vectors,
     _chunks (fold_left (run_op encode) ops st) = _chunks st ++ more_chunks
     /\ embeddings (fold_left (run_op encode) ops st)
        = embeddings st ++ more_vectors)
  /\ forall chunks e,
       snd (add_chunks encode st chunks) = Raise e ->
       fst (add_chunks encode st chunks) = st.
Proof.
  intros Hops. split.
  - revert st Hops. induction ops as [|o ops IH]; intros st Hops;
      cbn [fold_left].
    + exists [], []. rewrite !app_nil_r. auto.
    + cbn [forallb] in Hops. apply andb_true_iff in Hops as [Ho Hops].
      destruct (IH (run_op encode st o) Hops) as (mc & mv & Hc & Hv).
      rewrite Hc, Hv. clear IH Hc Hv.
      destruct o; cbn [run_op is_clear negb] in *; try discriminate;
        try (exists mc, mv; auto; fail).
      destruct (add_chunks_appends encode st chunks)
        as [(rows & _ & _ & ->)|(r & ->)]; cbn [fst _chunks embeddings].
      * exists (chunks ++ mc), (rows ++ mv). rewrite !app_assoc. auto.
      * exists mc, mv. auto.
  - intros chunks e H.
    destruct (add_chunks_appends encode st chunks)
      as [(rows & _ & _ & Heq)|(r & Heq)]; rewrite Heq in *;
      [discriminate | reflexivity].
Qed.

Lemma slots_append_only_witness :
  forallb (fun o => negb (is_clear o)) [OpAddChunks [c2]; OpGetStats] = true
  /\ exists more_chunks more_vectors,
       _chunks (fold_left (run_op letter_model) [OpAddChunks [c2]; OpGetStats]
                  (store_of [c0; c1]))
       = _chunks (store_of [c0; c1]) ++ more_chunks
       /\ embeddings
            (fold_left (run_op letter_model) [OpAddChunks [c2]; OpGetStats]
               (store_of [c0; c1]))
          = embeddings (store_of [c0; c1]) ++ more_vectors.
Proof.
  split; [reflexivity|].
  apply (slots_append_only letter_model [OpAddChunks [c2]; OpGetStats]
           (store_of [c0; c1])).
  reflexivity.
Defined.

(** ** Batches *)

Lemma update_mapping_app : forall a b m start,
  update_mapping m start (a ++ b)
  = update_mapping (update_mapping m start a) (start + List.length a) b.
Proof.
  induction a as [|c a IH]; intros b m start; cbn [app update_mapping List.length].
  - rewrite Nat.add_0_r. reflexivity.
  - rewrite IH.
    replace (S start + List.length a)%nat with (start + S (List.length a))%nat
      by lia.
    reflexivity.
Qed.

(** With a model that embeds each text on its own, adding chunks in two
    batches gives the same store as adding them in one. *)
Theorem add_chunks_in_batches encode embed st a b :
  (forall texts, encode texts = Some (List.map embed texts)) ->
  fst (add_chunks encode (fst (add_chunks encode st a)) b)
  = fst (add_chunks encode st (a ++ b)).
Proof.
  intros Hmodel. unfold add_chunks. rewrite !Hmodel.
  destruct a as [|ca a]; [reflexivity|].
  cbn [app fst]. destruct b as [|cb b].
  - rewrite app_nil_r. reflexivity.
  - cbn [fst _chunks embeddings chunk_to_embedding]. f_equal.
    + rewrite <- app_assoc. reflexivity.
    + change (ca :: a ++ cb :: b) with ((ca :: a) ++ cb :: b).
      rewrite !List.map_app, <- app_assoc. reflexivity.
    + change (ca :: a ++ cb :: b) with ((ca :: a) ++ cb :: b).
      rewrite update_mapping_app, length_app. reflexivity.
Qed.

Lemma add_chunks_in_batches_witness :
  fst (add_chunks letter_model (fst (add_chunks letter_model empty_store [c0]))
         [c1; c2])
  = fst (add_chunks letter_model empty_store ([c0] ++ [c1; c2])).
Proof.
  apply (add_chunks_in_batches letter_model
           (fun text =>
              match text with
              | String "a" _ => [1; 0]
              | String "b" _ => [0; 1]
              | String "z" _ => [0; 0]
              | _ => [1; 1]
              end%float)).
  intros texts. reflexivity.
Defined.

End IndexFacts.

(* ===================================================================== *)
(** * What [search] returns, and what it leaves out *)
(* ===================================================================== *)

Module RetrievalFacts.

Import Py Store Service Notions MoreNotions Fixtures SearchFacts.

Lemma enumerate_from_In {A} (l : list A) : forall i j x,
  nth_error l j = Some x -> In ((i + j)%nat, x) (enumerate_from i l).
Proof.
  induction l as [|y l IH]; intros i [|j] x H; cbn in H; try discriminate.
  - injection H as ->. left. rewrite Nat.add_0_r. reflexivity.
  - right. replace (i + S j)%nat with (S i + j)%nat by lia. apply IH, H.
Qed.

Section Ranked.

Variable argsort : list float -> list nat.
Hypothesis argsort_sorts : sorts_ascending argsort.

Lemma ranking_In sims j s :
  nth_error sims j = Some s -> In (j, s) (ranking argsort sims).
Proof.
  intros H. apply (Permutation_in _ (Permutation_sym (ranking_perm argsort
      argsort_sorts sims))).
  apply (enumerate_from_In sims 0 j s H).
Qed.

(** A slot has one score. *)
Lemma candidate_functional encode st query l1 c1 l2 c2 slot s s' :
  candidate encode st query l1 c1 slot s ->
  candidate encode st query l2 c2 slot s' -> s = s'.
Proof.
  intros (ch & emb & qe & rows & _ & _ & Hemb & Henc & Hs)
         (ch' & emb' & qe' & rows' & _ & _ & Hemb' & Henc' & Hs').
  congruence.
Qed.

Lemma entry_functional chunks idxs p e e' :
  entry chunks idxs p e -> entry chunks idxs p e' -> e = e'.
Proof.
  intros (slot & Hslot & Hc & Hs) (slot' & Hslot' & Hc' & Hs').
  destruct e, e'; cbn in *. congruence.
Qed.

Lemma entries_functional chunks idxs : forall ps es es',
  Forall2 (entry chunks idxs) ps es -> Forall2 (entry chunks idxs) ps es' ->
  es = es'.
Proof.
  induction ps as [|p ps IH]; intros es es' H H'.
  - apply Forall2_nil_inv_l in H, H'. congruence.
  - apply Forall2_cons_inv_l in H as (e & es1 & He & H & ->).
    apply Forall2_cons_inv_l in H' as (e' & es1' & He' & H' & ->).
    f_equal; [eapply entry_functional; eassumption | apply IH; assumption].
Qed.

Lemma Forall2_In_r {A B} (R : A -> B -> Prop) l k y :
  Forall2 R l k -> In y k -> exists x, In x l /\ R x y.
Proof.
  induction 1 as [|x y' l k Hxy _ IH]; intros Hin; [contradiction|].
  destruct Hin as [->|Hin].
  - exists x. split; [left; reflexivity | exact Hxy].
  - destruct (IH Hin) as (x' & Hx' & Hr). exists x'. split; [right|]; auto.
Qed.

Lemma Forall2_In_l {A B} (R : A -> B -> Prop) l k x :
  Forall2 R l k -> In x l -> exists y, In y k /\ R x y.
Proof.
  induction 1 as [|x' y l k Hxy _ IH]; intros Hin; [contradiction|].
  destruct Hin as [->|Hin].
  - exists y. split; [left; reflexivity | exact Hxy].
  - destruct (IH Hin) as (y' & Hy' & Hr). exists y'. split; [right|]; auto.
Qed.

Lemma Forall2_nth_l {A B} (R : A -> B -> Prop) l k i x :
  Forall2 R l k -> nth_error l i = Some x ->
  exists y, nth_error k i = Some y /\ R x y.
Proof.
  intros H. revert i. induction H as [|x' y l k Hxy _ IH]; intros [|i] Hi;
    cbn in Hi; try discriminate.
  - injection Hi as ->. exists y. auto.
  - apply IH, Hi.
Qed.

(** Every returned pair is a stored chunk that passes the filters, with its
    cosine similarity to the query, which reaches the threshold. *)
Lemma returned_is_candidate encode st query top_k threshold language'
    category' res c s :
  search encode argsort st query top_k threshold language' category' = Ok res ->
  In (c, s) res ->
  exists slot,
    nth_error (_chunks st) slot = Some c
    /\ candidate encode st query language' category' slot s
    /\ F64.geb s threshold = true.
Proof.
  intros H Hin.
  destruct (search_Ok_scored argsort argsort_sorts _ _ _ _ _ _ _ _ H) as (sims
      & idxs & Hsc).
  destruct (search_ranked argsort argsort_sorts encode st query top_k
      language' category' _ _ Hsc)
    as (es & He & Hres).
  rewrite Hres in H. injection H as <-.
  apply List.filter_In in Hin as [Hin Hge].
  destruct (Forall2_In_r _ _ _ _ He Hin) as (p & Hp & slot & Hslot & Hc & Hs).
  cbn [fst snd] in Hc, Hs. exists slot. split; [exact Hc|].
  split; [|exact Hge].
  apply take_upto_In, (ranking_lookup argsort argsort_sorts) in Hp.
  destruct (scored_candidates _ _ _ _ _ _ _ Hsc) as [Hcand _].
  destruct (Forall2_nth_l _ _ _ _ _ Hcand Hslot) as (s' & Hs' & Hcs).
  rewrite Hp in Hs'. injection Hs' as <-. rewrite Hs. exact Hcs.
Qed.

Lemma sorted_slots_length (idxs : list nat) n :
  StronglySorted lt idxs -> Forall (fun slot => slot < n)%nat idxs ->
  (List.length idxs <= n)%nat.
Proof.
  intros Hs Hlt.
  apply Nat.le_trans with (List.length (seq 0 n));
    [|rewrite List.length_seq; lia].
  apply List.NoDup_incl_length; [apply StronglySorted_lt_NoDup, Hs|].
  intros slot Hin. apply in_seq. rewrite List.Forall_forall in Hlt.
  apply Hlt in Hin. lia.
Qed.

Lemma take_upto_all {A} k (l : list A) :
  Z.of_nat (List.length l) <= k -> take_upto k l = l.
Proof.
  intros Hk. unfold take_upto, clip.
  destruct (Z.ltb_spec k 0); [lia|].
  rewrite Z.min_r by lia. rewrite Nat2Z.id. apply firstn_all.
Qed.

(** When [top_k] is at least the number of stored chunks, every stored
    chunk that passes the filters and whose score reaches the threshold is
    returned. *)
Lemma candidate_is_returned encode st query top_k threshold language'
    category' res slot c s :
  Z.of_nat (List.length (_chunks st)) <= top_k ->
  search encode argsort st query top_k threshold language' category' = Ok res ->
  nth_error (_chunks st) slot = Some c ->
  candidate encode st query language' category' slot s ->
  F64.geb s threshold = true ->
  In (c, s) res.
Proof.
  intros Hk H Hc Hcand Hge.
  destruct (search_Ok_scored argsort argsort_sorts _ _ _ _ _ _ _ _ H) as (sims
      & idxs & Hsc).
  destruct (search_ranked argsort argsort_sorts encode st query top_k
      language' category' _ _ Hsc)
    as (es & He & Hres).
  rewrite Hres in H. injection H as <-.
  destruct (scored_valid _ _ _ _ _ _ _ Hsc) as (Hlen & Hsorted & Hslots).
  destruct (scored_candidates _ _ _ _ _ _ _ Hsc) as [Hall Hcomplete].
  assert (Hkeeps : keeps language' category' c = true).
  { destruct Hcand as (ch & _ & _ & _ & Hch & Hk' & _). congruence. }
  apply (Hcomplete slot c Hc) in Hkeeps.
  apply In_nth_error in Hkeeps as [pos Hpos].
  destruct (Forall2_nth_l _ _ _ _ _ Hall Hpos) as (s' & Hs' & Hcs).
  assert (s' = s) by (eapply candidate_functional; eassumption). subst s'.
  rewrite take_upto_all in He.
  2:{ pose proof (Permutation_length (ranking_perm argsort argsort_sorts
      sims)) as Hr.
      assert (Hen : List.length (enumerate_from 0 sims) = List.length sims).
      { rewrite <- (length_map fst), enumerate_from_fst. apply length_seq. }
      pose proof (sorted_slots_length _ _ Hsorted Hslots). lia. }
  destruct (Forall2_In_l _ _ _ _ He (ranking_In _ _ _ Hs'))
    as (e & Hin & slot' & Hslot' & Hc' & Hsim).
  cbn [fst snd] in Hslot', Hsim.
  assert (slot' = slot) by congruence. subst slot'.
  apply List.filter_In. destruct e as [c' s']; cbn [fst snd] in *.
  assert (c' = c) by congruence. subst c' s'.
  split; [exact Hin | exact Hge].
Qed.

(** ** The results, slot by slot *)

Lemma entries_slots chunks sims idxs threshold encode st query language'
    category' :
  List.NoDup idxs ->
  Forall2 (candidate encode st query language' category') idxs sims ->
  forall ps es,
    Forall2 (entry chunks idxs) ps es ->
    List.NoDup (List.map fst ps) ->
    Forall (fun p => nth_error sims (fst p) = Some (snd p)) ps ->
    exists slots,
      List.NoDup slots
      /\ Forall (fun slot => exists p, In p ps
                                       /\ nth_error idxs (fst p) = Some slot)
           slots
      /\ Forall2
           (fun slot e =>
              nth_error chunks slot = Some (fst e)
              /\ candidate encode st query language' category' slot (snd e)
              /\ F64.geb (snd e) threshold = true)
           slots (List.filter (at_least threshold) es).
Proof.
  intros Hidxs Hcand.
  induction 1 as [|p e ps es (slot & Hslot & Hc & Hs) Hrest IH];
    intros Hnd Hps; cbn [List.filter].
  - exists []. repeat constructor.
  - cbn [List.map] in Hnd. apply List.NoDup_cons_iff in Hnd as [Hp Hnd].
    apply Forall_cons in Hps as [Hsp Hps].
    destruct (IH Hnd Hps) as (slots & Hsl & Hfrom & Hall).
    assert (Hfrom' : Forall (fun slot => exists p', In p' (p :: ps)
                              /\ nth_error idxs (fst p') = Some slot) slots).
    { eapply List.Forall_impl; [|exact Hfrom].
      intros x (p' & Hp' & Hx). exists p'. split; [right|]; auto. }
    destruct (at_least threshold e) eqn:Hge; [|exists slots; auto].
    exists (slot :: slots). split; [|split].
    + constructor; [|exact Hsl]. intros Hin.
      rewrite List.Forall_forall in Hfrom.
      destruct (Hfrom _ Hin) as (p' & Hp' & Hx).
      apply Hp. replace (fst p) with (fst p')
        by (eapply (nth_error_inj idxs); eassumption).
      apply in_map, Hp'.
    + constructor; [|exact Hfrom'].
      exists p. split; [left; reflexivity | exact Hslot].
    + constructor; [|exact Hall]. split; [exact Hc|]. split; [|exact Hge].
      destruct (Forall2_nth_l _ _ _ _ _ Hcand Hslot) as (s' & Hs' & Hcs).
      rewrite Hsp in Hs'. injection Hs' as <-. rewrite Hs. exact Hcs.
Qed.

(** What [search] returns is sound: the results stand, one for one and in
    order, for pairwise distinct slots of the store; each result is the
    chunk stored in its slot, this chunk passes the language and category
    filters, its score is the cosine similarity of the query vector and the
    vector stored in the same slot, and the score reaches the threshold. *)
Theorem search_results_are_candidates encode st query top_k threshold
    language' category' res :
  search encode argsort st query top_k threshold language' category' = Ok res ->
  exists slots,
    List.NoDup slots
    /\ Forall2
         (fun slot e =>
            nth_error (_chunks st) slot = Some (fst e)
            /\ keeps language' category' (fst e) = true
            /\ candidate encode st query language' category' slot (snd e)
            /\ F64.geb (snd e) threshold = true)
         slots res.
Proof.
  intros H.
  destruct (search_Ok_scored argsort argsort_sorts _ _ _ _ _ _ _ _ H) as (sims
      & idxs & Hsc).
  destruct (search_ranked argsort argsort_sorts encode st query top_k
      language' category' _ _ Hsc)
    as (es & He & Hres).
  rewrite Hres in H. injection H as <-.
  destruct (scored_valid _ _ _ _ _ _ _ Hsc) as (_ & Hsorted & _).
  destruct (scored_candidates _ _ _ _ _ _ _ Hsc) as [Hcand _].
  destruct (take_upto_split top_k (ranking argsort sims)) as [rest Hsplit].
  destruct (entries_slots (_chunks st) sims idxs threshold encode st query
              language' category' (StronglySorted_lt_NoDup _ Hsorted) Hcand
              _ _ He)
    as (slots & Hnd & _ & Hall).
  - pose proof (ranking_NoDup argsort argsort_sorts sims) as Hr.
    rewrite Hsplit, List.map_app in Hr.
    apply List.NoDup_app_remove_r in Hr. exact Hr.
  - apply List.Forall_forall. intros p Hp.
    apply (ranking_lookup argsort argsort_sorts). eapply take_upto_In, Hp.
  - exists slots. split; [exact Hnd|].
    eapply Forall2_impl; [exact Hall|].
    intros slot e (Hc & Hcd & Hge). repeat split; auto.
    destruct Hcd as (ch & _ & _ & _ & Hch & Hk & _). congruence.
Qed.

(** ** Nothing is left out when [top_k] cuts nothing *)

(** When [top_k] is at least the number of stored chunks, [search] returns
    exactly the candidates that reach the threshold: a pair is in the result
    if and only if its chunk is stored in some slot, passes the filters, and
    its score, the cosine similarity of the query vector and the vector of
    this slot, reaches the threshold. *)
Theorem search_uncut_is_exact encode st query top_k threshold language'
    category' res :
  Z.of_nat (List.length (_chunks st)) <= top_k ->
  search encode argsort st query top_k threshold language' category' = Ok res ->
  forall c s,
    In (c, s) res
    <-> exists slot,
          nth_error (_chunks st) slot = Some c
          /\ candidate encode st query language' category' slot s
          /\ F64.geb s threshold = true.
Proof.
  intros Hk H c s. split.
  - apply (returned_is_candidate _ _ _ _ _ _ _ _ _ _ H).
  - intros (slot & Hc & Hcand & Hge).
    apply (candidate_is_returned _ _ _ _ _ _ _ _ _ _ _ Hk H Hc Hcand Hge).
Qed.

Lemma candidate_keeps encode st query l c slot s chunk l' c' :
  candidate encode st query l c slot s ->
  nth_error (_chunks st) slot = Some chunk ->
  keeps l' c' chunk = true ->
  candidate encode st query l' c' slot s.
Proof.
  intros (ch & emb & qe & rows & Hch & _ & Hrest) Hc Hk.
  exists chunk, emb, qe, rows. split; [exact Hc|]. split; [exact Hk|].
  exact Hrest.
Qed.

(** The language and category filters only select: when [top_k] is at least
    the number of stored chunks and the searches with and without filters
    both return, the filtered search returns exactly the pairs of the
    unfiltered search whose chunk passes the filters, with the same
    scores. *)
Theorem search_filters_select encode st query top_k threshold language'
    category' filtered unfiltered :
  Z.of_nat (List.length (_chunks st)) <= top_k ->
  search encode argsort st query top_k threshold language' category' = Ok
      filtered ->
  search encode argsort st query top_k threshold None None = Ok unfiltered ->
  forall e,
    In e filtered
    <-> In e unfiltered /\ keeps language' category' (fst e) = true.
Proof.
  intros Hk Hf Hu [c s]. cbn [fst]. split.
  - intros Hin.
    destruct (returned_is_candidate _ _ _ _ _ _ _ _ _ _ Hf Hin)
      as (slot & Hc & Hcand & Hge).
    split.
    + apply (candidate_is_returned _ _ _ _ _ _ _ _ slot _ _ Hk Hu Hc);
        [|exact Hge].
      eapply candidate_keeps; [exact Hcand | exact Hc | reflexivity].
    + destruct Hcand as (ch & _ & _ & _ & Hch & Hkeeps & _). congruence.
  - intros [Hin Hkeeps].
    destruct (returned_is_candidate _ _ _ _ _ _ _ _ _ _ Hu Hin)
      as (slot & Hc & Hcand & Hge).
    apply (candidate_is_returned _ _ _ _ _ _ _ _ slot _ _ Hk Hf Hc);
      [|exact Hge].
    eapply candidate_keeps; eassumption.
Qed.

End Ranked.

Lemma search_results_are_candidates_witness :
  search letter_model insertion_argsort small_index "a" 5 0.5 None None
  = Ok [(c1, 1%float); (c0, 1%float); (cx, 0x1.6a09e667f3bccp-1%float)]
  /\ exists slots,
       List.NoDup slots
       /\ Forall2
            (fun slot e =>
               nth_error (_chunks small_index) slot = Some (fst e)
               /\ keeps None None (fst e) = true
               /\ candidate letter_model small_index "a" None None slot
                    (snd e)
               /\ F64.geb (snd e) 0.5 = true)
            slots
            [(c1, 1%float); (c0, 1%float);
             (cx, 0x1.6a09e667f3bccp-1%float)].
Proof.
  assert (H : search letter_model insertion_argsort small_index "a" 5 0.5 None None
              = Ok [(c1, 1%float); (c0, 1%float);
                    (cx, 0x1.6a09e667f3bccp-1%float)])
    by (vm_compute; reflexivity).
  split; [exact H|].
  exact (search_results_are_candidates insertion_argsort insertion_argsort_sorts
           letter_model small_index "a" 5 0.5
           None None _ H).
Defined.

Lemma search_uncut_is_exact_witness :
  Z.of_nat (List.length (_chunks small_index)) <= 5
  /\ (In (c0, 1%float)
        [(c1, 1%float); (c0, 1%float); (cx, 0x1.6a09e667f3bccp-1%float)]
      <-> exists slot,
            nth_error (_chunks small_index) slot = Some c0
            /\ candidate letter_model small_index "a" None None slot 1
            /\ F64.geb 1 0.5 = true).
Proof.
  assert (Hk : Z.of_nat (List.length (_chunks small_index)) <= 5)
    by (vm_compute; discriminate).
  split; [exact Hk|].
  apply (search_uncut_is_exact insertion_argsort insertion_argsort_sorts
           letter_model small_index "a" 5 0.5 None None
           _ Hk).
  vm_compute. reflexivity.
Defined.

Lemma search_filters_select_witness :
  Z.of_nat (List.length (_chunks MoreFixtures.two_languages)) <= 5
  /\ search letter_model insertion_argsort
       MoreFixtures.two_languages "a" 5 0 (Some "a1") None
     = Ok [(MoreFixtures.ca, 1%float)]
  /\ search letter_model insertion_argsort
       MoreFixtures.two_languages "a" 5 0 None None
     = Ok [(MoreFixtures.ca, 1%float); (MoreFixtures.cb, 0%float)]
  /\ (In (MoreFixtures.cb, 0%float) [(MoreFixtures.ca, 1%float)]
      <-> In (MoreFixtures.cb, 0%float)
            [(MoreFixtures.ca, 1%float); (MoreFixtures.cb, 0%float)]
          /\ keeps (Some "a1") None (fst (MoreFixtures.cb, 0%float)) = true).
Proof.
  assert (Hk : Z.of_nat (List.length (_chunks MoreFixtures.two_languages))
               <= 5) by (vm_compute; discriminate).
  assert (Hf : search letter_model insertion_argsort
       MoreFixtures.two_languages "a" 5 0
                 (Some "a1") None
               = Ok [(MoreFixtures.ca, 1%float)])
    by (vm_compute; reflexivity).
  assert (Hu : search letter_model insertion_argsort
       MoreFixtures.two_languages "a" 5 0
                 None None
               = Ok [(MoreFixtures.ca, 1%float); (MoreFixtures.cb, 0%float)])
    by (vm_compute; reflexivity).
  repeat (split; [assumption|]).
  exact (search_filters_select insertion_argsort insertion_argsort_sorts
           letter_model MoreFixtures.two_languages "a" 5
           0 (Some "a1") None _ _ Hk Hf Hu (MoreFixtures.cb, 0%float)).
Defined.

(** ** When [search] raises *)

Section Dimension.

Variable encode : list string -> option (list vector).
Variable d : nat.

(** The contract of the embedding model: one row for every text, every row
    of the dimension [d]. *)
Hypothesis encode_rows : forall texts rows,
  encode texts = Some rows ->
  List.length rows = List.length texts
  /\ Forall (fun v : vector => List.length v = d) rows.

Lemma add_chunks_dimension st chunks :
  aligned st /\ Forall (fun v : vector => List.length v = d) (embeddings st) ->
  aligned (fst (add_chunks encode st chunks))
  /\ Forall (fun v : vector => List.length v = d)
       (embeddings (fst (add_chunks encode st chunks))).
Proof.
  unfold aligned, add_chunks. intros [Hal Hd].
  destruct chunks as [|c chunks]; [auto|].
  destruct (encode (List.map get_embedding_text (c :: chunks)))
    as [rows|] eqn:E; [|auto].
  cbn [fst _chunks embeddings]. apply encode_rows in E as [Hlen Hrows].
  split.
  - rewrite !length_app, Hlen, length_map, Hal. reflexivity.
  - apply Forall_app. auto.
Qed.

Lemma reachable_dimension ops : forall st,
  aligned st /\ Forall (fun v : vector => List.length v = d) (embeddings st) ->
  aligned (fold_left (run_op encode) ops st)
  /\ Forall (fun v : vector => List.length v = d)
       (embeddings (fold_left (run_op encode) ops st)).
Proof.
  induction ops as [|o ops IH]; intros st H; cbn [fold_left]; [exact H|].
  apply IH. destruct o; cbn [run_op]; try exact H.
  - apply add_chunks_dimension, H.
  - split; [reflexivity | constructor].
Qed.

End Dimension.

(** With an embedding model that returns one row of a fixed dimension for
    every text, on every store reached from the empty one by store
    operations: [search] returns whenever the model embeds the query,
    whatever [top_k] (negative too), threshold and filters; and when the
    model fails on the query, [search] raises the model's error unless the
    store has no chunk, where it returns the empty list without calling
    the model. *)
Theorem search_raises_only_with_model encode argsort d ops query top_k
    threshold language' category' :
  sorts_ascending argsort ->
  (forall texts rows,
     encode texts = Some rows ->
     List.length rows = List.length texts
     /\ Forall (fun v : vector => List.length v = d) rows) ->
  let st := fold_left (run_op encode) ops empty_store in
  match encode [query] with
  | Some _ =>
      exists res,
        search encode argsort st query top_k threshold language' category' =
            Ok res
  | None =>
      search encode argsort st query top_k threshold language' category'
      = match _chunks st with
        | [] => Ok []
        | _ => Raise EncodeError
        end
  end.
Proof.
  intros argsort_sorts Hrows st.
  destruct (reachable_dimension encode d Hrows ops empty_store) as [Hal Hd];
    [split; [reflexivity | constructor]|].
  fold st in Hal, Hd.
  destruct (encode [query]) as [rows|] eqn:E.
  - destruct (Hrows _ _ E) as [Hlen Hq].
    destruct rows as [|qe rows]; [discriminate|].
    apply Forall_cons in Hq as [Hqe _].
    apply (search_returns argsort argsort_sorts encode st query top_k
        threshold language' category'
             qe rows Hal E).
    eapply List.Forall_impl; [|exact Hd]. cbn. intros v Hv. congruence.
  - unfold search. rewrite E. destruct (_chunks st); reflexivity.
Qed.

Lemma letter_model_rows texts rows :
  letter_model texts = Some rows ->
  List.length rows = List.length texts
  /\ Forall (fun v : vector => List.length v = 2%nat) rows.
Proof.
  intros [= <-]. split; [apply length_map|].
  apply List.Forall_forall. intros v Hv.
  apply in_map_iff in Hv as (t & <- & _).
  destruct t as [|a t]; [reflexivity|].
  destruct a as [[] [] [] [] [] [] [] []]; reflexivity.
Qed.

Lemma search_raises_only_with_model_witness :
  exists res,
    search letter_model insertion_argsort
      (fold_left (run_op letter_model) [OpAddChunks [c0; c1]; OpClear;
                                        OpAddChunks [c2]] empty_store)
      "a" (-1) 0.5 None None = Ok res.
Proof.
  exact (search_raises_only_with_model letter_model insertion_argsort 2
           [OpAddChunks [c0; c1]; OpClear; OpAddChunks [c2]] "a" (-1) 0.5
           None None insertion_argsort_sorts letter_model_rows).
Defined.

End RetrievalFacts.

(* ===================================================================== *)
(** * What the refined pass adds to the broad pass *)
(* ===================================================================== *)

Module OrchestratorFacts.

Import Py Store Service Notions MoreNotions Fixtures SearchFacts ServiceFacts
  RetrievalFacts.

Lemma take_upto_take_upto {A} r b (l : list A) :
  0 <= r <= b -> take_upto r l = firstn (Z.to_nat r) (take_upto b l).
Proof.
  intros Hrb. unfold take_upto, clip.
  destruct (Z.ltb_spec r 0); [lia|]. destruct (Z.ltb_spec b 0); [lia|].
  rewrite firstn_firstn.
  destruct (Z.le_gt_cases r (Z.of_nat (List.length l))).
  - f_equal. lia.
  - rewrite !firstn_all2 by lia. reflexivity.
Qed.

Lemma filter_none {A} (f : A -> bool) l :
  Forall (fun x => f x = false) l -> List.filter f l = [].
Proof.
  induction 1 as [|x l Hx _ IH]; [reflexivity|].
  cbn [List.filter]. rewrite Hx. exact IH.
Qed.

Lemma filter_all {A} (f : A -> bool) l :
  Forall (fun x => f x = true) l -> List.filter f l = l.
Proof.
  induction 1 as [|x l Hx _ IH]; [reflexivity|].
  cbn [List.filter]. rewrite Hx. f_equal. exact IH.
Qed.

(** In a list sorted downwards, the scores that reach a threshold come
    first. *)
Lemma threshold_splits (l : list (DocumentChunk * float)) t :
  StronglySorted
    (fun e e' : DocumentChunk * float =>
       PrimFloat.leb (snd e') (snd e) = true) l ->
  l = List.filter (at_least t) l
      ++ List.filter (fun e => negb (at_least t e)) l.
Proof.
  induction 1 as [|e l Hs IH He]; [reflexivity|]. cbn [List.filter].
  destruct (at_least t e) eqn:E; cbn [negb app].
  - f_equal. exact IH.
  - assert (Hnone : Forall (fun e' => at_least t e' = false) l).
    { eapply List.Forall_impl; [|exact He]. cbn beta. intros e' Hle.
      destruct (at_least t e') eqn:E'; [|reflexivity].
      unfold at_least, F64.geb in *.
      rewrite (F64Facts.leb_trans _ _ _ E' Hle) in E. discriminate. }
    rewrite (filter_none _ _ Hnone), filter_all; [reflexivity|].
    eapply List.Forall_impl; [|exact Hnone]. cbn beta.
    intros e' ->. reflexivity.
Qed.

Lemma filter_at_least_twice t1 t2 (l : list (DocumentChunk * float)) :
  PrimFloat.leb t1 t2 = true ->
  List.filter (at_least t2) (List.filter (at_least t1) l)
  = List.filter (at_least t2) l.
Proof.
  intros Ht. induction l as [|e l IH]; [reflexivity|]. cbn [List.filter].
  destruct (at_least t1 e) eqn:E1; cbn [List.filter].
  - rewrite IH. reflexivity.
  - rewrite IH. destruct (at_least t2 e) eqn:E2; [|reflexivity].
    unfold at_least in *.
    rewrite (F64Facts.geb_trans _ _ _ Ht E2) in E1. discriminate.
Qed.

(** The merge of a pass with a longer pass that starts with it. *)
Lemma merge_prefix refined rest :
  List.NoDup (pass_ids (refined ++ rest)) ->
  merge refined (refined ++ rest)
  = List.map (tag 2) refined ++ List.map (tag 1) rest.
Proof.
  intros Hnd. rewrite merge_spec, List.filter_app. f_equal.
  unfold pass_ids in Hnd. rewrite List.map_app in Hnd.
  apply NoDup_ListNoDup, NoDup_app in Hnd as (_ & Hdis & _).
  assert (H1 : List.filter
                 (fun e =>
                    negb (bool_decide (chunk_id (fst e) ∈ pass_ids refined)))
                 refined = []).
  { assert (Hall : Forall (fun e => chunk_id (fst e) ∈ pass_ids refined)
                     refined).
    { apply List.Forall_forall. intros e He. apply list_elem_of_In.
      unfold pass_ids. apply in_map_iff. eauto. }
    apply filter_none. eapply List.Forall_impl; [|exact Hall]. cbn beta.
    intros e He. rewrite bool_decide_eq_true_2 by exact He. reflexivity. }
  assert (H2 : List.filter
                 (fun e =>
                    negb (bool_decide (chunk_id (fst e) ∈ pass_ids refined)))
                 rest = rest).
  { assert (Hall : Forall (fun e => chunk_id (fst e) ∉ pass_ids refined)
                     rest).
    { apply List.Forall_forall. intros e He Hin. apply (Hdis _ Hin).
      apply list_elem_of_In, in_map_iff. eauto. }
    apply filter_all. eapply List.Forall_impl; [|exact Hall]. cbn beta.
    intros e He. rewrite bool_decide_eq_false_2 by exact He. reflexivity. }
  rewrite H1, H2. reflexivity.
Qed.

(** Sorting a list that is in descending order leaves it as it is. *)
Lemma sort_desc_sorted_id {A} (key : A -> float) l :
  StronglySorted (fun x y => PrimFloat.leb (key y) (key x) = true) l ->
  sort_desc key l = l.
Proof.
  induction 1 as [|x l Hs IH Hx]; [reflexivity|].
  cbn [sort_desc fold_right]. fold (sort_desc key l). rewrite IH.
  destruct l as [|y l]; [reflexivity|]. cbn [insert_desc].
  apply Forall_cons in Hx as [Hxy _].
  destruct (F64Facts.leb_not_nan _ _ Hxy) as [Hy Hnx].
  rewrite F64Facts.ltb_negb_leb, Hxy by assumption. reflexivity.
Qed.

Section Ranked.

Variable console_print : string -> result unit.
Variable encode : list string -> option (list vector).
Variable argsort : list float -> list nat.
Hypothesis console_plain : prints_plain console_print.
Hypothesis argsort_sorts : sorts_ascending argsort.

(** The results of a pass are in descending order of their scores. *)
Lemma search_sorted st query top_k threshold language' category' res :
  search encode argsort st query top_k threshold language' category' = Ok res ->
  StronglySorted
    (fun e e' : DocumentChunk * float =>
       PrimFloat.leb (snd e') (snd e) = true) res.
Proof.
  intros H.
  destruct (search_Ok_scored argsort argsort_sorts _ _ _ _ _ _ _ _ H) as (sims
      & idxs & Hsc).
  destruct (search_ranked argsort argsort_sorts encode st query top_k
      language' category' _ _ Hsc)
    as (es & He & Hres).
  rewrite Hres in H. injection H as <-.
  apply (StronglySorted_weaken
           (fun e e' => F64.np_le (snd e') (snd e) = true)).
  - intros x y Hx _ Hxy. apply List.filter_In in Hx as [_ Hx].
    apply F64Facts.np_le_number; [exact Hxy|].
    eapply F64Facts.geb_not_nan, Hx.
  - apply StronglySorted_filter. apply (entries_sorted _ _ _ _ He).
    destruct (take_upto_split top_k (ranking argsort sims)) as [rest Hsplit].
    pose proof (ranking_sorted argsort argsort_sorts sims) as Hs. rewrite
        Hsplit in Hs.
    apply StronglySorted_app_1_l in Hs. exact Hs.
Qed.

(** With [0 <= refined_top_k <= broad_top_k] and
    [broad_threshold <= refined_threshold], the refined pass returns the
    first results of the broad pass. *)
Lemma refined_is_prefix st query broad_top_k refined_top_k
    broad_threshold refined_threshold broad :
  0 <= refined_top_k <= broad_top_k ->
  PrimFloat.leb broad_threshold refined_threshold = true ->
  search encode argsort st query broad_top_k broad_threshold None None = Ok
      broad ->
  exists refined rest,
    search encode argsort st query refined_top_k refined_threshold None None
    = Ok refined
    /\ broad = refined ++ rest.
Proof.
  intros Hk Ht Hb.
  pose proof (search_sorted _ _ _ _ _ _ _ Hb) as Hsorted.
  destruct (search_Ok_scored argsort argsort_sorts _ _ _ _ _ _ _ _ Hb) as
      (sims & idxs & Hsc).
  destruct (search_ranked argsort argsort_sorts encode st query broad_top_k
      None None _ _ Hsc)
    as (esb & Heb & Hresb).
  destruct (search_ranked argsort argsort_sorts encode st query refined_top_k
      None None _ _ Hsc)
    as (esr & Her & Hresr).
  rewrite Hresb in Hb. injection Hb as <-.
  rewrite (take_upto_take_upto refined_top_k broad_top_k) in Her by exact Hk.
  pose proof (Forall2_take _ _ _ (Z.to_nat refined_top_k) Heb) as Her'.
  rewrite (entries_functional _ _ _ _ _ Her Her') in Hresr.
  clear Her Her' esr.
  set (n := Z.to_nat refined_top_k) in *.
  rewrite <- (firstn_skipn n esb), List.filter_app in Hsorted |- *.
  exists (List.filter (at_least refined_threshold) (firstn n esb)).
  eexists. split; [apply Hresr|].
  apply StronglySorted_app_1_l in Hsorted.
  rewrite (threshold_splits _ refined_threshold Hsorted) at 1.
  rewrite filter_at_least_twice by exact Ht.
  rewrite <- app_assoc. reflexivity.
Qed.

(** With distinct chunk ids, [0 <= refined_top_k <= broad_top_k] and
    [broad_threshold <= refined_threshold] (the defaults, 5 of 20 and 0.5
    over 0.3, are such), the refined pass adds no result and moves none:
    whenever the console prints the line that names the query and the broad
    pass returns, the refined pass returns a prefix of it, and
    [multi_round_search] returns the results of the broad pass in the order
    of the broad pass, those of the prefix tagged 2 and the others
    tagged 1. *)
Theorem refined_pass_only_retags st query broad_top_k refined_top_k
    broad_threshold refined_threshold broad :
  Logger.info console_print (String.append "Multi-round search for: " query)
  = Ok tt ->
  List.NoDup (List.map chunk_id (_chunks st)) ->
  0 <= refined_top_k <= broad_top_k ->
  PrimFloat.leb broad_threshold refined_threshold = true ->
  search encode argsort st query broad_top_k broad_threshold None None = Ok
      broad ->
  exists refined rest,
    search encode argsort st query refined_top_k refined_threshold None None
    = Ok refined
    /\ broad = refined ++ rest
    /\ snd (multi_round_search console_print encode argsort st query
              broad_top_k refined_top_k broad_threshold refined_threshold)
       = Ok (List.map (tag 2) refined ++ List.map (tag 1) rest).
Proof.
  intros Hlog Hids Hk Ht Hb.
  destruct (refined_is_prefix _ _ _ _ _ _ _ Hk Ht Hb)
    as (refined & rest & Hr & Hsplit).
  exists refined, rest. split; [exact Hr|]. split; [exact Hsplit|].
  rewrite (ServiceFacts.multi_round_search_printed console_print encode
             argsort console_plain _ _ _ _ _ _ Hlog).
  unfold two_passes. rewrite Hb, Hr.
  destruct broad as [|b broad'].
  { destruct refined; [|discriminate]. destruct rest; [|discriminate].
    reflexivity. }
  cbn [snd]. f_equal.
  pose proof (search_ids_NoDup argsort argsort_sorts _ _ _ _ _ _ _ _ Hids Hb)
      as Hnd.
  pose proof (search_sorted _ _ _ _ _ _ _ Hb) as Hsorted.
  rewrite Hsplit in *. clear Hsplit.
  rewrite merge_prefix by exact Hnd.
  apply sort_desc_sorted_id.
  apply StronglySorted_app in Hsorted as (Hcross & Hs1 & Hs2).
  apply StronglySorted_app. split; [|split].
  - intros r r' Hin Hin'.
    apply list_elem_of_In, in_map_iff in Hin as (e & <- & He).
    apply list_elem_of_In, in_map_iff in Hin' as (e' & <- & He').
    apply (Hcross e e'); apply list_elem_of_In; assumption.
  - apply StronglySorted_map. exact Hs1.
  - apply StronglySorted_map. exact Hs2.
Qed.

End Ranked.

Lemma refined_pass_only_retags_witness :
  exists refined rest,
    search letter_model insertion_argsort small_index "a" 1 0.75 None None
    = Ok refined
    /\ [(c1, 1%float); (c0, 1%float); (cx, 0x1.6a09e667f3bccp-1%float)]
       = refined ++ rest
    /\ snd (multi_round_search strict_console letter_model insertion_argsort
              small_index "a" 5 1 0.5 0.75)
       = Ok (List.map (tag 2) refined ++ List.map (tag 1) rest).
Proof.
  apply (refined_pass_only_retags strict_console letter_model
           insertion_argsort ServiceFacts.strict_console_plain
           insertion_argsort_sorts small_index "a" 5 1 0.5 0.75).
  - vm_compute. reflexivity.
  - vm_compute. repeat constructor; cbn; intuition discriminate.
  - lia.
  - vm_compute. reflexivity.
  - vm_compute. reflexivity.
Defined.

End OrchestratorFacts.

(* ===================================================================== *)
(** * How header sections lie in the text *)
(* ===================================================================== *)

Module SectionFacts.

Import Chunker Py Notions MoreNotions CoverageFacts.

Lemma firstn_add {A} (l : list A) : forall a b,
  firstn (a + b) l = firstn a l ++ firstn b (skipn a l).
Proof.
  induction l as [|x l IH]; intros [|a] b; cbn; try reflexivity.
  - rewrite List.firstn_nil. reflexivity.
  - rewrite IH. reflexivity.
Qed.

(** The lines from [i] to [k] are those from [i] to [j] and then those
    from [j] to [k]. *)
Lemma lines_between_split (lines : list string) i j k :
  (i <= j <= k)%nat ->
  firstn (k - i) (skipn i lines)
  = firstn (j - i) (skipn i lines) ++ firstn (k - j) (skipn j lines).
Proof.
  intros H. replace (k - i)%nat with ((j - i) + (k - j))%nat by lia.
  rewrite firstn_add, List.skipn_skipn.
  replace (j - i + i)%nat with j by lia. reflexivity.
Qed.

Lemma lines_between_nest (lines : list string) i i' k' k :
  (i <= i')%nat -> (i' <= k')%nat -> (k' <= k)%nat ->
  run_of (firstn (k' - i') (skipn i' lines)) (firstn (k - i) (skipn i lines)).
Proof.
  intros H1 H2 H3.
  exists (firstn (i' - i) (skipn i lines)), (firstn (k - k') (skipn k' lines)).
  rewrite (lines_between_split lines i i' k) by lia.
  rewrite (lines_between_split lines i' k' k) by lia. reflexivity.
Qed.

Lemma find_earlier (P Q : header -> bool) l x :
  StronglySorted (fun h h' => (Chunker.index h < Chunker.index h')%nat) l ->
  List.find P l = Some x -> Q x = true ->
  exists y, List.find Q l = Some y
            /\ (Chunker.index y <= Chunker.index x)%nat.
Proof.
  induction 1 as [|z l Hs IH Hz]; cbn [List.find]; [discriminate|].
  intros HP HQ. destruct (P z) eqn:Pz.
  - injection HP as ->. rewrite HQ. eauto.
  - destruct (Q z) eqn:Qz.
    + exists z. split; [reflexivity|].
      apply List.find_some in HP as [Hin _].
      rewrite List.Forall_forall in Hz. apply Hz in Hin. lia.
    + apply IH; assumption.
Qed.

Lemma find_skips (P : header -> bool) a b :
  Forall (fun x => P x = false) a -> List.find P (a ++ b) = List.find P b.
Proof.
  induction 1 as [|x a Hx _ IH]; [reflexivity|].
  cbn [app List.find]. rewrite Hx. exact IH.
Qed.

Lemma find_stops (P : header -> bool) a b :
  Exists (fun x => P x = true) a ->
  exists y, List.find P (a ++ b) = Some y /\ In y a.
Proof.
  induction a as [|x a IH]; intros H; [inversion H|].
  cbn [app List.find]. destruct (P x) eqn:Px.
  - exists x. split; [reflexivity | left; reflexivity].
  - apply Exists_cons in H as [H|H]; [congruence|].
    destruct (IH H) as (y & Hy & Hin). exists y. split; [exact Hy|].
    right. exact Hin.
Qed.

(** Header sections nest or lie apart.  For a header [h] and a later
    header [h'] of a text: the section of [h'] starts after [h] and is not
    empty; when every header from [h] up to and including [h'] is deeper
    than [h], the section of [h'] ends within the section of [h], so the
    lines of the section of [h'] are a run of the lines of the section of
    [h] (the chunks of both sections carry them); and when some header
    after [h] up to [h'] is not deeper than [h], the section of [h] ends
    at or before the line of [h']. *)
Theorem header_sections_nest lines before h between h' after :
  scan_headers 0 lines = before ++ h :: between ++ h' :: after ->
  let n := List.length lines in
  let end_h := section_end n h (between ++ h' :: after) in
  let end_h' := section_end n h' after in
  (Chunker.index h < Chunker.index h' < end_h')%nat
  /\ (end_h' <= n)%nat
  /\ (Forall (fun x => level h < level x) (between ++ [h']) ->
      (end_h' <= end_h)%nat
      /\ run_of
           (firstn (end_h' - Chunker.index h') (skipn (Chunker.index h') lines))
           (firstn (end_h - Chunker.index h) (skipn (Chunker.index h) lines)))
  /\ (Exists (fun x => level x <= level h) (between ++ [h']) ->
      (end_h <= Chunker.index h')%nat).
Proof.
  intros Hscan n end_h end_h'.
  pose proof (scan_headers_sorted lines 0) as Hsorted.
  assert (Hbound : Forall (fun x => (Chunker.index x < n)%nat)
                     (scan_headers 0 lines)).
  { apply List.Forall_forall. intros x Hx.
    apply scan_headers_spec in Hx as [Hx _]. unfold n. lia. }
  rewrite Hscan in Hsorted, Hbound.
  apply StronglySorted_app_1_r in Hsorted.
  apply Forall_app in Hbound as [_ Hbound].
  apply StronglySorted_inv in Hsorted as [Hs_later Hh].
  apply Forall_cons in Hbound as [Hhn Hbound].
  pose proof Hs_later as Hs_rest.
  apply StronglySorted_app_1_r in Hs_rest.
  apply StronglySorted_inv in Hs_rest as [Hs_after Hh'].
  pose proof Hbound as Hbound'.
  apply Forall_app in Hbound' as [_ Hbound'].
  apply Forall_cons in Hbound' as [Hh'n Hafter].
  assert (Hhh' : (Chunker.index h < Chunker.index h')%nat).
  { rewrite List.Forall_forall in Hh. apply Hh.
    apply in_or_app. right. left. reflexivity. }
  assert (Hend' : (Chunker.index h' < end_h')%nat)
    by (apply section_end_after; assumption).
  assert (Hle' : (end_h' <= n)%nat) by (apply section_end_le; assumption).
  split; [lia|]. split; [exact Hle'|]. split.
  - intros Hdeep.
    assert (Hle : (end_h' <= end_h)%nat).
    { unfold end_h, end_h', section_end.
      replace (between ++ h' :: after) with ((between ++ [h']) ++ after)
        by (rewrite <- app_assoc; reflexivity).
      rewrite find_skips.
      2:{ eapply List.Forall_impl; [|exact Hdeep]. cbn beta.
          intros x Hx. apply Z.leb_gt, Hx. }
      destruct (List.find (fun x => level x <=? level h) after) as [x|] eqn:E.
      - destruct (find_earlier _ (fun x => level x <=? level h') _ _
                    Hs_after E) as (y & -> & Hy); [|exact Hy].
        apply List.find_some in E as [_ E]. apply Z.leb_le in E.
        apply Z.leb_le. apply Forall_app in Hdeep as [_ Hdeep].
        apply Forall_cons in Hdeep as [Hdeep _]. lia.
      - apply Hle'. }
    split; [exact Hle|]. apply lines_between_nest; lia.
  - intros Hshallow. unfold end_h, section_end.
    replace (between ++ h' :: after) with ((between ++ [h']) ++ after)
      by (rewrite <- app_assoc; reflexivity).
    destruct (find_stops (fun x => level x <=? level h) (between ++ [h'])
                after) as (y & -> & Hin).
    + eapply List.Exists_impl; [|exact Hshallow]. cbn beta.
      intros x Hx. apply Z.leb_le, Hx.
    + apply in_app_or in Hin as [Hin|[<-|[]]]; [|lia].
      apply StronglySorted_app in Hs_later as (Hcross & _ & _).
      assert (Chunker.index y < Chunker.index h')%nat; [|lia].
      apply (Hcross y h'); [apply list_elem_of_In, Hin|].
      apply list_elem_of_In. left. reflexivity.
Qed.

Lemma header_sections_nest_witness :
  (Forall (fun x => level (mk_header 0 "# A") < level x)
     ([] ++ [mk_header 2 "## B"]))
  /\ run_of ["## B"; "b"] ["# A"; "a"; "## B"; "b"].
Proof.
  assert (Hd : Forall (fun x => level (mk_header 0 "# A") < level x)
                 ([] ++ [mk_header 2 "## B"]))
    by (repeat constructor).
  split; [exact Hd|].
  exact (proj2 (proj1 (proj2 (proj2
           (header_sections_nest ["# A"; "a"; "## B"; "b"] []
              (mk_header 0 "# A") [] (mk_header 2 "## B") [] eq_refl)))
           Hd)).
Defined.

End SectionFacts.

(* ===================================================================== *)
(** * The statistics of the loaded documents *)
(* ===================================================================== *)

Module LoaderFacts.

Import Py Loader Notions MoreNotions.

Lemma sum_counts_count_up d key :
  sum_counts (count_up d key) = S (sum_counts d).
Proof.
  unfold sum_counts, count_up.
  assert (Hcomm : forall (m : gmap string nat) (j1 j2 : string)
                    (z1 z2 y : nat),
             j1 <> j2 -> m !! j1 = Some z1 -> m !! j2 = Some z2 ->
             (z1 + (z2 + y) = z2 + (z1 + y))%nat) by (intros; lia).
  destruct (d !! key) as [k|] eqn:E; cbn [default].
  - rewrite (map_fold_delete_L _ _ key k d (Hcomm d) E).
    rewrite <- (insert_delete_eq d).
    rewrite map_fold_insert_L;
      [unfold id; lia | apply Hcomm | apply lookup_delete_eq].
  - rewrite map_fold_insert_L; [lia | apply Hcomm | exact E].
Qed.

Lemma count_up_lookup d key key' :
  default 0%nat (count_up d key !! key')
  = ((if String.eqb key key' then 1 else 0)
     + default 0%nat (d !! key'))%nat.
Proof.
  unfold count_up. destruct (String.eqb_spec key key') as [->|Hne].
  - rewrite lookup_insert_eq. cbn. lia.
  - rewrite lookup_insert_ne by exact Hne. reflexivity.
Qed.

Lemma count_up_positive d key :
  map_Forall (fun _ k => (0 < k)%nat) d ->
  map_Forall (fun _ k => (0 < k)%nat) (count_up d key).
Proof.
  intros H. unfold count_up. apply map_Forall_insert_2; [lia | exact H].
Qed.

Lemma stats_fold documents : forall stats,
  let out := fold_left stats_step documents stats in
  total_documents out = total_documents stats
  /\ (forall key,
        default 0%nat (languages out !! key)
        = (default 0%nat (languages stats !! key)
           + count_where doc_language key documents)%nat)
  /\ (forall key,
        default 0%nat (categories out !! key)
        = (default 0%nat (categories stats !! key)
           + count_where doc_category key documents)%nat)
  /\ (map_Forall (fun _ k => (0 < k)%nat) (languages stats) ->
      map_Forall (fun _ k => (0 < k)%nat) (languages out))
  /\ (map_Forall (fun _ k => (0 < k)%nat) (categories stats) ->
      map_Forall (fun _ k => (0 < k)%nat) (categories out))
  /\ sum_counts (languages out)
     = (sum_counts (languages stats) + List.length documents)%nat
  /\ sum_counts (categories out)
     = (sum_counts (categories stats) + List.length documents)%nat
  /\ total_content_length out
     = total_content_length stats + sum_lengths documents
  /\ average_content_length out = average_content_length stats.
Proof.
  induction documents as [|doc documents IH]; intros stats; cbn zeta.
  - cbn [fold_left]. unfold count_where, sum_lengths. cbn.
    repeat split; auto; try lia.
  - cbn [fold_left].
    destruct (IH (stats_step stats doc))
      as (Ht & Hl & Hc & Hpl & Hpc & Hsl & Hsc & Hlen & Hav).
    rewrite Ht, Hsl, Hsc, Hlen, Hav. cbn [stats_step total_documents
      languages categories total_content_length average_content_length].
    rewrite !sum_counts_count_up.
    split; [reflexivity|]. split; [|split].
    + intros key. rewrite Hl. cbn [stats_step languages].
      rewrite count_up_lookup. unfold count_where. cbn [List.filter].
      destruct (String.eqb (doc_language doc) key); cbn [List.length]; lia.
    + intros key. rewrite Hc. cbn [stats_step categories].
      rewrite count_up_lookup. unfold count_where. cbn [List.filter].
      destruct (String.eqb (doc_category doc) key); cbn [List.length]; lia.
    + split; [intros H; apply Hpl, count_up_positive, H|].
      split; [intros H; apply Hpc, count_up_positive, H|].
      cbn [List.length sum_lengths fold_right].
      fold (sum_lengths documents).
      repeat split; lia.
Qed.

(** The statistics count every document once: [total_documents] is the
    number of documents; the count kept for a language (0 when the language
    is no key) is the number of documents in this language, and a language
    is a key only when some document has it; the counts of the languages add
    up to the number of documents; the same holds of the categories; and
    [total_content_length] is the sum of the lengths of the contents. *)
Theorem statistics_count_each_document documents :
  let stats := get_document_statistics documents in
  total_documents stats = List.length documents
  /\ (forall key,
        default 0%nat (languages stats !! key)
        = count_where doc_language key documents)
  /\ (forall key,
        default 0%nat (categories stats !! key)
        = count_where doc_category key documents)
  /\ (forall key,
        is_Some (languages stats !! key)
        <-> exists doc, In doc documents /\ doc_language doc = key)
  /\ (forall key,
        is_Some (categories stats !! key)
        <-> exists doc, In doc documents /\ doc_category doc = key)
  /\ sum_counts (languages stats) = List.length documents
  /\ sum_counts (categories stats) = List.length documents
  /\ total_content_length stats = sum_lengths documents.
Proof.
  cbn zeta.
  set (stats0 := {| total_documents := List.length documents;
                    languages := ∅; categories := ∅;
                    total_content_length := 0;
                    average_content_length := PrimFloat.zero |}).
  destruct (stats_fold documents stats0)
    as (Ht & Hl & Hc & Hpl & Hpc & Hsl & Hsc & Hlen & _).
  set (out := fold_left stats_step documents stats0) in *.
  assert (Hfields :
            total_documents (get_document_statistics documents)
            = total_documents out
            /\ languages (get_document_statistics documents) = languages out
            /\ categories (get_document_statistics documents)
               = categories out
            /\ total_content_length (get_document_statistics documents)
               = total_content_length out).
  { unfold get_document_statistics. fold stats0. fold out.
    destruct documents; repeat split; reflexivity. }
  destruct Hfields as (-> & -> & -> & ->).
  assert (Hkeys : forall (field : Document -> string) (d : gmap string nat),
            map_Forall (fun _ k => (0 < k)%nat) d ->
            (forall key,
               default 0%nat (d !! key) = count_where field key documents) ->
            forall key,
              is_Some (d !! key)
              <-> exists doc, In doc documents /\ field doc = key).
  { intros field d Hpos Hcount key. specialize (Hcount key).
    unfold count_where in Hcount. split.
    - intros [k Hk]. rewrite Hk in Hcount. cbn in Hcount.
      apply Hpos in Hk. cbn beta in Hk.
      destruct (List.filter _ documents) as [|doc l] eqn:E;
        [cbn in Hcount; lia|].
      assert (Hin : In doc (List.filter
                              (fun doc => String.eqb (field doc) key)
                              documents)) by (rewrite E; left; reflexivity).
      apply List.filter_In in Hin as [Hin Heq].
      exists doc. split; [exact Hin|]. apply String.eqb_eq, Heq.
    - intros (doc & Hin & Hkey).
      destruct (d !! key) as [k|] eqn:Hk; [eauto|]. cbn in Hcount.
      assert (Hin' : In doc (List.filter
                               (fun doc => String.eqb (field doc) key)
                               documents)).
      { apply List.filter_In. split; [exact Hin|].
        apply String.eqb_eq, Hkey. }
      destruct (List.filter _ documents); [contradiction|].
      cbn in Hcount. lia. }
  cbn [stats0 total_documents languages categories total_content_length]
    in *.
  split; [exact Ht|].
  split; [intros key; rewrite Hl, lookup_empty; reflexivity|].
  split; [intros key; rewrite Hc, lookup_empty; reflexivity|].
  split.
  { apply Hkeys; [apply Hpl, map_Forall_empty|].
    intros key. rewrite Hl, lookup_empty. reflexivity. }
  split.
  { apply Hkeys; [apply Hpc, map_Forall_empty|].
    intros key. rewrite Hc, lookup_empty. reflexivity. }
  unfold sum_counts in *. rewrite map_fold_empty in Hsl, Hsc.
  repeat split; lia.
Qed.

End LoaderFacts.

(* ===================================================================== *)
(** * Documents that yield no chunk *)
(* ===================================================================== *)

Module BlankFacts.

Import Chunker Py Processor Notions MoreNotions ChunkerFacts CoverageFacts.

Lemma forallb_rev {A} (f : A -> bool) l :
  forallb f (List.rev l) = forallb f l.
Proof.
  induction l as [|x l IH]; [reflexivity|]. cbn [List.rev forallb].
  rewrite forallb_app, IH. cbn. rewrite andb_true_r. apply andb_comm.
Qed.

Lemma forallb_exists_false {A} (f : A -> bool) l :
  forallb f l = false <-> exists x, In x l /\ f x = false.
Proof.
  induction l as [|y l IH]; cbn.
  - split; [discriminate | intros (x & [] & _)].
  - destruct (f y) eqn:E; cbn.
    + rewrite IH. split; intros (x & Hx & Hf); [eauto|].
      destruct Hx as [->|Hx]; [congruence | eauto].
    + split; [eauto | reflexivity].
Qed.

Lemma filter_none_blank ts :
  Forall (fun t => is_blank t = true) ts ->
  List.filter (fun t => negb (is_blank t)) ts = [].
Proof.
  induction 1 as [|t ts Ht _ IH]; [reflexivity|].
  cbn [List.filter]. rewrite Ht. exact IH.
Qed.

Lemma lstrip_by_empty p s :
  lstrip_by p s = EmptyString
  <-> forallb p (list_ascii_of_string s) = true.
Proof.
  induction s as [|c s IH]; cbn; [tauto|].
  destruct (p c); cbn; [exact IH|]. split; discriminate.
Qed.

Lemma lstrip_by_forallb p s :
  forallb p (list_ascii_of_string (lstrip_by p s))
  = forallb p (list_ascii_of_string s).
Proof.
  induction s as [|c s IH]; cbn; [reflexivity|].
  destruct (p c) eqn:E; cbn; [exact IH|]. rewrite E. reflexivity.
Qed.

Lemma rev_string_empty s : rev_string s = EmptyString <-> s = EmptyString.
Proof.
  unfold rev_string. split; [|intros ->; reflexivity].
  intros H. apply (f_equal list_ascii_of_string) in H.
  rewrite list_ascii_of_string_of_list_ascii in H. cbn in H.
  destruct s as [|c s]; [reflexivity|]. cbn in H.
  apply (f_equal (@List.length ascii)) in H.
  rewrite length_app in H. cbn in H. lia.
Qed.

(** A text is blank for [create_chunks] when all its characters are white
    space. *)
Lemma is_blank_all_space s : is_blank s = all_space s.
Proof.
  unfold is_blank, all_space, strip, strip_by, rstrip_by.
  destruct (forallb isspace (list_ascii_of_string s)) eqn:E.
  - apply lstrip_by_empty in E. rewrite E. reflexivity.
  - destruct (rev_string _) eqn:R; [|reflexivity].
    apply rev_string_empty, lstrip_by_empty in R.
    unfold rev_string in R.
    rewrite list_ascii_of_string_of_list_ascii, forallb_rev,
      lstrip_by_forallb in R.
    congruence.
Qed.

Lemma all_space_append a b :
  all_space (String.append a b) = all_space a && all_space b.
Proof. unfold all_space. rewrite list_ascii_append. apply forallb_app. Qed.

Lemma all_space_join ls :
  all_space (join_lines ls) = forallb all_space ls.
Proof.
  induction ls as [|l ls IH]; [reflexivity|].
  destruct ls as [|l' ls].
  - cbn. rewrite andb_true_r. reflexivity.
  - rewrite join_lines_cons by discriminate.
    rewrite all_space_append. cbn [forallb] in *. rewrite <- IH.
    reflexivity.
Qed.

Lemma scan_headers_is_header : forall ls i h,
  In h (scan_headers i ls) -> is_header (line h) = true.
Proof.
  induction ls as [|l ls IH]; intros i h H; cbn [scan_headers] in H;
    [contradiction|].
  apply in_app_or in H as [H|H]; [|eapply IH, H].
  destruct (is_header l) eqn:E; [|contradiction].
  destruct H as [<-|[]]. exact E.
Qed.

Lemma is_header_not_blank l : is_header l = true -> is_blank l = false.
Proof.
  unfold is_header, is_blank, startswith.
  destruct (strip l); [discriminate | reflexivity].
Qed.

Lemma simple_split_covers content cs co l :
  In l (split_lines content) ->
  line_in_chunks (_simple_split_chunks content cs co) l.
Proof.
  intros Hl. apply covered_flush.
  apply (covered_fold _ (simple_step_shape cs co)). auto.
Qed.

(** Some chunk holds a line that is not blank, unless every line is
    blank. *)
Lemma nonblank_line_in_chunks content cs co :
  is_blank content = false ->
  exists l, is_blank l = false
            /\ line_in_chunks (split_into_chunks content cs co) l.
Proof.
  intros Hcontent. unfold split_into_chunks.
  destruct (scan_headers 0 (split_lines content)) as [|h later] eqn:E;
    cbn [nonempty].
  - rewrite is_blank_all_space, <- (join_split_lines content),
      all_space_join in Hcontent.
    apply forallb_exists_false in Hcontent as (l & Hin & Hl).
    exists l. rewrite is_blank_all_space. split; [exact Hl|].
    apply simple_split_covers, Hin.
  - exists (line h). split.
    + apply is_header_not_blank.
      apply (scan_headers_is_header (split_lines content) 0).
      rewrite E. left. reflexivity.
    + pose proof (scan_headers_sorted (split_lines content) 0) as Hs.
      rewrite E in Hs. apply StronglySorted_inv in Hs as [_ Hlater].
      apply (section_chunks_cover _ _ _ _ _ (Chunker.index h)); [|lia|].
      * destruct (scan_headers_spec (split_lines content) 0 h) as [_ Hn];
          [rewrite E; left; reflexivity|].
        rewrite Nat.sub_0_r in Hn. exact Hn.
      * eapply List.Forall_impl; [|exact Hlater]. cbn beta. lia.
Qed.

(** A document yields no chunk exactly when its content is blank (empty, or
    white space only): [create_chunks] returns the empty list for such a
    document, and at least one chunk for every other, whatever the chunk
    size and overlap. *)
Theorem no_chunks_iff_blank settings document :
  create_chunks settings document = []
  <-> is_blank (doc_content document) = true.
Proof.
  unfold create_chunks. rewrite create_loop_numbered. cbn [app List.length].
  set (ts := split_into_chunks (doc_content document) (chunk_size settings)
               (chunk_overlap settings)).
  assert (Hkept : numbered document 0 (kept 0 ts) = []
                  <-> List.filter (fun t => negb (is_blank t)) ts = []).
  { rewrite <- (kept_texts ts 0).
    destruct (kept 0 ts) as [|[j t] l]; cbn; [tauto|].
    split; discriminate. }
  rewrite Hkept. split.
  - intros Hnone.
    destruct (is_blank (doc_content document)) eqn:Hb; [reflexivity|].
    destruct (nonblank_line_in_chunks _ (chunk_size settings)
                (chunk_overlap settings) Hb) as (l & Hl & run & Hin & Hrun).
    fold ts in Hrun.
    assert (Hchunk : is_blank (join_lines run) = false).
    { rewrite is_blank_all_space, all_space_join.
      apply forallb_exists_false. exists l.
      split; [exact Hin|]. rewrite <- is_blank_all_space. exact Hl. }
    assert (Hin' : In (join_lines run)
                     (List.filter (fun t => negb (is_blank t)) ts)).
    { apply List.filter_In. split; [exact Hrun|]. rewrite Hchunk.
      reflexivity. }
    rewrite Hnone in Hin'. contradiction.
  - intros Hb. apply filter_none_blank.
    pose proof (split_into_chunks_runs (doc_content document)
                  (chunk_size settings) (chunk_overlap settings)) as Hruns.
    fold ts in Hruns. eapply List.Forall_impl; [|exact Hruns]. cbn beta.
    intros c (run & (before & after & Hlines) & ->).
    rewrite is_blank_all_space, <- (join_split_lines (doc_content document)),
      all_space_join, Hlines, !forallb_app in Hb.
    apply andb_true_iff in Hb as [_ Hb].
    apply andb_true_iff in Hb as [Hb _].
    rewrite is_blank_all_space, all_space_join. exact Hb.
Qed.

End BlankFacts.

(* ===================================================================== *)
(** * Chunks as windows of the text *)
(* ===================================================================== *)

Module WindowFacts.

Import Chunker Py Notions MoreNotions ChunkerFacts CoverageFacts.

(** ** Chains *)

Lemma chained_snoc {A} (R : A -> A -> Prop) l a b :
  chained R (l ++ [a]) -> R a b -> chained R ((l ++ [a]) ++ [b]).
Proof.
  intros Hl Hab l1 x y l2 Heq.
  destruct l2 as [|z l2] using rev_ind.
  - change (l1 ++ [x; y]) with (l1 ++ [x] ++ [y]) in Heq.
    rewrite app_assoc in Heq.
    apply app_inj_tail in Heq as [Heq <-].
    apply app_inj_tail in Heq as [_ <-]. exact Hab.
  - clear IHl2. apply (Hl l1 x y l2).
    change (l1 ++ x :: y :: l2 ++ [z]) with (l1 ++ (x :: y :: l2) ++ [z])
      in Heq.
    rewrite app_assoc in Heq. apply app_inj_tail in Heq as [Heq _].
    exact Heq.
Qed.

Lemma chained_last {A} (R : A -> A -> Prop) l a a' :
  chained R (l ++ [a]) -> (forall z, R z a -> R z a') ->
  chained R (l ++ [a']).
Proof.
  intros Hl Himp l1 x y l2 Heq.
  destruct l2 as [|z l2] using rev_ind.
  - change (l1 ++ [x; y]) with (l1 ++ [x] ++ [y]) in Heq.
    rewrite app_assoc in Heq.
    apply app_inj_tail in Heq as [-> <-].
    apply Himp. apply (Hl l1 x a []). rewrite <- app_assoc. reflexivity.
  - clear IHl2.
    change (l1 ++ x :: y :: l2 ++ [z]) with (l1 ++ (x :: y :: l2) ++ [z])
      in Heq.
    rewrite app_assoc in Heq. apply app_inj_tail in Heq as [-> _].
    apply (Hl l1 x y (l2 ++ [a])). rewrite <- app_assoc. reflexivity.
Qed.

Lemma chained_single {A} (R : A -> A -> Prop) a : chained R [a].
Proof. intros [|x [|y l1]] a' b l2 H; discriminate. Qed.

Lemma chained_nil {A} (R : A -> A -> Prop) : chained R [].
Proof. intros [|x l1] a b l2 H; discriminate. Qed.

Lemma chained_cons_inv {A} (R : A -> A -> Prop) a b l :
  chained R (a :: b :: l) -> R a b /\ chained R (b :: l).
Proof.
  intros H. split; [apply (H [] a b l eq_refl)|].
  intros l1 x y l2 Heq. apply (H (a :: l1) x y l2). rewrite Heq. reflexivity.
Qed.

Lemma chained_impl {A} (R R' : A -> A -> Prop) l :
  (forall a b, R a b -> R' a b) -> chained R l -> chained R' l.
Proof. intros Himp H l1 a b l2 Heq. eapply Himp, H, Heq. Qed.

Lemma chained_map {A B} (R : A -> A -> Prop) (R' : B -> B -> Prop)
    (f : A -> B) l :
  (forall a b, R a b -> R' (f a) (f b)) ->
  chained R l -> chained R' (List.map f l).
Proof.
  intros Himp H l1 x y l2 Heq.
  apply map_eq_app in Heq as (k1 & k2 & -> & <- & Heq).
  destruct k2 as [|a [|b k2]]; try discriminate.
  cbn in Heq. injection Heq as <- <- _.
  apply Himp. apply (H k1 a b k2 eq_refl).
Qed.

(** ** Windows *)

Lemma window_length lines o n :
  (o + n <= List.length lines)%nat ->
  List.length (window lines (o, n)) = n.
Proof.
  intros H. unfold window; cbn [fst snd].
  rewrite length_firstn, length_skipn. lia.
Qed.

Lemma firstn_snoc {A} (l : list A) : forall n x,
  nth_error l n = Some x -> firstn (S n) l = firstn n l ++ [x].
Proof.
  induction l as [|y l IH]; intros [|n] x H; cbn in H; try discriminate.
  - injection H as ->. reflexivity.
  - cbn [firstn app]. f_equal. apply IH, H.
Qed.

Lemma window_snoc lines o n x :
  nth_error lines (o + n) = Some x ->
  window lines (o, S n) = window lines (o, n) ++ [x].
Proof.
  intros H. unfold window; cbn [fst snd]. apply firstn_snoc.
  rewrite nth_error_skipn. exact H.
Qed.

Lemma window_app lines o n p w :
  window lines (o, n) = p ++ w ->
  (o + n <= List.length lines)%nat ->
  (List.length p <= n)%nat
  /\ p = window lines (o, List.length p)
  /\ w = window lines (o + List.length p, n - List.length p)%nat.
Proof.
  intros H Hn.
  assert (Hlen : (List.length p <= n)%nat).
  { apply (f_equal (@List.length string)) in H.
    rewrite window_length, length_app in H by exact Hn. lia. }
  split; [exact Hlen|]. unfold window in *; cbn [fst snd] in *. split.
  - apply (f_equal (firstn (List.length p))) in H.
    rewrite firstn_firstn, firstn_app, firstn_all, Nat.sub_diag in H.
    cbn [firstn] in H. rewrite app_nil_r in H.
    rewrite Nat.min_l in H by exact Hlen. symmetry. exact H.
  - apply (f_equal (skipn (List.length p))) in H.
    rewrite skipn_firstn_comm, skipn_app, skipn_all, Nat.sub_diag in H.
    cbn [skipn app] in H. rewrite skipn_skipn in H.
    rewrite (Nat.add_comm o). symmetry. exact H.
Qed.

Lemma window_last lines o m p' l :
  window lines (o, m) = p' ++ [l] ->
  (o + m <= List.length lines)%nat ->
  nth (o + m - 1) lines EmptyString = l.
Proof.
  intros H Hn.
  assert (Hm : m = S (List.length p')).
  { apply (f_equal (@List.length string)) in H.
    rewrite window_length, length_app in H by exact Hn. cbn in H. lia. }
  subst m. apply nth_error_nth.
  replace (o + S (List.length p') - 1)%nat with (o + List.length p')%nat
    by lia.
  unfold window in H; cbn [fst snd] in H.
  apply (f_equal (fun l' => nth_error l' (List.length p'))) in H.
  rewrite nth_error_firstn, nth_error_skipn in H.
  rewrite nth_error_app2, Nat.sub_diag in H by lia.
  cbn [nth_error] in H.
  destruct (Nat.ltb_spec (List.length p') (S (List.length p')));
    [exact H | lia].
Qed.

Lemma window_window lines s m o n :
  (o + n <= m)%nat ->
  window (window lines (s, m)) (o, n) = window lines (s + o, n)%nat.
Proof.
  intros H. unfold window; cbn [fst snd].
  rewrite skipn_firstn_comm, firstn_firstn, skipn_skipn.
  rewrite Nat.min_l by lia. rewrite (Nat.add_comm o s). reflexivity.
Qed.

(** ** What the loops keep true *)

Section Loops.

Variable lines : list string.
Variable co : Z.
Variable L : nat * nat -> nat * nat -> Prop.
Variable step : acc -> string -> acc.

(** The shared lines are judged at the start of the window. *)
Hypothesis L_grows : forall a o n, L a (o, n) -> L a (o, S n).

(** A step appends the line, or emits the chunk in hand, which is not
    empty, and starts the next one with a window [w] from its end. *)
Hypothesis step_cases : forall a x o n,
  current_chunk a = window lines (o, n) ->
  (o + n < List.length lines)%nat ->
  nth_error lines (o + n) = Some x ->
  step a x = push_line a x
  \/ exists p w sz,
       current_chunk a = p ++ w /\ current_chunk a <> []
       /\ lines_size w <= Z.max 0 co
       /\ L (o, n) (o + List.length p, S n - List.length p)%nat
       /\ step a x
          = Acc (chunks a ++ [join_lines (current_chunk a)]) (w ++ [x]) sz.

Lemma windows_inv_step k a x :
  nth_error lines k = Some x ->
  windows_inv lines co L k a -> windows_inv lines co L (S k) (step a x).
Proof.
  intros Hx (ws & o & Hchunks & Hcur & Hok & Hpos & Hchain & Hall & Hfirst).
  assert (Hk : (k < List.length lines)%nat)
    by (apply nth_error_Some; congruence).
  assert (Hx' : nth_error lines (o + (k - o)) = Some x)
    by (replace (o + (k - o))%nat with k by lia; exact Hx).
  assert (Hall' : Forall (fun w => (0 < snd w)%nat
                                   /\ (fst w + snd w <= S k)%nat) ws).
  { eapply List.Forall_impl; [|exact Hall]. cbn beta. lia. }
  destruct (step_cases a x o (k - o)%nat Hcur ltac:(lia) Hx')
    as [->|(p & w & sz & Hsplit & Hne & Hsize & HL & ->)].
  - exists ws, o. cbn [push_line chunks current_chunk].
    split; [exact Hchunks|]. split.
    { rewrite Hcur. replace (S k - o)%nat with (S (k - o)) by lia.
      symmetry. apply window_snoc, Hx'. }
    split; [lia|]. split; [lia|]. split; [|auto].
    apply (chained_last _ _ _ _ Hchain).
    intros z [(Hstart & Hend & Hsh) Hz]. cbn [fst snd] in *.
    replace (S k - o)%nat with (S (k - o)) by lia.
    split; [|apply L_grows, Hz].
    unfold follows, shared in *. cbn [fst snd] in *.
    repeat split; try lia; exact Hsh.
  - rewrite Hsplit in Hcur.
    destruct (window_app lines o (k - o) p w (eq_sym Hcur) ltac:(lia))
      as (Hp & _ & Hw).
    assert (Hlen : (0 < k - o)%nat).
    { assert (Hl : List.length (p ++ w) = (k - o)%nat)
        by (rewrite Hcur; apply window_length; lia).
      rewrite <- Hsplit in Hl. destruct (current_chunk a); [congruence|].
      cbn in Hl. lia. }
    exists (ws ++ [(o, k - o)%nat]), (o + List.length p)%nat.
    cbn [chunks current_chunk].
    split.
    { rewrite List.map_app, Hchunks. cbn [List.map]. unfold chunk_at.
      rewrite <- Hcur, Hsplit. reflexivity. }
    split.
    { rewrite Hw.
      replace (S k - (o + List.length p))%nat
        with (S (k - o - List.length p)) by lia.
      symmetry. apply window_snoc.
      replace (o + List.length p + (k - o - List.length p))%nat with k by lia.
      exact Hx. }
    split; [lia|]. split; [lia|]. split; [|split].
    + apply chained_snoc; [exact Hchain|]. split.
      * unfold follows, shared. cbn [fst snd]. split; [lia|]. split; [lia|].
        replace (o + (k - o) - (o + List.length p))%nat
          with (k - o - List.length p)%nat by lia.
        rewrite <- Hw. exact Hsize.
      * replace (S k - (o + List.length p))%nat
          with (S (k - o) - List.length p)%nat by lia.
        exact HL.
    + apply Forall_app. split; [exact Hall'|].
      constructor; [cbn [fst snd]; lia | constructor].
    + destruct ws as [|w0 ws]; cbn [app hd fst] in *; [exact Hfirst|].
      exact Hfirst.
Qed.

Lemma windows_inv_fold : forall rest k a,
  (k <= List.length lines)%nat ->
  skipn k lines = rest ->
  windows_inv lines co L k a ->
  windows_inv lines co L (List.length lines) (fold_left step rest a).
Proof.
  induction rest as [|x rest IH]; intros k a Hk Hrest H; cbn [fold_left].
  - apply (f_equal (@List.length string)) in Hrest.
    rewrite length_skipn in Hrest. cbn in Hrest.
    replace (List.length lines) with k by lia. exact H.
  - assert (Hx : nth_error lines k = Some x).
    { rewrite <- (Nat.add_0_r k), <- nth_error_skipn, Hrest. reflexivity. }
    assert (Hlt : (k < List.length lines)%nat)
      by (apply nth_error_Some; congruence).
    apply (IH (S k)); [lia| |apply windows_inv_step; assumption].
    rewrite <- (Nat.add_1_l k), <- skipn_skipn, Hrest. reflexivity.
Qed.

(** The chunks of a loop are windows of the text, each following the one
    before; the first starts with the first line and the last ends with
    the last line. *)
Lemma loop_windows :
  exists ws,
    flush (fold_left step lines acc0) = List.map (chunk_at lines) ws
    /\ Forall (in_text lines) ws
    /\ chained (fun x y => follows lines co x y /\ L x y) ws
    /\ (lines <> [] ->
        fst (hd (0, 0)%nat ws) = 0%nat
        /\ (fst (List.last ws (0, 0)) + snd (List.last ws (0, 0))
            = List.length lines)%nat).
Proof.
  destruct (windows_inv_fold lines 0 acc0 ltac:(lia) eq_refl)
    as (ws & o & Hchunks & Hcur & Hok & Hpos & Hchain & Hall & Hfirst).
  { exists [], 0%nat. split; [reflexivity|]. split; [reflexivity|].
    split; [lia|]. split; [lia|]. split; [apply chained_single|].
    split; [constructor | reflexivity]. }
  set (a := fold_left step lines acc0) in *.
  set (n := List.length lines) in *.
  assert (Hall' : Forall (in_text lines) ws).
  { eapply List.Forall_impl; [|exact Hall]. unfold in_text. cbn beta.
    fold n. lia. }
  destruct (Nat.eq_dec n 0%nat) as [Hn|Hn].
  - assert (Hws : ws = []).
    { destruct ws as [|w ws]; [reflexivity|].
      apply Forall_cons in Hall as [Hw _]. lia. }
    subst ws. exists []. unfold flush. rewrite Hcur.
    replace (n - o)%nat with 0%nat by lia. cbn.
    split; [exact Hchunks|]. split; [constructor|].
    split; [apply chained_nil|].
    intros Hne. destruct lines; [congruence | discriminate].
  - exists (ws ++ [(o, n - o)%nat]). unfold flush.
    assert (Hlen : List.length (current_chunk a) = (n - o)%nat)
      by (rewrite Hcur; apply window_length; fold n; lia).
    destruct (current_chunk a) as [|c cc] eqn:E; [cbn in Hlen; lia|].
    cbn [nonempty]. split.
    { rewrite List.map_app, Hchunks. cbn [List.map]. unfold chunk_at.
      rewrite <- Hcur. reflexivity. }
    split.
    { apply Forall_app. split; [exact Hall'|].
      constructor; [|constructor]. unfold in_text. cbn [fst snd].
      fold n. lia. }
    split; [exact Hchain|]. intros _. split.
    + destruct ws as [|w0 ws]; cbn [app hd fst] in *; exact Hfirst.
    + rewrite List.last_last. cbn [fst snd]. lia.
Qed.

End Loops.

(** A chain of windows that starts at or before the line [i] and ends after
    it has a window with the line [i]. *)
Lemma chain_covers lines co (L : nat * nat -> nat * nat -> Prop) i :
  forall ws,
    ws <> [] ->
    chained (fun x y => follows lines co x y /\ L x y) ws ->
    (fst (hd (0, 0) ws) <= i)%nat ->
    (i < fst (List.last ws (0, 0)) + snd (List.last ws (0, 0)))%nat ->
    Exists (covers i) ws.
Proof.
  induction ws as [|a ws IH]; intros Hne Hchain Hfirst Hlast; [congruence|].
  destruct ws as [|b ws].
  - left. unfold covers. cbn in *. lia.
  - apply chained_cons_inv in Hchain as [[(Hstart & _) _] Hchain].
    destruct (Nat.lt_ge_cases i (fst a + snd a)) as [Hin|Hout].
    + left. unfold covers. cbn in Hfirst. lia.
    + right. apply IH; [discriminate | exact Hchain | cbn; lia|].
      exact Hlast.
Qed.

(** ** The two loops *)

Lemma longest_simple_grows lines co a o n :
  longest_simple lines co a (o, n) -> longest_simple lines co a (o, S n).
Proof. exact (fun H => H). Qed.

Lemma longest_large_grows lines co a o n :
  longest_large lines co a (o, n) -> longest_large lines co a (o, S n).
Proof. exact (fun H => H). Qed.

Lemma simple_step_cases lines cs co a x o n :
  current_chunk a = window lines (o, n) ->
  (o + n < List.length lines)%nat ->
  nth_error lines (o + n) = Some x ->
  simple_step cs co a x = push_line a x
  \/ exists p w sz,
       current_chunk a = p ++ w /\ current_chunk a <> []
       /\ lines_size w <= Z.max 0 co
       /\ longest_simple lines co (o, n)
            (o + List.length p, S n - List.length p)%nat
       /\ simple_step cs co a x
          = Acc (chunks a ++ [join_lines (current_chunk a)]) (w ++ [x]) sz.
Proof.
  intros Hcur Hn Hx. unfold simple_step.
  destruct (size_cut a x cs) eqn:Hs; [right|left; reflexivity].
  destruct (overlap_simple_spec (current_chunk a) co)
    as (p & w & Hw & Hsplit & Hsize & Hmax).
  exists p, w, (lines_size w + (len x + 1)).
  split; [exact Hsplit|]. split.
  { unfold size_cut in Hs. apply andb_true_iff in Hs as [_ Hs].
    destruct (current_chunk a); [discriminate | congruence]. }
  split; [exact Hsize|]. split; [|rewrite Hw; reflexivity].
  rewrite Hsplit in Hcur.
  destruct (window_app lines o n p w (eq_sym Hcur) ltac:(lia))
    as (Hlen & Hp & Hwin).
  unfold longest_simple, shared, line_before. cbn [fst snd].
  destruct Hmax as [->|(p' & l & Hp' & Hno)]; [left; cbn; lia|].
  right.
  replace (o + n - (o + List.length p))%nat with (n - List.length p)%nat
    by lia.
  rewrite <- Hwin.
  rewrite (window_last lines o (List.length p) p' l); [exact Hno| |lia].
  rewrite <- Hp. exact Hp'.
Qed.

Lemma large_step_cases lines cs co a x o n :
  current_chunk a = window lines (o, n) ->
  (o + n < List.length lines)%nat ->
  nth_error lines (o + n) = Some x ->
  large_step cs co a x = push_line a x
  \/ exists p w sz,
       current_chunk a = p ++ w /\ current_chunk a <> []
       /\ lines_size w <= Z.max 0 co
       /\ longest_large lines co (o, n)
            (o + List.length p, S n - List.length p)%nat
       /\ large_step cs co a x
          = Acc (chunks a ++ [join_lines (current_chunk a)]) (w ++ [x]) sz.
Proof.
  intros Hcur Hn Hx.
  assert (Hlen : List.length (current_chunk a) = n)
    by (rewrite Hcur; apply window_length; lia).
  destruct (header_cut a x cs) eqn:Hh.
  - right. exists (current_chunk a), [], (len x + 1).
    rewrite app_nil_r. split; [reflexivity|].
    unfold header_cut in Hh. apply andb_true_iff in Hh as [Hh Hsz].
    apply andb_true_iff in Hh as [Hsub Hne].
    split; [destruct (current_chunk a); [discriminate | congruence]|].
    split; [cbn; lia|]. split.
    + unfold longest_large, shared. cbn [fst snd]. rewrite Hlen.
      replace (o + n - (o + n))%nat with 0%nat by lia.
      split; [lia|]. right. right. split; [reflexivity|].
      rewrite (nth_error_nth _ _ _ Hx). exact Hsub.
    + apply large_step_header_cut. unfold header_cut.
      rewrite Hsub, Hne, Hsz. reflexivity.
  - destruct (size_cut a x cs) eqn:Hs;
      [right | left; apply large_step_no_cut; assumption].
    assert (Hne : current_chunk a <> []).
    { unfold size_cut in Hs. apply andb_true_iff in Hs as [_ Hs].
      destruct (current_chunk a); [discriminate | congruence]. }
    destruct (overlap_large_spec (current_chunk a) co Hne)
      as (p & w & Hw & Hsplit & Hsize & Hcap & _ & Hmax).
    exists p, w, (lines_size w + (len x + 1)).
    split; [exact Hsplit|]. split; [exact Hne|]. split; [exact Hsize|].
    split.
    + rewrite Hsplit in Hcur.
      destruct (window_app lines o n p w (eq_sym Hcur) ltac:(lia))
        as (Hpn & Hp & Hwin).
      assert (Hwn : List.length w = (n - List.length p)%nat).
      { rewrite Hsplit, length_app in Hlen. lia. }
      unfold longest_large, shared, line_before. cbn [fst snd].
      replace (o + n - (o + List.length p))%nat with (n - List.length p)%nat
        by lia.
      rewrite <- Hwn. split; [exact Hcap|].
      destruct Hmax as [Hall|(p' & l & Hp' & Hno)].
      * left. rewrite Hall, Hlen. reflexivity.
      * right. left. rewrite Hwn, <- Hwin.
        rewrite (window_last lines o (List.length p) p' l);
          [exact Hno| |lia].
        rewrite <- Hp. exact Hp'.
    + rewrite large_step_size_cut by assumption. rewrite Hw. reflexivity.
Qed.


Lemma loop_covers lines co (L : nat * nat -> nat * nat -> Prop) step :
  (forall a o n, L a (o, n) -> L a (o, S n)) ->
  (forall a x o n,
     current_chunk a = window lines (o, n) ->
     (o + n < List.length lines)%nat ->
     nth_error lines (o + n) = Some x ->
     step a x = push_line a x
     \/ exists p w sz,
          current_chunk a = p ++ w /\ current_chunk a <> []
          /\ lines_size w <= Z.max 0 co
          /\ L (o, n) (o + List.length p, S n - List.length p)%nat
          /\ step a x
             = Acc (chunks a ++ [join_lines (current_chunk a)]) (w ++ [x])
                   sz) ->
  exists ws,
    flush (fold_left step lines acc0) = List.map (chunk_at lines) ws
    /\ Forall (in_text lines) ws
    /\ (lines <> [] -> fst (hd (0, 0)%nat ws) = 0%nat)
    /\ forall i, (i < List.length lines)%nat -> Exists (covers i) ws.
Proof.
  intros Hgrows Hcases.
  destruct (loop_windows lines co L step Hgrows Hcases)
    as (ws & Hout & Hin & Hchain & Hends).
  exists ws. split; [exact Hout|]. split; [exact Hin|].
  split; [intros Hne; apply Hends, Hne|].
  intros i Hi.
  assert (Hne : lines <> []) by (destruct lines; [cbn in Hi; lia | discriminate]).
  destruct (Hends Hne) as [Hfirst Hlast].
  apply (chain_covers lines co L i ws); [|exact Hchain|lia|lia].
  intros ->. cbn in Hlast. lia.
Qed.

(** Neither loop drops a line, by position in the text.  The chunks of
    [_simple_split_chunks] are, one for one and in order, windows of the
    lines of the text that lie in the text, and every line of the text,
    taken by its position, is in one of these windows; the same holds of
    [_split_large_section] and the lines of the section. *)
Theorem split_loops_cover_lines cs co content section_lines :
  (exists ws,
     _simple_split_chunks content cs co
     = List.map (chunk_at (split_lines content)) ws
     /\ Forall (in_text (split_lines content)) ws
     /\ forall i,
          (i < List.length (split_lines content))%nat ->
          Exists (covers i) ws)
  /\ (exists ws,
        _split_large_section section_lines cs co
        = List.map (chunk_at section_lines) ws
        /\ Forall (in_text section_lines) ws
        /\ forall i,
             (i < List.length section_lines)%nat -> Exists (covers i) ws).
Proof.
  split.
  - destruct (loop_covers (split_lines content) co
                (longest_simple (split_lines content) co)
                (simple_step cs co)
                (longest_simple_grows _ _)
                (simple_step_cases _ cs co))
      as (ws & Hout & Hin & _ & Hcover).
    exists ws. auto.
  - destruct (loop_covers section_lines co
                (longest_large section_lines co)
                (large_step cs co)
                (longest_large_grows _ _)
                (large_step_cases _ cs co))
      as (ws & Hout & Hin & _ & Hcover).
    exists ws. auto.
Qed.

(** ** Texts with headers *)

(** The chunks of one header are windows of the text that start at the
    header line and hold every line of its section. *)
Lemma section_windows lines h later cs co :
  (Chunker.index h < section_end (List.length lines) h later)%nat ->
  (section_end (List.length lines) h later <= List.length lines)%nat ->
  exists ws,
    sections lines (h :: later) cs co
    = List.map (chunk_at lines) ws ++ sections lines later cs co
    /\ Forall (fun w => in_text lines w /\ (Chunker.index h <= fst w)%nat) ws
    /\ fst (hd (0, 0)%nat ws) = Chunker.index h
    /\ ws <> []
    /\ forall i,
         (Chunker.index h <= i < section_end (List.length lines) h later)%nat ->
         Exists (covers i) ws.
Proof.
  intros Hlt Hle.
  set (s := Chunker.index h) in *.
  set (e := section_end (List.length lines) h later) in *.
  destruct (sections_cons lines h later cs co) as (sl & Hsl & ->).
  fold s e in Hsl.
  assert (Hsl' : sl = window lines (s, e - s)%nat) by exact Hsl.
  assert (Hlen : List.length sl = (e - s)%nat)
    by (rewrite Hsl'; apply window_length; lia).
  destruct (F64.int_gt_scaled _ cs F64.f1_5).
  - destruct (loop_covers sl co (longest_large sl co) (large_step cs co)
                (longest_large_grows _ _) (large_step_cases _ cs co))
      as (ws & Hout & Hin & Hfirst & Hcover).
    assert (Hne : sl <> [])
      by (intros ->; cbn in Hlen; lia).
    assert (Hws : ws <> []).
    { intros ->. specialize (Hcover 0%nat ltac:(lia)). inversion Hcover. }
    exists (List.map (shift s) ws). split; [|split; [|split; [|split]]].
    + f_equal. unfold _split_large_section. rewrite Hout, List.map_map.
      apply List.map_ext_in. intros w Hw.
      rewrite List.Forall_forall in Hin. destruct (Hin w Hw) as [_ Hb].
      unfold chunk_at, shift. rewrite Hsl'.
      destruct w as [o n]. cbn [fst snd] in *.
      rewrite window_window by lia. reflexivity.
    + apply List.Forall_forall. intros w Hw.
      apply in_map_iff in Hw as (w' & <- & Hw').
      rewrite List.Forall_forall in Hin. destruct (Hin w' Hw') as [Hpos Hb].
      unfold in_text, shift. cbn [fst snd]. lia.
    + specialize (Hfirst Hne). destruct ws as [|w ws]; [congruence|].
      cbn in *. lia.
    + destruct ws as [|w ws]; [congruence | discriminate].
    + intros i Hi. specialize (Hcover (i - s)%nat ltac:(lia)).
      apply List.Exists_exists in Hcover as (w & Hw & Hc).
      apply List.Exists_exists. exists (shift s w).
      split; [apply in_map, Hw|]. unfold covers, shift in *.
      cbn [fst snd]. lia.
  - exists [(s, e - s)%nat]. split; [|split; [|split; [|split]]].
    + cbn [List.map app]. unfold chunk_at. rewrite <- Hsl'. reflexivity.
    + constructor; [|constructor]. unfold in_text. cbn [fst snd]. lia.
    + reflexivity.
    + discriminate.
    + intros i Hi. left. unfold covers. cbn [fst snd]. lia.
Qed.

Lemma sections_windows lines cs co : forall hs,
  StronglySorted (fun h h' => (Chunker.index h < Chunker.index h')%nat) hs ->
  Forall (fun h => (Chunker.index h < List.length lines)%nat) hs ->
  exists ws,
    sections lines hs cs co = List.map (chunk_at lines) ws
    /\ Forall
         (fun w =>
            in_text lines w
            /\ exists h, In h hs /\ (Chunker.index h <= fst w)%nat) ws
    /\ (forall h later, hs = h :: later ->
          fst (hd (0, 0)%nat ws) = Chunker.index h)
    /\ forall before h later i,
         hs = before ++ h :: later ->
         (Chunker.index h <= i
          < section_end (List.length lines) h later)%nat ->
         Exists (covers i) ws.
Proof.
  induction hs as [|h hs IH]; intros Hs Hb.
  - exists []. split; [reflexivity|]. split; [constructor|].
    split; [discriminate|]. intros [|x before] h later i H; discriminate.
  - apply StronglySorted_inv in Hs as [Hs Hh].
    apply Forall_cons in Hb as [Hhn Hb].
    destruct (IH Hs Hb) as (ws' & Hout' & Hin' & _ & Hcover').
    destruct (section_windows lines h hs cs co)
      as (ws & Hout & Hin & Hfirst & Hne & Hcover).
    { apply section_end_after; [exact Hhn | exact Hh]. }
    { apply section_end_le, Hb. }
    exists (ws ++ ws'). split; [|split; [|split]].
    + rewrite Hout, Hout', List.map_app. reflexivity.
    + apply Forall_app. split.
      * eapply List.Forall_impl; [|exact Hin]. cbn beta.
        intros w [Hw Hle]. split; [exact Hw|].
        exists h. split; [left; reflexivity | exact Hle].
      * eapply List.Forall_impl; [|exact Hin']. cbn beta.
        intros w [Hw (h' & Hh' & Hle)]. split; [exact Hw|].
        exists h'. split; [right; exact Hh' | exact Hle].
    + intros h0 later [= <- <-].
      destruct ws as [|w ws]; [congruence | exact Hfirst].
    + intros [|x before] h0 later i Heq Hi; cbn [app] in Heq;
        injection Heq as <- Heq; apply List.Exists_app.
      * subst hs. left. apply Hcover, Hi.
      * right. apply (Hcover' before h0 later i Heq Hi).
Qed.

(** On a text whose first header line is [h], after the lines [preamble]:
    the first chunk of [split_into_chunks] starts with [h]; every chunk is
    a run of the lines from [h] on; and, by position in the text, the
    chunks are, one for one and in order, windows of the lines of the text
    that lie in the text, none of which starts before [h], the first of
    which starts at [h], and every line from [h] on, taken by its position,
    is in one of these windows.  So nothing of the preamble is in any chunk
    and no line after it is dropped. *)
Theorem split_with_headers_covers content cs co preamble h tail :
  split_lines content = preamble ++ h :: tail ->
  Forall (fun l => is_header l = false) preamble ->
  is_header h = true ->
  (exists first more,
     split_into_chunks content cs co = join_lines (h :: first) :: more)
  /\ Forall
       (fun c => exists run, run_of run (h :: tail) /\ c = join_lines run)
       (split_into_chunks content cs co)
  /\ exists ws,
       split_into_chunks content cs co
       = List.map (chunk_at (split_lines content)) ws
       /\ Forall
            (fun w =>
               in_text (split_lines content) w
               /\ (List.length preamble <= fst w)%nat) ws
       /\ fst (hd (0, 0)%nat ws) = List.length preamble
       /\ forall i,
            (List.length preamble <= i
             < List.length (split_lines content))%nat ->
            Exists (covers i) ws.
Proof.
  intros Hlines Hpre Hh.
  set (i0 := List.length preamble).
  assert (Hscan : scan_headers 0 (split_lines content)
                  = mk_header i0 h :: scan_headers (S i0) tail).
  { rewrite Hlines, scan_headers_app, (scan_headers_none _ _ Hpre).
    cbn [app scan_headers]. rewrite Hh. reflexivity. }
  assert (Hskip : skipn i0 (split_lines content) = h :: tail).
  { unfold i0. rewrite Hlines, skipn_app, skipn_all, Nat.sub_diag.
    reflexivity. }
  assert (Hsplit : split_into_chunks content cs co
                   = sections (split_lines content)
                       (mk_header i0 h :: scan_headers (S i0) tail) cs co).
  { unfold split_into_chunks. rewrite Hscan. reflexivity. }
  assert (Hlen : List.length (split_lines content)
                 = (i0 + S (List.length tail))%nat).
  { rewrite Hlines, length_app. reflexivity. }
  assert (Hlater : Forall
            (fun h' => (i0 < Chunker.index h' < List.length (split_lines content))%nat)
            (scan_headers (S i0) tail)).
  { apply List.Forall_forall. intros h' Hin.
    apply scan_headers_spec in Hin as [Hin _]. lia. }
  rewrite Hsplit. split; [|split].
  - destruct (sections_cons (split_lines content) (mk_header i0 h)
                (scan_headers (S i0) tail) cs co) as (sl & Hsl & ->).
    assert (Hend : (i0 < section_end (List.length (split_lines content))
                           (mk_header i0 h) (scan_headers (S i0) tail))%nat).
    { apply section_end_after; [lia|].
      eapply List.Forall_impl; [|exact Hlater]. cbn. lia. }
    cbn [Chunker.index mk_header] in Hsl. rewrite Hskip in Hsl.
    destruct (section_end _ _ _ - i0)%nat as [|n] eqn:E; [lia|].
    cbn [firstn] in Hsl. subst sl.
    destruct (F64.int_gt_scaled _ cs F64.f1_5).
    + destruct (large_section_first_chunk h (firstn n tail) cs co)
        as (first & more & ->). cbn [app]. eauto.
    + cbn [app]. eauto.
  - rewrite <- Hskip. apply sections_runs_from.
    constructor; [cbn; lia|].
    eapply List.Forall_impl; [|exact Hlater]. cbn. lia.
  - pose proof (scan_headers_sorted (split_lines content) 0) as Hsorted.
    rewrite Hscan in Hsorted.
    assert (Hbound : Forall
              (fun h' => (Chunker.index h'
                          < List.length (split_lines content))%nat)
              (mk_header i0 h :: scan_headers (S i0) tail)).
    { constructor; [cbn; lia|].
      eapply List.Forall_impl; [|exact Hlater]. cbn beta. lia. }
    destruct (sections_windows (split_lines content) cs co _ Hsorted Hbound)
      as (ws & Hout & Hin & Hfirst & Hcover).
    exists ws. split; [exact Hout|]. split; [|split].
    + eapply List.Forall_impl; [|exact Hin]. cbn beta.
      intros w [Hw (h' & [<-|Hh'] & Hle)]; (split; [exact Hw|]).
      * exact Hle.
      * rewrite List.Forall_forall in Hlater. apply Hlater in Hh'.
        fold i0. lia.
    + apply (Hfirst _ _ eq_refl).
    + intros i Hi.
      destruct (header_before i _ Hsorted)
        as (before & h' & later & Heq & Hle & Hafter).
      { left. cbn. fold i0 in Hi. lia. }
      apply (Hcover before h' later i Heq). split; [exact Hle|].
      apply section_end_after; [lia | exact Hafter].
Qed.

Lemma split_with_headers_covers_witness :
  split_lines "intro
# A
text" = ["intro"] ++ "# A" :: ["text"]
  /\ Forall (fun l => is_header l = false) ["intro"]
  /\ is_header "# A" = true
  /\ exists ws,
       split_into_chunks "intro
# A
text" 100 20
       = List.map (chunk_at (split_lines "intro
# A
text")) ws
       /\ Forall
            (fun w =>
               in_text (split_lines "intro
# A
text") w
               /\ (List.length ["intro"] <= fst w)%nat) ws
       /\ fst (hd (0, 0)%nat ws) = List.length ["intro"]
       /\ forall i,
            (List.length ["intro"] <= i
             < List.length (split_lines "intro
# A
text"))%nat ->
            Exists (covers i) ws.
Proof.
  assert (H1 : split_lines "intro
# A
text" = ["intro"] ++ "# A" :: ["text"]) by reflexivity.
  assert (H2 : Forall (fun l => is_header l = false) ["intro"])
    by (repeat constructor).
  assert (H3 : is_header "# A" = true) by reflexivity.
  repeat (split; [assumption|]).
  exact (proj2 (proj2 (split_with_headers_covers _ 100 20 _ _ _ H1 H2 H3))).
Defined.

End WindowFacts.

(* ===================================================================== *)
(** * How long a chunk of [split_into_chunks] can be *)
(* ===================================================================== *)

Module BudgetFacts.

Import Chunker Py Notions MoreNotions ChunkerFacts CoverageFacts.

Lemma chunk_of_lines_budget cs co section_lines lines c :
  run_of section_lines lines ->
  chunk_of_lines cs co section_lines c ->
  exists run,
    run <> [] /\ run_of run lines /\ c = join_lines run
    /\ (F64.int_gt_scaled (len c) cs F64.f1_5 = false
        \/ len c < cs
        \/ exists w l, run = w ++ [l] /\ lines_size w <= Z.max 0 co).
Proof.
  intros Hsl (run & Hne & Hrun & Hb & ->). exists run.
  split; [exact Hne|]. split; [eapply run_of_trans; eassumption|].
  split; [reflexivity|]. right. destruct Hb as [Hb|Hb]; [left|right; exact Hb].
  rewrite len_join_lines by exact Hne. lia.
Qed.

Lemma run_of_refl (lines : list string) : run_of lines lines.
Proof. exists [], []. rewrite app_nil_r. reflexivity. Qed.

Lemma sections_budget lines cs co : forall hs,
  StronglySorted (fun h h' => (Chunker.index h < Chunker.index h')%nat) hs ->
  Forall (fun h => (Chunker.index h < List.length lines)%nat) hs ->
  Forall
    (fun c =>
       exists run,
         run <> [] /\ run_of run lines /\ c = join_lines run
         /\ (F64.int_gt_scaled (len c) cs F64.f1_5 = false
             \/ len c < cs
             \/ exists w l, run = w ++ [l] /\ lines_size w <= Z.max 0 co))
    (sections lines hs cs co).
Proof.
  induction hs as [|h hs IH]; intros Hs Hb; cbn [sections]; [constructor|].
  apply StronglySorted_inv in Hs as [Hs Hh].
  apply Forall_cons in Hb as [Hhn Hb].
  apply Forall_app. split; [|apply IH; assumption].
  pose proof (section_end_after _ h hs _ Hhn Hh) as Hend.
  pose proof (section_end_le _ h hs Hb) as Hle.
  set (sl := firstn (section_end (List.length lines) h hs - Chunker.index h)
               (skipn (Chunker.index h) lines)).
  assert (Hrun : run_of sl lines) by apply run_of_firstn_skipn.
  destruct (F64.int_gt_scaled _ cs F64.f1_5) eqn:E.
  - eapply List.Forall_impl; [|apply (split_large_chunks_of_lines _ cs co)].
    intros c Hc. eapply chunk_of_lines_budget; eassumption.
  - constructor; [|constructor]. exists sl.
    split; [|split; [exact Hrun|split; [reflexivity|left; exact E]]].
    intros Hnil. apply (f_equal (@List.length string)) in Hnil.
    unfold sl in Hnil. rewrite length_firstn, length_skipn in Hnil.
    cbn in Hnil. lia.
Qed.

(** No chunk of [split_into_chunks] is long unless a single line makes it
    so.  For a chunk size and a text below [2^53], where the code's
    comparison of an [int] with a [float] is the one written here: every
    chunk is a run of lines of the text that stand next to each other, not
    empty, and it is at most one and a half times [chunk_size] long, or
    shorter than [chunk_size], or its lines are an overlap window of at most
    [max(0, chunk_overlap)] characters, line breaks counted, followed by one
    line of the text. *)
Theorem split_into_chunks_budget content cs co :
  Z.abs cs < 2 ^ 53 ->
  len content < 2 ^ 53 ->
  Forall
    (fun c =>
       exists run,
         run <> [] /\ run_of run (split_lines content) /\ c = join_lines run
         /\ (F64.int_gt_scaled (len c) cs F64.f1_5 = false
             \/ len c < cs
             \/ exists w l, run = w ++ [l] /\ lines_size w <= Z.max 0 co))
    (split_into_chunks content cs co).
Proof.
  intros _ _. unfold split_into_chunks.
  destruct (nonempty (scan_headers 0 (split_lines content))).
  - apply sections_budget; [apply scan_headers_sorted|].
    apply List.Forall_forall. intros h Hh.
    apply scan_headers_spec in Hh as [Hh _]. lia.
  - eapply List.Forall_impl; [|apply (simple_split_chunks_of_lines _ cs co)].
    intros c Hc. eapply chunk_of_lines_budget; [apply run_of_refl | exact Hc].
Qed.

Lemma split_into_chunks_budget_witness :
  Z.abs 100 < 2 ^ 53
  /\ len (doc_content Fixtures.two_headers) < 2 ^ 53
  /\ Forall
       (fun c =>
          exists run,
            run <> []
            /\ run_of run (split_lines (doc_content Fixtures.two_headers))
            /\ c = join_lines run
            /\ (F64.int_gt_scaled (len c) 100 F64.f1_5 = false
                \/ len c < 100
                \/ exists w l,
                     run = w ++ [l] /\ lines_size w <= Z.max 0 20))
       (split_into_chunks (doc_content Fixtures.two_headers) 100 20).
Proof.
  assert (H1 : Z.abs 100 < 2 ^ 53) by (vm_compute; reflexivity).
  assert (H2 : len (doc_content Fixtures.two_headers) < 2 ^ 53)
    by (vm_compute; reflexivity).
  split; [exact H1|]. split; [exact H2|].
  exact (split_into_chunks_budget (doc_content Fixtures.two_headers) 100 20
           H1 H2).
Defined.

End BudgetFacts.


(* ===================================================================== *)
(** * [top_k] at and below zero *)
(* ===================================================================== *)

Module TopKFacts.

Import Py Store Notions MoreNotions Fixtures SearchFacts RetrievalFacts.

Lemma take_upto_length_clip {A} k (l : list A) :
  Z.of_nat (List.length (take_upto k l))
  = clip (Z.of_nat (List.length l)) k.
Proof.
  unfold take_upto, clip. rewrite length_firstn.
  destruct (Z.ltb_spec k 0); lia.
Qed.

Section Ranked.

Variable argsort : list float -> list nat.
Hypothesis argsort_sorts : sorts_ascending argsort.

Lemma ranking_length sims : List.length (ranking argsort sims) = List.length
    sims.
Proof.
  rewrite (Permutation_length (ranking_perm argsort argsort_sorts sims)).
  rewrite <- (length_map fst), enumerate_from_fst. apply List.length_seq.
Qed.

(** [search] never returns more results than there are stored chunks; with
    [top_k = 0] it returns none; and a negative [top_k] raises nothing: as a
    slice bound it counts from the end of the ranking, so at least
    [-top_k] of the stored chunks are left out. *)
Theorem search_top_k_at_most_zero encode st query top_k threshold language'
    category' res :
  search encode argsort st query top_k threshold language' category' = Ok res ->
  (List.length res <= List.length (_chunks st))%nat
  /\ (top_k = 0 -> res = [])
  /\ (top_k < 0 ->
      Z.of_nat (List.length res)
      <= Z.max 0 (Z.of_nat (List.length (_chunks st)) + top_k)).
Proof.
  intros H.
  destruct (search_Ok_scored argsort argsort_sorts _ _ _ _ _ _ _ _ H) as (sims
      & idxs & Hsc).
  destruct (search_ranked argsort argsort_sorts encode st query top_k
      language' category' _ _ Hsc)
    as (es & He & Hres).
  rewrite Hres in H. injection H as <-.
  destruct (scored_valid _ _ _ _ _ _ _ Hsc) as (Hlen & Hsorted & Hslots).
  pose proof (sorted_slots_length _ _ Hsorted Hslots) as Hn.
  pose proof (List.filter_length_le (at_least threshold) es) as Hf.
  apply Forall2_length in He.
  pose proof (take_upto_length_clip top_k (ranking argsort sims)) as Hclip.
  rewrite ranking_length in Hclip. unfold clip in Hclip.
  split; [|split].
  - destruct (Z.ltb_spec top_k 0); lia.
  - intros ->. cbn in Hclip.
    destruct es; [reflexivity|]. cbn in He. lia.
  - intros Hk. destruct (Z.ltb_spec top_k 0); lia.
Qed.

End Ranked.

Lemma search_top_k_at_most_zero_witness :
  search letter_model insertion_argsort small_index "a" (-3) 0.5 None None
  = Ok [(c1, 1%float)]
  /\ Z.of_nat (List.length [(c1, 1%float)])
     <= Z.max 0 (Z.of_nat (List.length (_chunks small_index)) + -3).
Proof.
  assert (H : search letter_model insertion_argsort small_index "a" (-3) 0.5
                None None
              = Ok [(c1, 1%float)]) by (vm_compute; reflexivity).
  split; [exact H|].
  apply (search_top_k_at_most_zero insertion_argsort insertion_argsort_sorts
           letter_model small_index "a" (-3) 0.5 None None _ H).
  lia.
Defined.

End TopKFacts.
